(** * Route-Planner: the itinerary, animation and map-tour logic of [map_app.ts]

    A shallow embedding of the [MapApp] component's pure post-processing
    (totals, colour spectrum, duration text, table parser) and of its
    state-changing handlers (animation loop, tour list, file import/export,
    [handleMapQuery]), with the properties the specification states for them.

    Conventions.  JavaScript numbers that the code uses as counters, ids,
    metres and whole seconds are integers ([Z], [nat] for list positions);
    numbers that carry fractions (rates, delays, coordinates) are exact
    rationals ([Q]).  The rounding of a finite double to a neighbouring one
    is outside this reading; where rounding decides the result, in the colour
    spectrum, the computation is repeated on binary64 floats and compared.
    What doubles do beyond that is modelled where the code meets it: the
    counter of the view ids, which no longer counts from 2^53 on ([js_add]);
    the cost of fuel, a quotient that is [Infinity] or [NaN] when the MPG is
    0 ([jsnumber]); and a tour file that holds [Infinity], which is accepted
    and which [JSON.stringify] writes as [null] ([through_text]).
    Text that may hold any character is a list of
    UTF-16 code units; text built from ASCII literals and digits is a
    [string].  Objects of the mapping SDK (markers, polylines, locations,
    bounds) are records of what the component writes to or reads from them. *)

From Stdlib Require Import ZArith QArith Qround Qabs List String Ascii Bool Lia Lqa
  Permutation DecimalString.
From Stdlib Require Floats Uint63.
Import ListNotations.

(* ================================================================= *)
(** ** JavaScript built-ins used by the component *)

Module JS.

Open Scope string_scope.
Open Scope Z_scope.

(** [`${n}`] for an integral number: its decimal digits. *)
Definition show (n : Z) : string := NilZero.string_of_int (Z.to_int n).

(** White space of [String.prototype.trim] within ASCII: TAB, LF, VT, FF, CR
    and SPACE. *)
Definition is_ws (c : ascii) : bool :=
  let n := nat_of_ascii c in
  ((9 <=? n) && (n <=? 13))%nat || (n =? 32)%nat.

Fixpoint trimStart (s : string) : string :=
  match s with
  | String c s' => if is_ws c then trimStart s' else s
  | EmptyString => EmptyString
  end.

Fixpoint trimEnd (s : string) : string :=
  match s with
  | EmptyString => EmptyString
  | String c s' =>
      match trimEnd s' with
      | EmptyString => if is_ws c then EmptyString else String c EmptyString
      | t => String c t
      end
  end.

Definition trim (s : string) : string := trimEnd (trimStart s).

(** [Math.floor (a / b)] for integers [a] and [b > 0] is [a / b] of [Z];
    [a % b] takes the sign of the dividend: [Z.rem]. *)
Definition Math_floor_div (a b : Z) : Z := a / b.
Definition js_rem (a b : Z) : Z := Z.rem a b.

(** [Math.round]: the nearest integer, a tie going up. *)
Definition Math_round (x : Q) : Z := Qfloor (x + (1 # 2)).

(** *** Strings of arbitrary text

    User input, stop names and file contents are sequences of UTF-16 code
    units, as JavaScript strings are.  [u] writes an ASCII literal. *)
Open Scope list_scope.

Definition jsstring : Type := list N.

Definition u (s : string) : jsstring := map N_of_ascii (list_ascii_of_string s).

Definition jsstring_eqb (a b : jsstring) : bool :=
  if list_eq_dec N.eq_dec a b then true else false.

(** WhiteSpace and LineTerminator code units, as [trim] strips them. *)
Definition is_white (c : N) : bool :=
  (((9 <=? c) && (c <=? 13)) || (c =? 32) || (c =? 160) || (c =? 5760)
   || ((8192 <=? c) && (c <=? 8202)) || (c =? 8232) || (c =? 8233)
   || (c =? 8239) || (c =? 8287) || (c =? 12288) || (c =? 65279))%N.

Fixpoint dropWhite (s : jsstring) : jsstring :=
  match s with
  | c :: s' => if is_white c then dropWhite s' else s
  | [] => []
  end.

Definition trimU (s : jsstring) : jsstring := rev (dropWhite (rev (dropWhite s))).

Fixpoint startsWith (p s : jsstring) : bool :=
  match p, s with
  | [], _ => true
  | a :: p', b :: s' => (a =? b)%N && startsWith p' s'
  | _ :: _, [] => false
  end.

Fixpoint includes (p s : jsstring) : bool :=
  startsWith p s || match s with [] => false | _ :: s' => includes p s' end.

(** [s.split(sep)] for a non-empty separator: [skip] counts the code units of
    a separator just matched that are still to be passed over. *)
Fixpoint split_from (sep : jsstring) (skip : nat) (cur : jsstring) (s : jsstring)
  : list jsstring :=
  match s with
  | [] => [rev cur]
  | c :: s' =>
      match skip with
      | S k => split_from sep k cur s'
      | O =>
          if startsWith sep s
          then rev cur :: split_from sep (List.length sep - 1) [] s'
          else split_from sep 0 (c :: cur) s'
      end
  end.

Definition split (sep s : jsstring) : list jsstring := split_from sep 0 [] s.

(** [s.split(/a|b/)] for alternatives of one code unit each. *)
Fixpoint splitAny_from (isSep : N -> bool) (cur : jsstring) (s : jsstring)
  : list jsstring :=
  match s with
  | [] => [rev cur]
  | c :: s' =>
      if isSep c then rev cur :: splitAny_from isSep [] s'
      else splitAny_from isSep (c :: cur) s'
  end.

Definition splitAny (isSep : N -> bool) (s : jsstring) : list jsstring :=
  splitAny_from isSep [] s.

(** [s.replace(/p1|p2|.../g, '')]: at each position the first alternative
    that matches is removed. *)
Fixpoint removeAll_from (pats : list jsstring) (skip : nat) (s : jsstring) : jsstring :=
  match s with
  | [] => []
  | c :: s' =>
      match skip with
      | S k => removeAll_from pats k s'
      | O =>
          match find (fun p => startsWith p s) pats with
          | Some p =>
              match List.length p with
              | O => c :: removeAll_from pats 0 s'
              | S k => removeAll_from pats k s'
              end
          | None => c :: removeAll_from pats 0 s'
          end
      end
  end.

Definition removeAll (pats : list jsstring) (s : jsstring) : jsstring :=
  removeAll_from pats 0 s.

(** A string as a condition: the empty string is falsy. *)
Definition truthy (s : jsstring) : bool :=
  match s with [] => false | _ :: _ => true end.

(** [arr.join(sep)] *)
Fixpoint join (sep : jsstring) (l : list jsstring) : jsstring :=
  match l with
  | [] => []
  | [x] => x
  | x :: rest => x ++ sep ++ join sep rest
  end.

(** The double quote, U+0022. *)
Definition quote : jsstring := [34%N].

(** [arr.findIndex(p)]: the first index whose element satisfies [p];
    [None] stands for -1. *)
Fixpoint findIndex {A : Type} (p : A -> bool) (l : list A) : option nat :=
  match l with
  | [] => None
  | x :: l' => if p x then Some O else option_map S (findIndex p l')
  end.

(** [arr.splice(start, 1)] on a copy: the element taken out, if any, and what
    is left. *)
Definition splice_out {A : Type} (start : nat) (l : list A) : option A * list A :=
  (nth_error l start, firstn start l ++ skipn (S start) l).

(** [arr.splice(start, 0, item)]: [item] put in front of index [start]
    (at the end when [start] is past it). *)
Definition splice_in {A : Type} (start : nat) (item : A) (l : list A) : list A :=
  firstn start l ++ item :: skipn start l.

(** *** Whole numbers as doubles

    An id and a counter are doubles that hold a whole number.  Every whole
    number up to 2^53 in size is a double; beyond, the doubles are the
    multiples of a power of two, and a whole number is rounded to the
    nearest of them, a tie going to the even multiple. *)
Definition to_double (z : Z) : Z :=
  let a := Z.abs z in
  if a <? 2 ^ 53 then z
  else
    let ulp := 2 ^ (Z.log2 a - 52) in
    let q := a / ulp in
    let r := a mod ulp in
    let q :=
      match 2 * r ?= ulp with
      | Lt => q
      | Gt => q + 1
      | Eq => if Z.even q then q else q + 1
      end in
    Z.sgn z * (q * ulp).

(** [a + b], and the [+ 1] of [a++], on such doubles: the exact sum,
    rounded.  The sum of a whole double and 1 is never beyond the largest
    double. *)
Definition js_add (a b : Z) : Z := to_double (a + b).

(** The same sum on the kernel's binary64 floats, for whole numbers below
    2^63. *)
Definition as_float (n : Z) : PrimFloat.float := PrimFloat.of_uint63 (Uint63.of_Z n).

Example js_add_on_doubles :
  forallb (fun n => PrimFloat.eqb (PrimFloat.add (as_float n) (as_float 1))
                      (as_float (js_add n 1)))
    [0; 41; 2 ^ 52; 2 ^ 53 - 2; 2 ^ 53 - 1; 2 ^ 53; 2 ^ 53 + 2; 2 ^ 53 + 4;
     2 ^ 54 - 2; 2 ^ 54; 2 ^ 54 + 4; 2 ^ 60; 2 ^ 62] = true.
Proof. vm_compute. reflexivity. Qed.

Lemma js_add_exact (n : Z) : - 2 ^ 53 <= n < 2 ^ 53 -> js_add n 1 = n + 1.
Proof.
  change (2 ^ 53) with 9007199254740992. intros H. unfold js_add, to_double.
  change (2 ^ 53) with 9007199254740992.
  destruct (Z.ltb_spec (Z.abs (n + 1)) 9007199254740992) as [_|C]; [reflexivity|].
  assert (E : n + 1 = 9007199254740992) by lia. rewrite E. vm_compute. reflexivity.
Qed.

(** At 2^53 the counter no longer moves. *)
Lemma js_add_stuck : js_add (2 ^ 53) 1 = 2 ^ 53.
Proof. vm_compute. reflexivity. Qed.

Lemma to_double_positive (z : Z) : 0 < z -> 0 < to_double z.
Proof.
  intros H. unfold to_double.
  destruct (Z.ltb_spec (Z.abs z) (2 ^ 53)) as [_|C]; [exact H|].
  rewrite (Z.abs_eq z) in * by lia. rewrite (Z.sgn_pos z H), Z.mul_1_l.
  assert (L : 53 <= Z.log2 z).
  { rewrite <- (Z.log2_pow2 53) by lia. now apply Z.log2_le_mono. }
  set (e := Z.log2 z - 52).
  assert (U : 0 < 2 ^ e) by (apply Z.pow_pos_nonneg; lia).
  assert (Q : 2 ^ 52 <= z / 2 ^ e).
  { apply Z.div_le_lower_bound; [exact U|].
    rewrite Z.mul_comm, <- Z.pow_add_r by lia.
    replace (52 + e) with (Z.log2 z) by lia. now apply Z.log2_spec. }
  assert (P : 0 < 2 ^ 52) by reflexivity.
  destruct (2 * (z mod 2 ^ e) ?= 2 ^ e); [destruct (Z.even (z / 2 ^ e))| |]; nia.
Qed.

Lemma js_add_positive (m : Z) : 0 <= m -> 1 <= js_add m 1.
Proof.
  intros H. unfold js_add.
  assert (P : 0 < to_double (m + 1)) by (apply to_double_positive; lia). lia.
Qed.

(** *** Numbers that need not be finite

    A cost of fuel is a quotient.  A double that is finite is read as the
    rational it stands for, and [finite q] as the double nearest to [q]; a
    division by zero gives [Infinity], [-Infinity] or [NaN], which the
    products and sums that follow keep.
    The zero that the code divides by is +0: the MPG field stores
    [parseFloat(...) || 0], and [-0 || 0] is 0. *)
Inductive jsnumber : Type :=
  | finite (q : Q)
  | infinite (negative : bool)
  | NaN.

Definition js_divide (x y : jsnumber) : jsnumber :=
  match x, y with
  | finite a, finite b =>
      match (b ?= 0)%Q with
      | Eq =>
          match (a ?= 0)%Q with
          | Eq => NaN
          | Gt => infinite false
          | Lt => infinite true
          end
      | _ => finite (a / b)
      end
  | finite _, infinite _ => finite 0
  | infinite s, finite b => infinite (if Qlt_le_dec b 0 then negb s else s)
  | _, _ => NaN
  end.

Definition js_times (x y : jsnumber) : jsnumber :=
  match x, y with
  | finite a, finite b => finite (a * b)
  | finite a, infinite s | infinite s, finite a =>
      match (a ?= 0)%Q with
      | Eq => NaN
      | Gt => infinite s
      | Lt => infinite (negb s)
      end
  | infinite s, infinite t => infinite (xorb s t)
  | _, _ => NaN
  end.

Definition js_plus (x y : jsnumber) : jsnumber :=
  match x, y with
  | finite a, finite b => finite (a + b)
  | finite _, infinite s | infinite s, finite _ => infinite s
  | infinite s, infinite t => if Bool.eqb s t then infinite s else NaN
  | _, _ => NaN
  end.


(** The same quotients, products and sums on the kernel's binary64 floats. *)
Example division_by_zero_on_doubles :
  PrimFloat.eqb (PrimFloat.div (as_float 5) (as_float 0)) PrimFloat.infinity = true /\
  PrimFloat.is_nan (PrimFloat.div (as_float 0) (as_float 0)) = true /\
  PrimFloat.eqb (PrimFloat.mul PrimFloat.infinity (as_float 35)) PrimFloat.infinity
  = true /\
  PrimFloat.eqb (PrimFloat.add PrimFloat.infinity (as_float 7)) PrimFloat.infinity
  = true /\
  PrimFloat.is_nan (PrimFloat.add PrimFloat.infinity PrimFloat.neg_infinity) = true.
Proof. repeat split; vm_compute; reflexivity. Qed.



End JS.

(* ================================================================= *)
(** ** [_formatTotalDuration] *)

Module Duration.
Import JS.
Open Scope string_scope.
Open Scope Z_scope.

Definition _formatTotalDuration (totalSeconds : Z) : string :=
  let days := Math_floor_div totalSeconds (3600 * 24) in
  let totalSeconds := js_rem totalSeconds (3600 * 24) in
  let hours := Math_floor_div totalSeconds 3600 in
  let totalSeconds := js_rem totalSeconds 3600 in
  let minutes := Math_floor_div totalSeconds 60 in
  let result := "" in
  let result :=
    if 0 <? days
    then result ++ show days ++ " day" ++ (if 1 <? days then "s" else "") ++ " "
    else result in
  let result :=
    if 0 <? hours
    then result ++ show hours ++ " hour" ++ (if 1 <? hours then "s" else "") ++ " "
    else result in
  let result :=
    if 0 <? minutes
    then result ++ show minutes ++ " min" ++ (if 1 <? minutes then "s" else "")
    else result in
  trim result.

(** The specification's reading: the three counts, each with its unit. *)
Definition components (s : Z) : list (Z * string) :=
  [ (s / 86400, "day"); ((s mod 86400) / 3600, "hour"); ((s mod 3600) / 60, "min") ].

Definition render (c : Z * string) : string :=
  show (fst c) ++ " " ++ snd c ++ (if 1 <? fst c then "s" else "").

Definition spec_duration (s : Z) : string :=
  String.concat " " (map render (filter (fun c => negb (fst c =? 0)) (components s))).

Example duration_90061 : _formatTotalDuration 90061 = "1 day 1 hour 1 min".
Proof. reflexivity. Qed.

Example duration_180000 : _formatTotalDuration 180000 = "2 days 2 hours".
Proof. reflexivity. Qed.

Example duration_59 : _formatTotalDuration 59 = "".
Proof. reflexivity. Qed.

(** *** Facts about [trim] and decimal digits *)

Lemma append_assoc (a b c : string) : (a ++ b) ++ c = a ++ b ++ c.
Proof. induction a as [|x a IH]; simpl; [reflexivity | now rewrite IH]. Qed.

Lemma append_empty_r (a : string) : a ++ "" = a.
Proof. induction a as [|x a IH]; simpl; [reflexivity | now rewrite IH]. Qed.

Lemma trimEnd_app_blank (a b : string) :
  trimEnd b = "" -> trimEnd (a ++ b) = trimEnd a.
Proof.
  intros Hb. induction a as [|x a IH]; simpl; [exact Hb | now rewrite IH].
Qed.

Lemma trimEnd_app_solid (a b : string) :
  trimEnd b <> "" -> trimEnd (a ++ b) = a ++ trimEnd b.
Proof.
  intros Hb. induction a as [|x a IH]; simpl; [reflexivity|].
  rewrite IH. destruct (a ++ trimEnd b) eqn:E; [|reflexivity].
  destruct a; simpl in E; [contradiction | discriminate].
Qed.

(** A piece of text that [trim] leaves alone: it starts and ends with a
    character that is not white space. *)
Definition head_solid (s : string) : Prop :=
  match s with String c _ => is_ws c = false | EmptyString => False end.

Definition tail_solid (s : string) : Prop := trimEnd s = s /\ s <> "".

Definition solid (s : string) : Prop := head_solid s /\ tail_solid s.

Lemma trimStart_head_solid (s : string) : head_solid s -> trimStart s = s.
Proof. destruct s as [|c s]; simpl; [tauto | now intros ->]. Qed.

Lemma head_solid_app (a b : string) : head_solid a -> head_solid (a ++ b).
Proof. destruct a; simpl; tauto. Qed.

Lemma tail_solid_app (a b : string) : tail_solid b -> tail_solid (a ++ b).
Proof.
  intros [Hb Hne]. split.
  - rewrite trimEnd_app_solid; rewrite Hb; auto.
  - destruct a; simpl; [exact Hne | discriminate].
Qed.

Lemma trim_solid (s : string) : solid s -> trim s = s.
Proof.
  intros [Hh [Ht _]]. unfold trim. now rewrite trimStart_head_solid, Ht.
Qed.

Lemma trim_solid_blank (s : string) : solid s -> trim (s ++ " ") = s.
Proof.
  intros [Hh [Ht _]]. unfold trim.
  rewrite trimStart_head_solid by now apply head_solid_app.
  now rewrite trimEnd_app_blank.
Qed.

Lemma solid_join (a b : string) : solid a -> solid b -> solid (a ++ " " ++ b).
Proof.
  intros [Ha _] [_ Hb]. split.
  - now apply head_solid_app.
  - apply tail_solid_app. now apply (tail_solid_app " ").
Qed.

Lemma uint_head_solid (u : Decimal.uint) : head_solid (NilZero.string_of_uint u).
Proof. destruct u; reflexivity. Qed.

Lemma show_head_solid (n : Z) : head_solid (show n).
Proof.
  unfold show. destruct (Z.to_int n) as [u|u]; simpl;
    [apply uint_head_solid | reflexivity].
Qed.

Lemma render_solid (n : Z) (u : string) :
  tail_solid u -> solid (render (n, u)).
Proof.
  intros Hu. unfold render; simpl. split.
  - apply head_solid_app, show_head_solid.
  - apply tail_solid_app. apply (tail_solid_app " ").
    destruct (1 <? n).
    + apply tail_solid_app. split; [reflexivity | discriminate].
    + now rewrite append_empty_r.
Qed.

Lemma piece (n : Z) (u : string) :
  show n ++ String " " u ++ (if 1 <? n then "s" else "") = render (n, u).
Proof. reflexivity. Qed.

Lemma piece_blank (n : Z) (u : string) :
  show n ++ String " " u ++ (if 1 <? n then "s" else "") ++ " "
  = render (n, u) ++ " ".
Proof.
  unfold render; cbn [fst snd].
  repeat (rewrite !append_assoc; cbn [append]). reflexivity.
Qed.

Lemma trim_join_blank (a b : string) :
  solid a -> solid b -> trim (a ++ " " ++ b ++ " ") = a ++ " " ++ b.
Proof.
  intros Ha Hb.
  replace (a ++ " " ++ b ++ " ") with ((a ++ " " ++ b) ++ " ")
    by (now rewrite !append_assoc).
  apply trim_solid_blank, solid_join; assumption.
Qed.

Lemma components_nonneg (s : Z) :
  0 <= s -> 0 <= s / 86400 /\ 0 <= (s mod 86400) / 3600 /\ 0 <= (s mod 3600) / 60.
Proof.
  intros Hs. repeat split; apply Z.div_pos; try lia; apply Z.mod_pos_bound; lia.
Qed.

(** C5.  For every whole number of seconds [s >= 0], [_formatTotalDuration s]
    is the text of the decomposition into days [s / 86400], hours
    [(s mod 86400) / 3600] and minutes [(s mod 3600) / 60]: the non-zero
    components only, in that order, separated by single spaces, each unit with
    a plural "s" exactly when its count exceeds 1; and it is the empty string
    when [s < 60]. *)
Theorem formatTotalDuration_spec (s : Z) :
  0 <= s ->
  _formatTotalDuration s = spec_duration s /\
  (s < 60 -> _formatTotalDuration s = "").
Proof.
  intros Hs.
  assert (E : _formatTotalDuration s = spec_duration s).
  { destruct (components_nonneg s Hs) as (Hd & Hh & Hm).
    unfold _formatTotalDuration, spec_duration, components, Math_floor_div, js_rem.
    rewrite (Z.rem_mod_nonneg s) by lia.
    rewrite (Z.rem_mod_nonneg (s mod _)) by (try apply Z.mod_pos_bound; lia).
    replace ((s mod (3600 * 24)) mod 3600) with (s mod 3600)
      by (symmetry; apply Z.mod_mod_divide; exists 24; lia).
    change (3600 * 24) with 86400.
    set (d := s / 86400) in *. set (h := (s mod 86400) / 3600) in *.
    set (m := (s mod 3600) / 60) in *.
    assert (Sd : solid (render (d, "day")))
      by (apply render_solid; split; [reflexivity | discriminate]).
    assert (Sh : solid (render (h, "hour")))
      by (apply render_solid; split; [reflexivity | discriminate]).
    assert (Sm : solid (render (m, "min")))
      by (apply render_solid; split; [reflexivity | discriminate]).
    cbv zeta. rewrite !piece_blank, piece.
    cbn [filter map fst snd].
    destruct (Z.ltb_spec 0 d) as [Pd|Pd], (Z.eqb_spec d 0) as [Zd|Zd]; try lia;
    destruct (Z.ltb_spec 0 h) as [Ph|Ph], (Z.eqb_spec h 0) as [Zh|Zh]; try lia;
    destruct (Z.ltb_spec 0 m) as [Pm|Pm], (Z.eqb_spec m 0) as [Zm|Zm]; try lia;
    cbn [negb map String.concat]; change (append "") with (fun x : string => x);
    cbv beta; rewrite ?append_assoc;
    first [ reflexivity
          | apply trim_solid_blank; assumption
          | apply trim_join_blank; assumption
          | apply trim_solid; repeat first [assumption | apply solid_join] ]. }
  split; [exact E|].
  intros Hlt. rewrite E. unfold spec_duration, components.
  rewrite !Z.mod_small by lia. rewrite !Z.div_small by lia. reflexivity.
Qed.

Lemma formatTotalDuration_spec_witness :
  _formatTotalDuration 93780 = "1 day 2 hours 3 mins" /\
  spec_duration 93780 = "1 day 2 hours 3 mins".
Proof.
  destruct (formatTotalDuration_spec 93780 ltac:(lia)) as [E _].
  split; [reflexivity | rewrite <- E; reflexivity].
Defined.

End Duration.

(* ================================================================= *)
(** ** [_generateColorSpectrum] *)

Module Spectrum.
Import JS.
Open Scope string_scope.

Record rgb : Type := { r : Z; g : Z; b : Z }.

Definition green : rgb := {| r := 0; g := 255; b := 0 |}.
Definition blue : rgb := {| r := 0; g := 0; b := 255 |}.
Definition red : rgb := {| r := 255; g := 0; b := 0 |}.

(** The template [`rgb(${r}, ${g}, ${b})`]. *)
Definition css (c : rgb) : string :=
  "rgb(" ++ show (r c) ++ ", " ++ show (g c) ++ ", " ++ show (b c) ++ ")".

(** One channel: [Math.round(from + (to - from) * fraction)]. *)
Definition channel (from to : Z) (fraction : Q) : Z :=
  Math_round (inject_Z from + (inject_Z to - inject_Z from) * fraction).

(** The body of both loops: the colour between two anchors at [fraction]. *)
Definition mix (from to : rgb) (fraction : Q) : string :=
  css {| r := channel (r from) (r to) fraction;
         g := channel (g from) (g to) fraction;
         b := channel (b from) (b to) fraction |}.

Definition ratio (i n : nat) : Q := inject_Z (Z.of_nat i) / inject_Z (Z.of_nat n).

Definition _generateColorSpectrum (steps : nat) : list string :=
  if (steps <=? 1)%nat then ["rgb(0, 255, 0)"]
  else
    let midPointIndex := ((steps - 1) / 2)%nat in
    (* for (let i = 0; i <= midPointIndex; i++) *)
    let firstHalf :=
      map (fun i =>
             let fraction := if (midPointIndex =? 0)%nat then 1%Q else ratio i midPointIndex in
             mix green blue fraction)
          (seq 0 (midPointIndex + 1)) in
    let secondHalfSteps := (steps - 1 - midPointIndex)%nat in
    (* for (let i = 1; i <= secondHalfSteps; i++) *)
    let secondHalf :=
      map (fun i => mix blue red (ratio i secondHalfSteps)) (seq 1 secondHalfSteps) in
    firstHalf ++ secondHalf.

(** The specification's reading: the colour at index [i] of an [n]-colour
    spectrum, by linear interpolation between the anchors green (index 0),
    blue (index [(n-1)/2]) and red (index [n-1]). *)
Definition spec_color (n i : nat) : string :=
  let mid := ((n - 1) / 2)%nat in
  if (i <=? mid)%nat
  then mix green blue (if (mid =? 0)%nat then 1%Q else ratio i mid)
  else mix blue red (ratio (i - mid) (n - 1 - mid)).

Example spectrum_1 : _generateColorSpectrum 1 = ["rgb(0, 255, 0)"].
Proof. reflexivity. Qed.

Example spectrum_2 : _generateColorSpectrum 2 = ["rgb(0, 0, 255)"; "rgb(255, 0, 0)"].
Proof. vm_compute. reflexivity. Qed.

Example spectrum_3 :
  _generateColorSpectrum 3 = ["rgb(0, 255, 0)"; "rgb(0, 0, 255)"; "rgb(255, 0, 0)"].
Proof. vm_compute. reflexivity. Qed.

Example spectrum_6 :
  _generateColorSpectrum 6 =
  ["rgb(0, 255, 0)"; "rgb(0, 128, 128)"; "rgb(0, 0, 255)";
   "rgb(85, 0, 170)"; "rgb(170, 0, 85)"; "rgb(255, 0, 0)"].
Proof. vm_compute. reflexivity. Qed.

(** *** Rounding at the anchors *)

Open Scope Q_scope.

Lemma Math_round_Z (z : Z) : Math_round (inject_Z z) = z.
Proof.
  unfold Math_round.
  pose proof (Qfloor_le (inject_Z z + (1 # 2))) as H1.
  pose proof (Qlt_floor (inject_Z z + (1 # 2))) as H2.
  set (k := Qfloor _) in *.
  rewrite inject_Z_plus in H2. change (inject_Z 1) with 1%Q in H2.
  assert (A : inject_Z k < inject_Z (z + 1))
    by (rewrite inject_Z_plus; change (inject_Z 1) with 1%Q; lra).
  assert (B : inject_Z z < inject_Z (k + 1))
    by (rewrite inject_Z_plus; change (inject_Z 1) with 1%Q; lra).
  rewrite <- Zlt_Qlt in A, B. lia.
Qed.

Lemma Math_round_comp (x y : Q) : x == y -> Math_round x = Math_round y.
Proof. intros H. unfold Math_round. apply Qfloor_comp. now rewrite H. Qed.

Lemma channel_0 (from to : Z) (f : Q) : f == 0 -> channel from to f = from.
Proof.
  intros Hf. unfold channel.
  rewrite (Math_round_comp _ (inject_Z from)) by (rewrite Hf; ring).
  apply Math_round_Z.
Qed.

Lemma channel_1 (from to : Z) (f : Q) : f == 1 -> channel from to f = to.
Proof.
  intros Hf. unfold channel.
  rewrite (Math_round_comp _ (inject_Z to)) by (rewrite Hf; ring).
  apply Math_round_Z.
Qed.

Lemma mix_0 (from to : rgb) (f : Q) : f == 0 -> mix from to f = css from.
Proof. intros Hf. unfold mix, css; simpl. now rewrite !channel_0. Qed.

Lemma mix_1 (from to : rgb) (f : Q) : f == 1 -> mix from to f = css to.
Proof. intros Hf. unfold mix, css; simpl. now rewrite !channel_1. Qed.

Lemma ratio_0 (n : nat) : ratio 0 n == 0.
Proof. unfold ratio. simpl. unfold Qdiv. ring. Qed.

Lemma ratio_same (n : nat) : (0 < n)%nat -> ratio n n == 1.
Proof.
  intros Hn. unfold ratio. apply Qmult_inv_r.
  change 0 with (inject_Z 0). rewrite inject_Z_injective. lia.
Qed.

(** *** The two loops, index by index *)

Lemma seq_from (k len : nat) : seq k len = map (fun j => (j + k)%nat) (seq 0 len).
Proof.
  revert k. induction len as [|len IH]; intros k; [reflexivity|].
  simpl. f_equal. rewrite (IH (S k)), (IH 1%nat), !map_map.
  apply map_ext. intros j. lia.
Qed.

Lemma midpoint_bounds (n : nat) :
  (2 <= n)%nat -> ((n - 1) / 2 + 1 <= n - 1)%nat /\ (n - 1 = (n - 1) / 2 + 1 + (n - 2 - (n - 1) / 2))%nat.
Proof.
  intros Hn.
  assert (H : ((n - 1) / 2 < n - 1)%nat) by (apply Nat.div_lt; lia).
  lia.
Qed.

Lemma generateColorSpectrum_pointwise (n : nat) :
  (2 <= n)%nat -> _generateColorSpectrum n = map (spec_color n) (seq 0 n).
Proof.
  intros Hn. unfold _generateColorSpectrum.
  destruct (Nat.leb_spec n 1) as [H|_]; [lia|]. cbv zeta.
  set (mid := ((n - 1) / 2)%nat).
  assert (Hm : (mid < n - 1)%nat) by (apply Nat.div_lt; lia).
  assert (E : seq 0 n = (seq 0 (mid + 1) ++ seq (0 + (mid + 1)) (n - 1 - mid))%list)
    by (rewrite <- seq_app; f_equal; lia).
  rewrite E, map_app. f_equal.
  - apply map_ext_in. intros i Hi. apply in_seq in Hi.
    unfold spec_color. fold mid.
    destruct (Nat.leb_spec i mid) as [_|H]; [reflexivity | lia].
  - rewrite (seq_from 1), (seq_from (0 + (mid + 1))), !map_map.
    apply map_ext_in. intros j Hj. apply in_seq in Hj.
    unfold spec_color. fold mid.
    destruct (Nat.leb_spec (j + (0 + (mid + 1))) mid) as [H|_]; [lia|].
    do 2 f_equal. lia.
Qed.

Lemma generateColorSpectrum_length (n : nat) :
  (1 <= n)%nat -> List.length (_generateColorSpectrum n) = n.
Proof.
  intros Hn. destruct (Nat.eq_dec n 1) as [->|Hne]; [reflexivity|].
  rewrite generateColorSpectrum_pointwise by lia.
  now rewrite length_map, length_seq.
Qed.

Lemma generateColorSpectrum_nth (n i : nat) :
  (2 <= n)%nat -> (i < n)%nat ->
  nth i (_generateColorSpectrum n) ""%string = spec_color n i.
Proof.
  intros Hn Hi. rewrite generateColorSpectrum_pointwise by lia.
  rewrite (nth_indep _ ""%string (spec_color n 0)) by (now rewrite length_map, length_seq).
  rewrite map_nth, seq_nth by lia. reflexivity.
Qed.

(** The claim fails at two leg counts.  With no leg the function still
    returns one colour; with two legs the midpoint index is 0, the guard
    [midPointIndex === 0 ? 1.0 : ...] makes the first colour blue, and the
    spectrum is blue, red with no green in it. *)
Lemma generateColorSpectrum_counterexample :
  List.length (_generateColorSpectrum 0) <> 0%nat /\
  nth 0 (_generateColorSpectrum 2) ""%string <> "rgb(0, 255, 0)"%string /\
  _generateColorSpectrum 2 = ["rgb(0, 0, 255)"; "rgb(255, 0, 0)"]%string.
Proof.
  split; [|split].
  - intros H. vm_compute in H. discriminate.
  - intros H. vm_compute in H. discriminate.
  - vm_compute. reflexivity.
Qed.

(** C2 (amended).  [_generateColorSpectrum n] returns exactly [n] colours for
    every [n >= 1], and the single colour green for [n <= 1] (so one colour,
    not none, for [n = 0]).  For [n >= 2] the colour at index
    [floor((n-1)/2)] is blue, the last one is red, and the colour at every
    index is the rounded per-channel linear interpolation [spec_color]
    between the anchors; the first colour is green for [n >= 3], and blue for
    [n = 2], where the midpoint is the first index. *)
Theorem generateColorSpectrum_spec (n : nat) :
  ((n <= 1)%nat -> _generateColorSpectrum n = ["rgb(0, 255, 0)"%string]) /\
  ((1 <= n)%nat -> List.length (_generateColorSpectrum n) = n) /\
  ((2 <= n)%nat ->
     nth ((n - 1) / 2) (_generateColorSpectrum n) ""%string = "rgb(0, 0, 255)"%string /\
     nth (n - 1) (_generateColorSpectrum n) ""%string = "rgb(255, 0, 0)"%string /\
     forall i, (i < n)%nat -> nth i (_generateColorSpectrum n) ""%string = spec_color n i) /\
  ((3 <= n)%nat -> nth 0 (_generateColorSpectrum n) ""%string = "rgb(0, 255, 0)"%string) /\
  (n = 2%nat -> nth 0 (_generateColorSpectrum n) ""%string = "rgb(0, 0, 255)"%string).
Proof.
  split; [|split; [|split; [|split]]].
  - intros Hn. unfold _generateColorSpectrum.
    destruct (Nat.leb_spec n 1) as [_|H]; [reflexivity | lia].
  - apply generateColorSpectrum_length.
  - intros Hn.
    assert (Hm : ((n - 1) / 2 < n - 1)%nat) by (apply Nat.div_lt; lia).
    split; [|split].
    + rewrite generateColorSpectrum_nth by lia. unfold spec_color.
      rewrite Nat.leb_refl.
      destruct (Nat.eqb_spec ((n - 1) / 2) 0) as [E|E].
      * now rewrite mix_1.
      * rewrite mix_1; [reflexivity | apply ratio_same; lia].
    + rewrite generateColorSpectrum_nth by lia. unfold spec_color.
      destruct (Nat.leb_spec (n - 1) ((n - 1) / 2)) as [H|_]; [lia|].
      rewrite mix_1; [reflexivity | apply ratio_same; lia].
    + intros i Hi. now apply generateColorSpectrum_nth.
  - intros Hn. rewrite generateColorSpectrum_nth by lia. unfold spec_color.
    assert (Hm : (1 <= (n - 1) / 2)%nat) by (apply Nat.div_le_lower_bound; lia).
    destruct (Nat.eqb_spec ((n - 1) / 2) 0) as [E|E]; [lia|].
    simpl (0 <=? _)%nat. rewrite mix_0; [reflexivity | apply ratio_0].
  - intros ->. vm_compute. reflexivity.
Qed.

Lemma generateColorSpectrum_spec_witness :
  List.length (_generateColorSpectrum 5) = 5%nat /\
  nth 0 (_generateColorSpectrum 5) ""%string = "rgb(0, 255, 0)"%string /\
  nth 2 (_generateColorSpectrum 5) ""%string = "rgb(0, 0, 255)"%string /\
  nth 4 (_generateColorSpectrum 5) ""%string = "rgb(255, 0, 0)"%string.
Proof.
  destruct (generateColorSpectrum_spec 5) as (_ & Hlen & Hmid & Hfirst & _).
  destruct (Hmid ltac:(lia)) as (Hb & Hr & _).
  exact (conj (Hlen ltac:(lia)) (conj (Hfirst ltac:(lia)) (conj Hb Hr))).
Defined.

(** *** The same computation on IEEE doubles

    [fraction] and the channels are doubles in the code.  The function is
    written once more on the kernel's binary64 floats, and its result is
    compared with the exact one for every leg count up to 200. *)

Definition double (n : Z) : PrimFloat.float :=
  PrimFloat.of_uint63 (Uint63.of_Z n).

(** [Math.round] of a double between 0 and [limit]: the first integer [k]
    with [x < k + 0.5]. *)
Fixpoint round_from (limit : nat) (k : Z) (x : PrimFloat.float) : Z :=
  match limit with
  | O => k
  | S limit =>
      if PrimFloat.ltb x (PrimFloat.add (double k) (PrimFloat.div (double 1) (double 2)))
      then k else round_from limit (k + 1) x
  end.

Definition double_channel (from to : Z) (fraction : PrimFloat.float) : Z :=
  round_from 256 0
    (PrimFloat.add (double from)
       (PrimFloat.mul (PrimFloat.sub (double to) (double from)) fraction)).

Definition double_mix (from to : rgb) (fraction : PrimFloat.float) : string :=
  css {| r := double_channel (r from) (r to) fraction;
         g := double_channel (g from) (g to) fraction;
         b := double_channel (b from) (b to) fraction |}.

Definition double_ratio (i n : nat) : PrimFloat.float :=
  PrimFloat.div (double (Z.of_nat i)) (double (Z.of_nat n)).

Definition double_generateColorSpectrum (steps : nat) : list string :=
  if (steps <=? 1)%nat then ["rgb(0, 255, 0)"%string]
  else
    let midPointIndex := ((steps - 1) / 2)%nat in
    let firstHalf :=
      map (fun i =>
             let fraction :=
               if (midPointIndex =? 0)%nat then double 1 else double_ratio i midPointIndex in
             double_mix green blue fraction)
          (seq 0 (midPointIndex + 1)) in
    let secondHalfSteps := (steps - 1 - midPointIndex)%nat in
    let secondHalf :=
      map (fun i => double_mix blue red (double_ratio i secondHalfSteps))
          (seq 1 secondHalfSteps) in
    (firstHalf ++ secondHalf)%list.

Definition same_colors (a b : list string) : bool :=
  if list_eq_dec string_dec a b then true else false.

Example doubles_agree_up_to_200 :
  forallb (fun n => same_colors (double_generateColorSpectrum n) (_generateColorSpectrum n))
    (seq 0 201) = true.
Proof. vm_compute. reflexivity. Qed.

End Spectrum.

(* ================================================================= *)
(** ** The data of [types.ts] and of the mapping SDK *)

Module Types.
Import JS.
Open Scope list_scope.

(** A [LatLng] of the SDK, by what the code reads from it. *)
Record LatLng : Type := { lat : Q; lng : Q }.

(** A [LatLngBounds]: the points it was made from.  Its centre and corners
    are computed by the SDK ([Sdk] below). *)
Definition LatLngBounds : Type := list LatLng.

(** What the component calls in the SDK's geometry: [bounds.getCenter()],
    [getNorthEast()], [getSouthWest()], and
    [google.maps.geometry.spherical.computeDistanceBetween] when the geometry
    library is loaded. *)
Record Sdk : Type := {
  getCenter : LatLngBounds -> LatLng;
  getNorthEast : LatLngBounds -> LatLng;
  getSouthWest : LatLngBounds -> LatLng;
  spherical : option (LatLng -> LatLng -> Q)
}.

(** The object literal [{lat, lng, altitude}] of a camera centre. *)
Record Center : Type := { center_lat : Q; center_lng : Q; altitude : option Q }.

Record Camera : Type := {
  cam_center : Center; cam_heading : Q; cam_tilt : Q; cam_range : Q
}.

(** The literals ['stop'], ['leg'] and ['custom']. *)
Inductive ViewType : Type := stop_view | leg_view | custom_view.

Record MapView : Type := {
  id : Z;
  name : jsstring;
  center : Center;
  heading : Q;
  tilt : Q;
  range : Q;
  type : ViewType;
  itineraryIndex : Z
}.

Inductive TravelMode : Type := DRIVING | WALKING | BICYCLING | TRANSIT.

(** A marker and a polyline as the component configures them.  A marker's
    style colour is kept in its CSS form. *)
Record Marker : Type := {
  position : Center; label : jsstring; styleColor : option string
}.

Record Polyline : Type := {
  coordinates : list Center; strokeColor : option string; strokeWidth : Z
}.

(** A leg of a route in the directions response. *)
Record TextValue : Type := { text : jsstring; value : Z }.

Record Step : Type := { path : list LatLng }.

Record RouteLeg : Type := {
  distance : TextValue;
  duration : TextValue;
  start_location : LatLng;
  end_location : LatLng;
  start_address : jsstring;
  end_address : jsstring;
  steps : list Step
}.

Record Route : Type := { route_legs : list RouteLeg; route_bounds : LatLngBounds }.

Record ItineraryStop : Type := {
  stop_name : jsstring;
  hotelName : option jsstring;
  address : jsstring;
  accommodationCost : option Q;
  location : LatLng;
  stop_marker : Marker;
  stop_color : option string;
  date : option jsstring
}.

Record ItineraryLeg : Type := {
  distanceText : jsstring;
  distanceValue : Z;
  durationText : jsstring;
  fuelCost : jsnumber;
  rawLegData : RouteLeg;
  leg_bounds : LatLngBounds;
  leg_color : option string
}.

(** The day count of a trip: a number, or [NaN] when a date does not parse. *)
Inductive TripDays : Type := days (n : Z) | days_NaN.

Record ItineraryData : Type := {
  stops : list ItineraryStop;
  legs : list ItineraryLeg;
  totalDistance : Z;
  totalTime : string;
  totalFuelCost : jsnumber;
  totalAccommodationCost : Q;
  totalTripDays : option TripDays;
  travelMode : TravelMode;
  bounds : LatLngBounds
}.

End Types.

(* ================================================================= *)
(** ** The map tour: saved views, reordering, import and export *)

Module Tour.
Import JS Types.
Open Scope list_scope.
Open Scope Z_scope.

Inductive Tab : Type := itinerary | tour.

(** The part of the component's state behind the right sidebar: its active
    tab and the "Map Tour State" fields. *)
Record State : Type := {
  activeRightSidebarTab : Tab;
  savedViews : list MapView;
  playbackDelay : Q;
  playbackFlyoverTime : Q;
  loopTour : bool;
  isPlayingTour : bool;
  isSavingView : bool;
  nextViewId : Z;
  draggedItemId : option Z;
  editingViewId : option Z;
  addStopsToTourToggle : bool;
  addLegsToTourToggle : bool
}.

(** The state of a freshly constructed component. *)
Definition initial : State :=
  {| activeRightSidebarTab := itinerary; savedViews := []; playbackDelay := 3;
     playbackFlyoverTime := 2; loopTour := false; isPlayingTour := false;
     isSavingView := false; nextViewId := 0; draggedItemId := None;
     editingViewId := None; addStopsToTourToggle := false;
     addLegsToTourToggle := false |}.

(** Assignments [this.field = x]. *)
Definition set_activeRightSidebarTab (x : Tab) (s : State) : State :=
  {| activeRightSidebarTab := x; savedViews := savedViews s; playbackDelay :=
     playbackDelay s; playbackFlyoverTime := playbackFlyoverTime s; loopTour := loopTour
     s; isPlayingTour := isPlayingTour s; isSavingView := isSavingView s; nextViewId :=
     nextViewId s; draggedItemId := draggedItemId s; editingViewId := editingViewId s;
     addStopsToTourToggle := addStopsToTourToggle s; addLegsToTourToggle :=
     addLegsToTourToggle s |}.

Definition set_savedViews (x : list MapView) (s : State) : State :=
  {| activeRightSidebarTab := activeRightSidebarTab s; savedViews := x; playbackDelay :=
     playbackDelay s; playbackFlyoverTime := playbackFlyoverTime s; loopTour := loopTour
     s; isPlayingTour := isPlayingTour s; isSavingView := isSavingView s; nextViewId :=
     nextViewId s; draggedItemId := draggedItemId s; editingViewId := editingViewId s;
     addStopsToTourToggle := addStopsToTourToggle s; addLegsToTourToggle :=
     addLegsToTourToggle s |}.

Definition set_playbackDelay (x : Q) (s : State) : State :=
  {| activeRightSidebarTab := activeRightSidebarTab s; savedViews := savedViews s;
     playbackDelay := x; playbackFlyoverTime := playbackFlyoverTime s; loopTour :=
     loopTour s; isPlayingTour := isPlayingTour s; isSavingView := isSavingView s;
     nextViewId := nextViewId s; draggedItemId := draggedItemId s; editingViewId :=
     editingViewId s; addStopsToTourToggle := addStopsToTourToggle s;
     addLegsToTourToggle := addLegsToTourToggle s |}.

Definition set_playbackFlyoverTime (x : Q) (s : State) : State :=
  {| activeRightSidebarTab := activeRightSidebarTab s; savedViews := savedViews s;
     playbackDelay := playbackDelay s; playbackFlyoverTime := x; loopTour := loopTour s;
     isPlayingTour := isPlayingTour s; isSavingView := isSavingView s; nextViewId :=
     nextViewId s; draggedItemId := draggedItemId s; editingViewId := editingViewId s;
     addStopsToTourToggle := addStopsToTourToggle s; addLegsToTourToggle :=
     addLegsToTourToggle s |}.

Definition set_loopTour (x : bool) (s : State) : State :=
  {| activeRightSidebarTab := activeRightSidebarTab s; savedViews := savedViews s;
     playbackDelay := playbackDelay s; playbackFlyoverTime := playbackFlyoverTime s;
     loopTour := x; isPlayingTour := isPlayingTour s; isSavingView := isSavingView s;
     nextViewId := nextViewId s; draggedItemId := draggedItemId s; editingViewId :=
     editingViewId s; addStopsToTourToggle := addStopsToTourToggle s;
     addLegsToTourToggle := addLegsToTourToggle s |}.

Definition set_isPlayingTour (x : bool) (s : State) : State :=
  {| activeRightSidebarTab := activeRightSidebarTab s; savedViews := savedViews s;
     playbackDelay := playbackDelay s; playbackFlyoverTime := playbackFlyoverTime s;
     loopTour := loopTour s; isPlayingTour := x; isSavingView := isSavingView s;
     nextViewId := nextViewId s; draggedItemId := draggedItemId s; editingViewId :=
     editingViewId s; addStopsToTourToggle := addStopsToTourToggle s;
     addLegsToTourToggle := addLegsToTourToggle s |}.

Definition set_isSavingView (x : bool) (s : State) : State :=
  {| activeRightSidebarTab := activeRightSidebarTab s; savedViews := savedViews s;
     playbackDelay := playbackDelay s; playbackFlyoverTime := playbackFlyoverTime s;
     loopTour := loopTour s; isPlayingTour := isPlayingTour s; isSavingView := x;
     nextViewId := nextViewId s; draggedItemId := draggedItemId s; editingViewId :=
     editingViewId s; addStopsToTourToggle := addStopsToTourToggle s;
     addLegsToTourToggle := addLegsToTourToggle s |}.

Definition set_nextViewId (x : Z) (s : State) : State :=
  {| activeRightSidebarTab := activeRightSidebarTab s; savedViews := savedViews s;
     playbackDelay := playbackDelay s; playbackFlyoverTime := playbackFlyoverTime s;
     loopTour := loopTour s; isPlayingTour := isPlayingTour s; isSavingView :=
     isSavingView s; nextViewId := x; draggedItemId := draggedItemId s; editingViewId :=
     editingViewId s; addStopsToTourToggle := addStopsToTourToggle s;
     addLegsToTourToggle := addLegsToTourToggle s |}.

Definition set_draggedItemId (x : option Z) (s : State) : State :=
  {| activeRightSidebarTab := activeRightSidebarTab s; savedViews := savedViews s;
     playbackDelay := playbackDelay s; playbackFlyoverTime := playbackFlyoverTime s;
     loopTour := loopTour s; isPlayingTour := isPlayingTour s; isSavingView :=
     isSavingView s; nextViewId := nextViewId s; draggedItemId := x; editingViewId :=
     editingViewId s; addStopsToTourToggle := addStopsToTourToggle s;
     addLegsToTourToggle := addLegsToTourToggle s |}.

Definition set_editingViewId (x : option Z) (s : State) : State :=
  {| activeRightSidebarTab := activeRightSidebarTab s; savedViews := savedViews s;
     playbackDelay := playbackDelay s; playbackFlyoverTime := playbackFlyoverTime s;
     loopTour := loopTour s; isPlayingTour := isPlayingTour s; isSavingView :=
     isSavingView s; nextViewId := nextViewId s; draggedItemId := draggedItemId s;
     editingViewId := x; addStopsToTourToggle := addStopsToTourToggle s;
     addLegsToTourToggle := addLegsToTourToggle s |}.

Definition set_addStopsToTourToggle (x : bool) (s : State) : State :=
  {| activeRightSidebarTab := activeRightSidebarTab s; savedViews := savedViews s;
     playbackDelay := playbackDelay s; playbackFlyoverTime := playbackFlyoverTime s;
     loopTour := loopTour s; isPlayingTour := isPlayingTour s; isSavingView :=
     isSavingView s; nextViewId := nextViewId s; draggedItemId := draggedItemId s;
     editingViewId := editingViewId s; addStopsToTourToggle := x; addLegsToTourToggle :=
     addLegsToTourToggle s |}.

Definition set_addLegsToTourToggle (x : bool) (s : State) : State :=
  {| activeRightSidebarTab := activeRightSidebarTab s; savedViews := savedViews s;
     playbackDelay := playbackDelay s; playbackFlyoverTime := playbackFlyoverTime s;
     loopTour := loopTour s; isPlayingTour := isPlayingTour s; isSavingView :=
     isSavingView s; nextViewId := nextViewId s; draggedItemId := draggedItemId s;
     editingViewId := editingViewId s; addStopsToTourToggle := addStopsToTourToggle s;
     addLegsToTourToggle := x |}.

(** *** Views made from the itinerary *)

Definition _getViewForStop (s : ItineraryStop) : Camera :=
  {| cam_center := {| center_lat := lat (location s);
                      center_lng := lng (location s);
                      altitude := Some 0%Q |};
     cam_heading := 0; cam_tilt := 675 # 10; cam_range := 2000 |}.

Definition Math_max (a b : Q) : Q := if Qlt_le_dec a b then b else a.

Definition _getViewForLeg (sdk : Sdk) (l : ItineraryLeg) : Camera :=
  let bounds := leg_bounds l in
  let center := getCenter sdk bounds in
  let range := 10000%Q in
  let range :=
    match spherical sdk with
    | Some computeDistanceBetween =>
        let ne := getNorthEast sdk bounds in
        let sw := getSouthWest sdk bounds in
        (computeDistanceBetween ne sw * (17 # 10))%Q
    | None => range
    end in
  let range := Math_max range 2000 in
  {| cam_center := {| center_lat := lat center; center_lng := lng center;
                      altitude := Some 0%Q |};
     cam_heading := 0; cam_tilt := 45; cam_range := range |}.

Definition view_of (params : Camera) (i : Z) (n : jsstring) (t : ViewType) (ix : Z)
  : MapView :=
  {| id := i; name := n; center := cam_center params; heading := cam_heading params;
     tilt := cam_tilt params; range := cam_range params; type := t;
     itineraryIndex := ix |}.

(** [stops.map((stop, index) => ({..., id: this.nextViewId++, ...}))]: the
    views and the counter after the loop.  The counter is a double: [++]
    adds 1 and rounds ([js_add]). *)
Fixpoint stopViews (index : nat) (next : Z) (l : list ItineraryStop)
  : list MapView * Z :=
  match l with
  | [] => ([], next)
  | s :: rest =>
      let v := view_of (_getViewForStop s) next (stop_name s) stop_view (Z.of_nat index * 2) in
      let (vs, next') := stopViews (S index) (js_add next 1) rest in
      (v :: vs, next')
  end.

(** The arrow of the leg names, U+2192. *)
Definition arrow : jsstring := [8594%N].

(** [legs.map((leg, index) => ...)].  The name reads [stops[index]] and
    [stops[index + 1]] after the counter was incremented; when one of them is
    missing the access throws, and the views are lost ([None]) while the
    counter keeps its increments. *)
Fixpoint legViews (sdk : Sdk) (allStops : list ItineraryStop) (index : nat) (next : Z)
  (l : list ItineraryLeg) : option (list MapView) * Z :=
  match l with
  | [] => (Some [], next)
  | g :: rest =>
      let viewParams := _getViewForLeg sdk g in
      let i := next in
      let next := js_add next 1 in
      match nth_error allStops index, nth_error allStops (S index) with
      | Some a, Some b =>
          let n := u "Leg: " ++ stop_name a ++ u " " ++ arrow ++ u " " ++ stop_name b in
          let v := view_of viewParams i n leg_view (Z.of_nat index * 2 + 1) in
          match legViews sdk allStops (S index) next rest with
          | (Some vs, next') => (Some (v :: vs), next')
          | (None, next') => (None, next')
          end
      | _, _ => (None, next)
      end
  end.

(** [Array.prototype.sort] with the comparator
    [(a, b) => a.itineraryIndex - b.itineraryIndex]: a stable sort. *)
Fixpoint insert_sorted (v : MapView) (l : list MapView) : list MapView :=
  match l with
  | [] => [v]
  | x :: l' =>
      if itineraryIndex v <=? itineraryIndex x then v :: l
      else x :: insert_sorted v l'
  end.

Definition sort_by_itineraryIndex (l : list MapView) : list MapView :=
  fold_right insert_sorted [] l.

Definition _addFromItineraryToTour (sdk : Sdk) (itineraryData : option ItineraryData)
  (st : State) : State :=
  match itineraryData with
  | None => st
  | Some data =>
      if negb (addStopsToTourToggle st) && negb (addLegsToTourToggle st) then st
      else
        let viewsToAdd := [] in
        let (viewsToAdd, next) :=
          if addStopsToTourToggle st
          then let (stopViews, next) := stopViews 0 (nextViewId st) (stops data) in
               (viewsToAdd ++ stopViews, next)
          else (viewsToAdd, nextViewId st) in
        let (added, next) :=
          if addLegsToTourToggle st
          then match legViews sdk (stops data) 0 next (legs data) with
               | (Some legViews, next) => (Some (viewsToAdd ++ legViews), next)
               | (None, next) => (None, next)
               end
          else (Some viewsToAdd, next) in
        match added with
        | None => set_nextViewId next st
        | Some viewsToAdd =>
            let viewsToAdd :=
              if addStopsToTourToggle st && addLegsToTourToggle st
              then sort_by_itineraryIndex viewsToAdd else viewsToAdd in
            set_addLegsToTourToggle false
              (set_addStopsToTourToggle false
                 (set_savedViews (savedViews st ++ viewsToAdd)
                    (set_nextViewId next st)))
        end
  end.

(** *** Saving the camera's view *)

(** [x.toFixed(digits)] for a rational [x] below 10^21. *)
Definition toFixed (x : Q) (digits : nat) : jsstring :=
  let sign := if Qlt_le_dec x 0 then "-"%string else ""%string in
  let x := Qabs x in
  let n := Math_round (x * inject_Z (10 ^ Z.of_nat digits)) in
  let m := show n in
  let k := String.length m in
  let m := if (k <=? digits)%nat
           then (string_of_list_ascii (repeat "0"%char (digits + 1 - k)) ++ m)%string
           else m in
  let k := String.length m in
  let whole := substring 0 (k - digits) m in
  let frac := substring (k - digits) digits m in
  u (sign ++ whole ++ (if (digits =? 0)%nat then "" else "." ++ frac))%string.

Record GeocodeResult : Type := { formatted_address : jsstring }.

(** How [await this._geocode(...)] ends: with results, or rejected. *)
Inductive Geocoded : Type :=
  | resolved (results : list GeocodeResult)
  | rejected.

(** What [saveCurrentView] does up to its [await]. *)
Inductive SaveStep : Type :=
  | nothing_done              (* no map, or a save is under way *)
  | failed (st : State)       (* no camera state: the error is caught *)
  | awaiting (st : State)     (* the reverse geocoding was requested *)
  | saved (st : State).       (* no geocoder: the view is saved at once *)

Definition defaultName (c : Center) : jsstring :=
  u "View @ " ++ toFixed (center_lat c) 4 ++ u ", " ++ toFixed (center_lng c) 4.

(** The end of [saveCurrentView]: the new view takes [nextViewId], which is
    incremented, and [finally] clears [isSavingView]. *)
Definition saveCurrentView_finish (cameraState : Camera) (n : jsstring) (st : State)
  : State :=
  let newView := view_of cameraState (nextViewId st) n custom_view (-1) in
  let st := set_nextViewId (js_add (nextViewId st) 1) st in
  let st := set_savedViews (savedViews st ++ [newView]) st in
  set_isSavingView false st.

Definition saveCurrentView_start (map geocoder : bool) (cameraState : option Camera)
  (st : State) : SaveStep :=
  if negb map || isSavingView st then nothing_done
  else
    let st := set_isSavingView true st in
    match cameraState with
    | None => failed (set_isSavingView false st)
    | Some cam =>
        if geocoder then awaiting st
        else saved (saveCurrentView_finish cam (defaultName (cam_center cam)) st)
    end.

Definition saveCurrentView_resume (cameraState : Camera) (answer : Geocoded)
  (st : State) : State :=
  let n := defaultName (cam_center cameraState) in
  let n :=
    match answer with
    | resolved (first :: _) => formatted_address first
    | resolved [] => n
    | rejected => n
    end in
  saveCurrentView_finish cameraState n st.

(** *** Clearing, deleting, renaming, reordering *)

Definition _clearTourViews (st : State) : State :=
  if (List.length (savedViews st) =? 0)%nat then st
  else set_isPlayingTour false (set_nextViewId 0 (set_savedViews [] st)).

Definition deleteView (idToDelete : Z) (st : State) : State :=
  set_savedViews (filter (fun view => negb (id view =? idToDelete)) (savedViews st)) st.

Definition rename (v : MapView) (n : jsstring) : MapView :=
  {| id := id v; name := n; center := center v; heading := heading v;
     tilt := tilt v; range := range v; type := type v;
     itineraryIndex := itineraryIndex v |}.

(** [updatedViews[viewIndex] = {...updatedViews[viewIndex], name}] on a copy. *)
Fixpoint rename_at (viewIndex : nat) (n : jsstring) (l : list MapView) : list MapView :=
  match l, viewIndex with
  | [], _ => []
  | v :: l', O => rename v n :: l'
  | v :: l', S k => v :: rename_at k n l'
  end.

Definition option_Z_eqb (a : option Z) (b : Z) : bool :=
  match a with Some x => x =? b | None => false end.

Definition saveViewName (i : Z) (newName : jsstring) (st : State) : State :=
  if negb (option_Z_eqb (editingViewId st) i) then st
  else
    let viewIndex := findIndex (fun v => id v =? i) (savedViews st) in
    let st :=
      match viewIndex, trimU newName with
      | Some viewIndex, _ :: _ =>
          set_savedViews (rename_at viewIndex (trimU newName) (savedViews st)) st
      | _, _ => st
      end in
    set_editingViewId None st.

Definition handleDragStart (view : MapView) (st : State) : State :=
  set_draggedItemId (Some (id view)) st.

Definition handleDragEnd (st : State) : State := set_draggedItemId None st.

Definition handleDrop (dropTargetView : MapView) (st : State) : State :=
  match draggedItemId st with
  | None => st
  | Some dragged =>
      if dragged =? id dropTargetView then st
      else
        let draggedIndex := findIndex (fun v => id v =? dragged) (savedViews st) in
        let targetIndex :=
          findIndex (fun v => id v =? id dropTargetView) (savedViews st) in
        match draggedIndex, targetIndex with
        | Some draggedIndex, Some targetIndex =>
            let reorderedViews := savedViews st in
            match splice_out draggedIndex reorderedViews with
            | (Some draggedItem, reorderedViews) =>
                set_savedViews (splice_in targetIndex draggedItem reorderedViews) st
            | (None, _) => st (* not reached: [draggedIndex] is an index of the list *)
            end
        | _, _ => st
        end
  end.

(** *** [findIndex] and [splice] *)

Lemma findIndex_Some {A : Type} (p : A -> bool) (l : list A) (i : nat) :
  findIndex p l = Some i ->
  exists x, nth_error l i = Some x /\ p x = true /\ (i < List.length l)%nat.
Proof.
  revert i. induction l as [|a l IH]; intros i; simpl; [discriminate|].
  destruct (p a) eqn:Pa.
  - intros [= <-]. exists a. simpl. repeat split; auto. lia.
  - destruct (findIndex p l) as [j|]; simpl; [|discriminate].
    intros [= <-]. destruct (IH j eq_refl) as (x & Hx & Px & Hj).
    exists x. simpl. repeat split; auto. lia.
Qed.

Lemma findIndex_None {A : Type} (p : A -> bool) (l : list A) :
  findIndex p l = None <-> forall x, In x l -> p x = false.
Proof.
  induction l as [|a l IH]; simpl.
  - split; [intros _ x [] | reflexivity].
  - destruct (p a) eqn:Pa.
    + split; [discriminate|]. intros H. rewrite (H a) in Pa by auto. discriminate.
    + destruct (findIndex p l) as [j|]; simpl.
      * split; [discriminate|]. intros H.
        assert (X : Some j = None) by (apply IH; intros x Hx; apply H; auto).
        discriminate X.
      * split; [|reflexivity]. intros _ x [<-|Hx]; [exact Pa|].
        destruct IH as [IH _]. now apply IH.
Qed.

Lemma findIndex_present (d : Z) (l : list MapView) :
  In d (map id l) -> exists i, findIndex (fun v => id v =? d) l = Some i.
Proof.
  intros Hin. destruct (findIndex (fun v => id v =? d) l) as [i|] eqn:E; [eauto|].
  apply in_map_iff in Hin. destruct Hin as (x & Hx & Hl).
  rewrite findIndex_None in E. specialize (E x Hl). simpl in E. lia.
Qed.

Lemma findIndex_absent (d : Z) (l : list MapView) :
  ~ In d (map id l) -> findIndex (fun v => id v =? d) l = None.
Proof.
  intros Hn. apply findIndex_None. intros x Hx.
  destruct (Z.eqb_spec (id x) d) as [E|E]; [|reflexivity].
  exfalso. apply Hn. rewrite <- E. now apply in_map.
Qed.

Lemma splice_out_split {A : Type} (i : nat) (l : list A) (x : A) :
  nth_error l i = Some x -> l = firstn i l ++ x :: skipn (S i) l.
Proof.
  revert i. induction l as [|a l IH]; intros [|i]; simpl; try discriminate.
  - now intros [= ->].
  - intros H. f_equal. now apply IH.
Qed.

Lemma splice_out_length {A : Type} (i : nat) (l : list A) :
  (i < List.length l)%nat ->
  List.length (firstn i l ++ skipn (S i) l) = (List.length l - 1)%nat.
Proof.
  intros Hi. rewrite length_app, length_firstn, length_skipn. lia.
Qed.

Lemma splice_in_perm {A : Type} (i : nat) (x : A) (l : list A) :
  Permutation (x :: l) (splice_in i x l).
Proof.
  unfold splice_in. rewrite <- (firstn_skipn i l) at 1. apply Permutation_middle.
Qed.

Lemma splice_in_nth {A : Type} (i : nat) (x : A) (l : list A) :
  (i <= List.length l)%nat -> nth_error (splice_in i x l) i = Some x.
Proof.
  intros Hi. unfold splice_in.
  rewrite nth_error_app2; rewrite length_firstn, Nat.min_l by lia; [|lia].
  now rewrite Nat.sub_diag.
Qed.

Lemma splice_in_out {A : Type} (i : nat) (x : A) (l : list A) :
  (i <= List.length l)%nat -> snd (splice_out i (splice_in i x l)) = l.
Proof.
  intros Hi. unfold splice_out, splice_in; cbn [snd].
  assert (L : List.length (firstn i l) = i) by (rewrite length_firstn; lia).
  set (a := firstn i l) in *. set (b := skipn i l).
  rewrite firstn_app, L, Nat.sub_diag, firstn_O, app_nil_r.
  rewrite (firstn_all2 a) by lia.
  rewrite skipn_app, L, (skipn_all2 a) by lia.
  replace (S i - i)%nat with 1%nat by lia. cbn [skipn app].
  apply firstn_skipn.
Qed.

(** *** Drag and drop *)

Definition ids (st : State) : list Z := map id (savedViews st).

Lemma handleDrop_moves (t : MapView) (st : State) (d : Z) :
  draggedItemId st = Some d -> d <> id t ->
  In d (ids st) -> In (id t) (ids st) ->
  exists di ti x,
    findIndex (fun v => id v =? d) (savedViews st) = Some di /\
    findIndex (fun v => id v =? id t) (savedViews st) = Some ti /\
    nth_error (savedViews st) di = Some x /\ id x = d /\
    handleDrop t st
    = set_savedViews (splice_in ti x (snd (splice_out di (savedViews st)))) st /\
    nth_error (savedViews (handleDrop t st)) ti = Some x /\
    snd (splice_out ti (savedViews (handleDrop t st)))
    = snd (splice_out di (savedViews st)) /\
    Permutation (savedViews st) (savedViews (handleDrop t st)).
Proof.
  intros Hd Hne Hin Hint.
  destruct (findIndex_present _ _ Hin) as [di Edi].
  destruct (findIndex_present _ _ Hint) as [ti Eti].
  destruct (findIndex_Some _ _ _ Edi) as (x & Hx & Px & Hdi).
  destruct (findIndex_Some _ _ _ Eti) as (y & Hy & Py & Hti).
  apply Z.eqb_eq in Px.
  assert (E : handleDrop t st
              = set_savedViews (splice_in ti x (snd (splice_out di (savedViews st)))) st).
  { unfold handleDrop. rewrite Hd.
    destruct (Z.eqb_spec d (id t)) as [C|_]; [contradiction|].
    rewrite Edi, Eti. unfold splice_out at 1. rewrite Hx. reflexivity. }
  exists di, ti, x. repeat (split; [assumption|]).
  rewrite E. cbn [savedViews set_savedViews splice_out snd].
  set (rest := firstn di (savedViews st) ++ skipn (S di) (savedViews st)).
  assert (Lr : List.length rest = (List.length (savedViews st) - 1)%nat)
    by (now apply splice_out_length).
  split; [|split].
  - apply splice_in_nth. lia.
  - apply (splice_in_out ti x rest). lia.
  - rewrite <- (splice_in_perm ti x rest).
    rewrite (splice_out_split _ _ _ Hx) at 1. symmetry. apply Permutation_middle.
Qed.

Lemma handleDrop_unchanged (t : MapView) (st : State) :
  draggedItemId st = None \/ draggedItemId st = Some (id t) \/
  (exists d, draggedItemId st = Some d /\ (~ In d (ids st) \/ ~ In (id t) (ids st))) ->
  handleDrop t st = st.
Proof.
  unfold handleDrop. intros [H|[H|(d & H & Habs)]]; rewrite H.
  - reflexivity.
  - now rewrite Z.eqb_refl.
  - destruct (d =? id t); [reflexivity|].
    destruct Habs as [Habs|Habs]; rewrite (findIndex_absent _ _ Habs).
    + reflexivity.
    + now destruct (findIndex _ _).
Qed.

(** C7.  When [handleDrop] fires with a dragged id [d] and a drop target [t]
    whose ids differ and are both in [savedViews], the new list is the old one
    with the dragged view taken out of its position and put back at the
    target's former index: it stands at that index, the other views keep
    their order, and the new list is a permutation of the old one.  When the
    dragged id is null, equals the target's, or one of the two ids is not in
    the list, the state is unchanged. *)
Theorem handleDrop_spec (t : MapView) (st : State) :
  (forall d, draggedItemId st = Some d -> d <> id t ->
     In d (ids st) -> In (id t) (ids st) ->
     exists di ti x,
       findIndex (fun v => id v =? d) (savedViews st) = Some di /\
       findIndex (fun v => id v =? id t) (savedViews st) = Some ti /\
       nth_error (savedViews st) di = Some x /\ id x = d /\
       handleDrop t st
       = set_savedViews (splice_in ti x (snd (splice_out di (savedViews st)))) st /\
       nth_error (savedViews (handleDrop t st)) ti = Some x /\
       snd (splice_out ti (savedViews (handleDrop t st)))
       = snd (splice_out di (savedViews st)) /\
       Permutation (savedViews st) (savedViews (handleDrop t st)))
  /\
  (draggedItemId st = None \/ draggedItemId st = Some (id t) \/
   (exists d, draggedItemId st = Some d /\ (~ In d (ids st) \/ ~ In (id t) (ids st))) ->
   handleDrop t st = st).
Proof.
  split.
  - intros d. apply handleDrop_moves.
  - apply handleDrop_unchanged.
Qed.

(** Three custom views [0; 1; 2], for the examples. *)
Definition origin : Camera :=
  {| cam_center := {| center_lat := 0; center_lng := 0; altitude := Some 0%Q |};
     cam_heading := 0; cam_tilt := 0; cam_range := 2000 |}.

Definition sample (i : Z) : MapView := view_of origin i (u "view") custom_view (-1).

Definition three_views : State :=
  set_nextViewId 3 (set_savedViews [sample 0; sample 1; sample 2] initial).

Lemma handleDrop_spec_witness :
  savedViews (handleDrop (sample 2) (handleDragStart (sample 0) three_views))
  = [sample 1; sample 2; sample 0] /\
  Permutation [sample 0; sample 1; sample 2]
    (savedViews (handleDrop (sample 2) (handleDragStart (sample 0) three_views))).
Proof.
  destruct (handleDrop_spec (sample 2) (handleDragStart (sample 0) three_views))
    as [Hmove _].
  destruct (Hmove 0 eq_refl ltac:(discriminate)
              ltac:(simpl; auto) ltac:(simpl; auto))
    as (di & ti & x & _ & _ & _ & _ & _ & _ & _ & HP).
  split; [reflexivity | exact HP].
Defined.

(** *** The invariant of the view ids *)

(** The ids of the saved views are pairwise distinct and below [nextViewId]. *)
Definition ids_fresh (st : State) : Prop :=
  NoDup (ids st) /\ Forall (fun v => id v < nextViewId st) (savedViews st).

(** The ids [next], [next + 1], ..., [next + n - 1]. *)
Definition zrange (next : Z) (n : nat) : list Z :=
  map (fun k => next + Z.of_nat k) (seq 0 n).

Lemma zrange_S (next : Z) (n : nat) :
  zrange next (S n) = next :: zrange (next + 1) n.
Proof.
  unfold zrange. simpl. f_equal; [lia|].
  rewrite <- seq_shift, map_map. apply map_ext. intros k. lia.
Qed.

Lemma zrange_In (next : Z) (n : nat) (x : Z) :
  In x (zrange next n) <-> next <= x < next + Z.of_nat n.
Proof.
  unfold zrange. rewrite in_map_iff. split.
  - intros (k & <- & Hk). apply in_seq in Hk. lia.
  - intros H. exists (Z.to_nat (x - next)). split; [lia|]. apply in_seq. lia.
Qed.

Lemma zrange_NoDup (next : Z) (n : nat) : NoDup (zrange next n).
Proof.
  revert next. induction n as [|n IH]; intros next; [constructor|].
  rewrite zrange_S. constructor; [|apply IH].
  rewrite zrange_In. lia.
Qed.

(** The counter [next] and the [more] ids after it are counted exactly:
    none of the increments is rounded. *)
Definition exact_counter (next : Z) (more : nat) : Prop :=
  - 2 ^ 53 <= next /\ next + Z.of_nat more <= 2 ^ 53.

Lemma exact_counter_step (next : Z) (more : nat) :
  exact_counter next (S more) ->
  js_add next 1 = next + 1 /\ exact_counter (next + 1) more.
Proof.
  unfold exact_counter. intros [L U]. split.
  - apply js_add_exact. lia.
  - lia.
Qed.

Lemma stopViews_ids (l : list ItineraryStop) (index : nat) (next : Z) :
  exact_counter next (List.length l) ->
  map id (fst (stopViews index next l)) = zrange next (List.length l) /\
  snd (stopViews index next l) = next + Z.of_nat (List.length l).
Proof.
  revert index next. induction l as [|s l IH]; intros index next Hx.
  - split; [reflexivity | simpl; lia].
  - cbn [stopViews]. cbn [List.length] in Hx.
    destruct (exact_counter_step next _ Hx) as [E Hx']. rewrite E.
    specialize (IH (S index) (next + 1) Hx').
    destruct (stopViews (S index) (next + 1) l) as [vs next'].
    cbn [fst snd] in *. destruct IH as [IH1 IH2]. split.
    + cbn [map List.length]. rewrite zrange_S, IH1. reflexivity.
    + cbn [List.length]. lia.
Qed.

Lemma legViews_ids (sdk : Sdk) (all : list ItineraryStop) (l : list ItineraryLeg)
  (index : nat) (next : Z) :
  exact_counter next (List.length l) ->
  match legViews sdk all index next l with
  | (Some vs, next') =>
      map id vs = zrange next (List.length vs) /\ next' = next + Z.of_nat (List.length vs)
      /\ List.length vs = List.length l
  | (None, next') => next <= next'
  end.
Proof.
  revert index next. induction l as [|g l IH]; intros index next Hx.
  - repeat split; simpl; lia.
  - cbn [legViews]. cbn [List.length] in Hx.
    destruct (exact_counter_step next _ Hx) as [E Hx']. rewrite E.
    destruct (nth_error all index) as [a|]; [|lia].
    destruct (nth_error all (S index)) as [b|]; [|lia].
    specialize (IH (S index) (next + 1) Hx').
    destruct (legViews sdk all (S index) (next + 1) l) as [[vs|] next'].
    + destruct IH as (IH1 & IH2 & IH3). split; [|split].
      * cbn [map List.length]. rewrite zrange_S, IH1. reflexivity.
      * cbn [List.length]. lia.
      * cbn [List.length]. lia.
    + lia.
Qed.

Lemma insert_sorted_perm (v : MapView) (l : list MapView) :
  Permutation (v :: l) (insert_sorted v l).
Proof.
  induction l as [|x l IH]; simpl; [reflexivity|].
  destruct (itineraryIndex v <=? itineraryIndex x); [reflexivity|].
  rewrite perm_swap. now constructor.
Qed.

Lemma sort_by_itineraryIndex_perm (l : list MapView) :
  Permutation l (sort_by_itineraryIndex l).
Proof.
  induction l as [|v l IH]; simpl; [reflexivity|].
  rewrite <- insert_sorted_perm. now constructor.
Qed.

(** Appending views whose ids are [nextViewId], [nextViewId + 1], ... in some
    order keeps the invariant, for any counter past them. *)
Lemma ids_fresh_extend (st : State) (added : list MapView) (next' : Z) :
  ids_fresh st ->
  Permutation (map id added) (zrange (nextViewId st) (List.length added)) ->
  nextViewId st + Z.of_nat (List.length added) <= next' ->
  NoDup (map id (savedViews st ++ added)) /\
  Forall (fun v => id v < next') (savedViews st ++ added).
Proof.
  intros [Hnd Hlt] Hperm Hnext. rewrite Forall_forall in Hlt.
  assert (Hin : forall v, In v added ->
                  nextViewId st <= id v < nextViewId st + Z.of_nat (List.length added)).
  { intros v Hv. apply zrange_In.
    apply (Permutation_in _ Hperm). now apply in_map. }
  split.
  - rewrite map_app. apply NoDup_app; [exact Hnd | | ].
    + apply (Permutation_NoDup (Permutation_sym Hperm)), zrange_NoDup.
    + intros x Hx Hx'. apply in_map_iff in Hx. destruct Hx as (v & <- & Hv).
      apply (Permutation_in _ Hperm), zrange_In in Hx'.
      specialize (Hlt v Hv). simpl in Hlt. lia.
  - apply Forall_forall. intros v Hv. apply in_app_or in Hv.
    destruct Hv as [Hv|Hv]; [specialize (Hlt v Hv); simpl in Hlt | specialize (Hin v Hv)]; lia.
Qed.

Lemma saveCurrentView_finish_fresh (cam : Camera) (n : jsstring) (st : State) :
  ids_fresh st -> exact_counter (nextViewId st) 1 ->
  ids_fresh (saveCurrentView_finish cam n st) /\
  savedViews (saveCurrentView_finish cam n st)
  = savedViews st ++ [view_of cam (nextViewId st) n custom_view (-1)] /\
  nextViewId (saveCurrentView_finish cam n st) = nextViewId st + 1.
Proof.
  intros H Hx. destruct (exact_counter_step _ _ Hx) as [E _].
  assert (N : nextViewId (saveCurrentView_finish cam n st) = nextViewId st + 1)
    by exact E.
  split; [|split; [reflexivity | exact N]].
  unfold ids_fresh, ids. rewrite N.
  apply (ids_fresh_extend st [view_of cam (nextViewId st) n custom_view (-1)]
           (nextViewId st + 1) H).
  - unfold zrange. simpl. now rewrite Z.add_0_r.
  - simpl. lia.
Qed.

Lemma saveCurrentView_start_fresh (map geocoder : bool) (cam : option Camera)
  (st : State) :
  ids_fresh st -> exact_counter (nextViewId st) 1 ->
  match saveCurrentView_start map geocoder cam st with
  | nothing_done => True
  | failed st' => savedViews st' = savedViews st /\ nextViewId st' = nextViewId st
  | awaiting st' => savedViews st' = savedViews st /\ nextViewId st' = nextViewId st
  | saved st' => ids_fresh st'
  end.
Proof.
  intros H Hx. unfold saveCurrentView_start.
  destruct (negb map || isSavingView st); [exact I|].
  destruct cam as [cam|]; [|split; reflexivity].
  destruct geocoder; [split; reflexivity|].
  apply (saveCurrentView_finish_fresh cam _ (set_isSavingView true st)); assumption.
Qed.

(** The leg views are made when every leg has its two stops. *)
Lemma legViews_some (sdk : Sdk) (all : list ItineraryStop) (l : list ItineraryLeg) :
  forall (index : nat) (next : Z),
    (index + List.length l < List.length all)%nat ->
    exists vs next', legViews sdk all index next l = (Some vs, next').
Proof.
  induction l as [|g l IH]; intros index next H.
  - exists [], next. reflexivity.
  - cbn [List.length] in H. cbn [legViews].
    destruct (nth_error all index) as [a|] eqn:Ea;
      [|apply nth_error_None in Ea; lia].
    destruct (nth_error all (S index)) as [b|] eqn:Eb;
      [|apply nth_error_None in Eb; lia].
    destruct (IH (S index) (js_add next 1) ltac:(lia)) as (vs & next' & E).
    rewrite E. eauto.
Qed.

(** The number of views that [_addFromItineraryToTour] makes. *)
Definition views_to_add (data : ItineraryData) (st : State) : nat :=
  (if addStopsToTourToggle st then List.length (stops data) else 0)
  + (if addLegsToTourToggle st then List.length (legs data) else 0).

Lemma addFromItineraryToTour_fresh (sdk : Sdk) (data : ItineraryData) (st : State) :
  ids_fresh st ->
  exact_counter (nextViewId st) (List.length (stops data) + List.length (legs data)) ->
  ids_fresh (_addFromItineraryToTour sdk (Some data) st) /\
  exists added,
    savedViews (_addFromItineraryToTour sdk (Some data) st) = savedViews st ++ added /\
    Permutation (map id added) (zrange (nextViewId st) (List.length added)) /\
    nextViewId st + Z.of_nat (List.length added)
    <= nextViewId (_addFromItineraryToTour sdk (Some data) st) /\
    ((List.length (legs data) < List.length (stops data))%nat ->
     List.length added = views_to_add data st /\
     nextViewId (_addFromItineraryToTour sdk (Some data) st)
     = nextViewId st + Z.of_nat (List.length added)).
Proof.
  intros H [Lo Up].
  assert (Same : forall st' : State, savedViews st' = savedViews st ->
            nextViewId st <= nextViewId st' ->
            ((List.length (legs data) < List.length (stops data))%nat ->
             views_to_add data st = 0%nat /\ nextViewId st' = nextViewId st) ->
            ids_fresh st' /\
            exists added, savedViews st' = savedViews st ++ added /\
              Permutation (map id added) (zrange (nextViewId st) (List.length added)) /\
              nextViewId st + Z.of_nat (List.length added) <= nextViewId st' /\
              ((List.length (legs data) < List.length (stops data))%nat ->
               List.length added = views_to_add data st /\
               nextViewId st' = nextViewId st + Z.of_nat (List.length added))).
  { intros st' E1 E2 E3. split.
    - destruct H as [H1 H2]. unfold ids_fresh, ids. rewrite E1. split; [exact H1|].
      eapply Forall_impl; [|exact H2]. simpl. intros; lia.
    - exists []. rewrite app_nil_r.
      split; [exact E1|]. split; [reflexivity|]. split; [simpl; lia|].
      intros L. destruct (E3 L) as [-> ->]. split; [reflexivity | simpl; lia]. }
  assert (Grow : forall added next',
            Permutation (map id added) (zrange (nextViewId st) (List.length added)) ->
            nextViewId st + Z.of_nat (List.length added) = next' ->
            List.length added = views_to_add data st ->
            forall st' : State, savedViews st' = savedViews st ++ added ->
            nextViewId st' = next' ->
            ids_fresh st' /\
            exists added, savedViews st' = savedViews st ++ added /\
              Permutation (map id added) (zrange (nextViewId st) (List.length added)) /\
              nextViewId st + Z.of_nat (List.length added) <= nextViewId st' /\
              ((List.length (legs data) < List.length (stops data))%nat ->
               List.length added = views_to_add data st /\
               nextViewId st' = nextViewId st + Z.of_nat (List.length added))).
  { intros added next' P N C st' E1 E2. split.
    - unfold ids_fresh, ids. rewrite E1, E2. apply ids_fresh_extend; [exact H|exact P|lia].
    - exists added. rewrite E2. repeat split; auto; lia. }
  unfold _addFromItineraryToTour, views_to_add in *.
  assert (Xs : exact_counter (nextViewId st) (List.length (stops data)))
    by (unfold exact_counter; lia).
  pose proof (stopViews_ids (stops data) 0 (nextViewId st) Xs) as Hs.
  destruct (stopViews 0 (nextViewId st) (stops data)) as [sv next1].
  cbn [fst snd] in Hs. destruct Hs as [Hs1 Hs2].
  assert (Ls : List.length sv = List.length (stops data)).
  { rewrite <- (length_map id sv), Hs1. unfold zrange. now rewrite length_map, length_seq. }
  destruct (addStopsToTourToggle st), (addLegsToTourToggle st); cbn [negb andb app].
  - assert (Xl : exact_counter next1 (List.length (legs data)))
      by (unfold exact_counter; lia).
    pose proof (legViews_ids sdk (stops data) (legs data) 0 next1 Xl) as Hl.
    pose proof (legViews_some sdk (stops data) (legs data) 0 next1) as Hsome.
    destruct (legViews sdk (stops data) 0 next1 (legs data)) as [[lv|] next2].
    + destruct Hl as (Hl1 & Hl2 & Hl3).
      eapply (Grow (sort_by_itineraryIndex (sv ++ lv)) next2); try reflexivity.
      * rewrite <- (Permutation_length (sort_by_itineraryIndex_perm (sv ++ lv))).
        rewrite <- (Permutation_map id (sort_by_itineraryIndex_perm (sv ++ lv))).
        rewrite map_app, Hs1, Hl1, length_app, Ls. unfold zrange.
        rewrite seq_app, map_app. apply Permutation_app_head.
        rewrite (Spectrum.seq_from (0 + _)), map_map.
        replace (Permutation (map (fun k => next1 + Z.of_nat k) (seq 0 (List.length lv))))
          with (Permutation (map (fun x => nextViewId st
                   + Z.of_nat (x + (0 + List.length (stops data)))) (seq 0 (List.length lv))));
          [reflexivity|].
        f_equal. apply map_ext. intros k. lia.
      * rewrite <- (Permutation_length (sort_by_itineraryIndex_perm (sv ++ lv))).
        rewrite length_app. lia.
      * rewrite <- (Permutation_length (sort_by_itineraryIndex_perm (sv ++ lv))).
        rewrite length_app. lia.
    + apply Same; [reflexivity | cbn; lia |].
      intros L. destruct (Hsome ltac:(cbn; lia)) as (vs & n' & C). discriminate.
  - eapply (Grow sv next1); try reflexivity.
    + now rewrite Hs1, Ls.
    + lia.
    + lia.
  - assert (Xl : exact_counter (nextViewId st) (List.length (legs data)))
      by (unfold exact_counter; lia).
    pose proof (legViews_ids sdk (stops data) (legs data) 0 (nextViewId st) Xl) as Hl.
    pose proof (legViews_some sdk (stops data) (legs data) 0 (nextViewId st)) as Hsome.
    destruct (legViews sdk (stops data) 0 (nextViewId st) (legs data)) as [[lv|] next2].
    + destruct Hl as (Hl1 & Hl2 & Hl3). eapply (Grow lv next2); try reflexivity.
      * now rewrite Hl1.
      * lia.
      * lia.
    + apply Same; [reflexivity | cbn; lia |].
      intros L. destruct (Hsome ltac:(cbn; lia)) as (vs & n' & C). discriminate.
  - apply Same; [reflexivity | lia |]. intros _. split; reflexivity.
Qed.

Lemma filter_keeps_ids_distinct (keep : MapView -> bool) (views : list MapView) :
  NoDup (List.map id views) -> NoDup (List.map id (filter keep views)).
Proof.
  intros Hnd. induction views as [|v views IH]; cbn [filter List.map] in *; [exact Hnd|].
  apply NoDup_cons_iff in Hnd. destruct Hnd as [Hfresh Hnd].
  destruct (keep v); [|now apply IH]. cbn [List.map].
  apply NoDup_cons; [|now apply IH].
  intros Hin. apply Hfresh. apply in_map_iff in Hin. destruct Hin as (w & E & Hw).
  apply filter_In in Hw. rewrite <- E. apply in_map. tauto.
Qed.

Lemma deleteView_fresh (i : Z) (st : State) :
  ids_fresh st ->
  ids_fresh (deleteView i st) /\
  nextViewId (deleteView i st) = nextViewId st /\
  (forall v, In v (savedViews (deleteView i st)) <-> In v (savedViews st) /\ id v <> i).
Proof.
  intros [H1 H2]. split; [split|split].
  - apply filter_keeps_ids_distinct, H1.
  - apply Forall_forall. intros v Hv. apply filter_In in Hv.
    rewrite Forall_forall in H2. apply H2. tauto.
  - reflexivity.
  - intros v. cbn [deleteView savedViews set_savedViews]. rewrite filter_In.
    destruct (Z.eqb_spec (id v) i); simpl; intuition congruence.
Qed.

Lemma rename_at_ids (k : nat) (n : jsstring) (l : list MapView) :
  map id (rename_at k n l) = map id l.
Proof.
  revert k. induction l as [|v l IH]; intros [|k]; simpl; try reflexivity.
  now rewrite IH.
Qed.

Lemma saveViewName_ids (i : Z) (n : jsstring) (st : State) :
  ids (saveViewName i n st) = ids st /\
  nextViewId (saveViewName i n st) = nextViewId st.
Proof.
  unfold saveViewName.
  destruct (negb (option_Z_eqb (editingViewId st) i)); [split; reflexivity|].
  destruct (findIndex _ _) as [k|]; [|split; reflexivity].
  destruct (trimU n); [split; reflexivity|].
  split; [|reflexivity]. unfold ids. cbn [savedViews set_editingViewId set_savedViews].
  apply rename_at_ids.
Qed.

Lemma ids_fresh_same_ids (st st' : State) :
  Permutation (ids st) (ids st') -> nextViewId st' = nextViewId st ->
  ids_fresh st -> ids_fresh st'.
Proof.
  intros P N [H1 H2]. split.
  - exact (Permutation_NoDup P H1).
  - rewrite N. apply Forall_forall. intros v Hv.
    assert (Hi : In (id v) (ids st))
      by (apply (Permutation_in _ (Permutation_sym P)); now apply in_map).
    apply in_map_iff in Hi. destruct Hi as (w & E & Hw).
    rewrite Forall_forall in H2. rewrite <- E. now apply H2.
Qed.

Lemma handleDrop_perm (t : MapView) (st : State) :
  Permutation (savedViews st) (savedViews (handleDrop t st)) /\
  nextViewId (handleDrop t st) = nextViewId st.
Proof.
  unfold handleDrop.
  destruct (draggedItemId st) as [d|]; [|split; reflexivity].
  destruct (d =? id t); [split; reflexivity|].
  destruct (findIndex (fun v => id v =? d) (savedViews st)) as [di|] eqn:Edi;
    [|split; reflexivity].
  destruct (findIndex (fun v => id v =? id t) (savedViews st)) as [ti|];
    [|split; reflexivity].
  destruct (findIndex_Some _ _ _ Edi) as (x & Hx & _ & _).
  unfold splice_out. rewrite Hx. split; [|reflexivity].
  cbn [savedViews set_savedViews].
  rewrite <- splice_in_perm. rewrite (splice_out_split _ _ _ Hx) at 1.
  symmetry. apply Permutation_middle.
Qed.

Lemma clearTourViews_spec (st : State) :
  savedViews (_clearTourViews st) = [] /\
  (savedViews st <> [] -> nextViewId (_clearTourViews st) = 0) /\
  (savedViews st = [] -> _clearTourViews st = st).
Proof.
  unfold _clearTourViews. destruct (savedViews st) as [|v l] eqn:E; simpl.
  - rewrite E. repeat split; congruence.
  - repeat split; congruence.
Qed.

Lemma clearTourViews_fresh (st : State) :
  ids_fresh st -> ids_fresh (_clearTourViews st).
Proof.
  intros H. unfold _clearTourViews.
  destruct (List.length (savedViews st) =? 0)%nat; [exact H|].
  split; constructor.
Qed.

(** C9 (amended).  While the counter counts exactly, that is while
    [nextViewId] and the ids handed out stay within 2^53, every tour
    operation keeps the ids of the saved views pairwise distinct and below
    [nextViewId].  A saved view takes the current [nextViewId], which is then
    incremented; the views added from the itinerary take the next ids in a
    row, as many as the toggles ask for when every leg has its two stops;
    deleting removes the views with the given id and changes no other;
    reordering permutes the list; renaming leaves the ids as they are.
    Clearing, which the Clear button allows on a list that is not empty,
    leaves the list empty and [nextViewId] 0.  ([nextViewId] is a double:
    from 2^53 on [nextViewId++] no longer moves it.) *)
Theorem tour_operations_keep_ids_fresh (st : State) :
  ids_fresh st ->
  (forall cam answer,
     exact_counter (nextViewId st) 1 ->
     ids_fresh (saveCurrentView_resume cam answer st) /\
     (exists n, savedViews (saveCurrentView_resume cam answer st)
                = savedViews st ++ [view_of cam (nextViewId st) n custom_view (-1)]) /\
     nextViewId (saveCurrentView_resume cam answer st) = nextViewId st + 1) /\
  (forall map geocoder cam,
     exact_counter (nextViewId st) 1 ->
     match saveCurrentView_start map geocoder cam st with
     | nothing_done => True
     | failed st' | awaiting st' => ids_fresh st'
     | saved st' => ids_fresh st'
     end) /\
  (forall sdk data,
     exact_counter (nextViewId st)
       (List.length (stops data) + List.length (legs data)) ->
     ids_fresh (_addFromItineraryToTour sdk (Some data) st) /\
     exists added,
       savedViews (_addFromItineraryToTour sdk (Some data) st) = savedViews st ++ added /\
       Permutation (map id added) (zrange (nextViewId st) (List.length added)) /\
       nextViewId st + Z.of_nat (List.length added)
       <= nextViewId (_addFromItineraryToTour sdk (Some data) st) /\
       ((List.length (legs data) < List.length (stops data))%nat ->
        List.length added = views_to_add data st /\
        nextViewId (_addFromItineraryToTour sdk (Some data) st)
        = nextViewId st + Z.of_nat (List.length added))) /\
  (forall sdk, _addFromItineraryToTour sdk None st = st) /\
  (forall i,
     ids_fresh (deleteView i st) /\
     nextViewId (deleteView i st) = nextViewId st /\
     forall v, In v (savedViews (deleteView i st)) <-> In v (savedViews st) /\ id v <> i) /\
  (forall t,
     ids_fresh (handleDrop t st) /\
     Permutation (savedViews st) (savedViews (handleDrop t st)) /\
     nextViewId (handleDrop t st) = nextViewId st) /\
  (forall i n,
     ids_fresh (saveViewName i n st) /\
     ids (saveViewName i n st) = ids st /\
     nextViewId (saveViewName i n st) = nextViewId st) /\
  (ids_fresh (_clearTourViews st) /\
   savedViews (_clearTourViews st) = [] /\
   (savedViews st <> [] -> nextViewId (_clearTourViews st) = 0)).
Proof.
  intros H. split; [|split; [|split; [|split; [|split; [|split; [|split]]]]]].
  - intros cam answer Hx. unfold saveCurrentView_resume. cbv zeta.
    match goal with
    | |- context [saveCurrentView_finish cam ?n st] =>
        destruct (saveCurrentView_finish_fresh cam n st H Hx) as (A & B & C)
    end.
    split; [exact A | split; [eauto | exact C]].
  - intros map geocoder cam Hx.
    pose proof (saveCurrentView_start_fresh map geocoder cam st H Hx) as S.
    destruct (saveCurrentView_start map geocoder cam st) as [|st'|st'|st'];
      try exact S; destruct S as [S1 S2];
      apply (ids_fresh_same_ids st st'); unfold ids; try rewrite S1; auto.
  - intros sdk data Hx. now apply addFromItineraryToTour_fresh.
  - reflexivity.
  - intros i. now apply deleteView_fresh.
  - intros t. destruct (handleDrop_perm t st) as [P N].
    split; [|split; assumption].
    apply (ids_fresh_same_ids st); [now apply Permutation_map | exact N | exact H].
  - intros i n. destruct (saveViewName_ids i n st) as [E N].
    split; [|split; assumption].
    apply (ids_fresh_same_ids st); [now rewrite E | exact N | exact H].
  - split; [now apply clearTourViews_fresh|].
    destruct (clearTourViews_spec st) as (A & B & _). split; assumption.
Qed.

Lemma tour_operations_keep_ids_fresh_witness :
  ids_fresh three_views /\
  ids_fresh (saveCurrentView_resume origin rejected three_views) /\
  ids_fresh (deleteView 1 three_views) /\
  ids_fresh (_clearTourViews three_views) /\
  nextViewId (_clearTourViews three_views) = 0.
Proof.
  assert (H : ids_fresh three_views).
  { split.
    - unfold ids; simpl. repeat constructor; simpl; intuition discriminate.
    - repeat constructor. }
  destruct (tour_operations_keep_ids_fresh three_views H)
    as (S & _ & _ & _ & D & _ & _ & C & _ & Z0).
  assert (X : exact_counter (nextViewId three_views) 1)
    by (split; vm_compute; discriminate).
  exact (conj H (conj (proj1 (S origin rejected X))
           (conj (proj1 (D 1)) (conj C (Z0 ltac:(discriminate)))))).
Defined.

(** *** Export and import of a tour file

    The file holds a JSON document.  A document is the tree of values that
    [JSON.parse] returns; its numbers are finite or, for a literal beyond
    the doubles such as [1e999], infinite.  The text itself is not modelled,
    only what [JSON.stringify] loses on the way to it ([through_text]).

    The numbers of the component's state are finite ([Q], and [Z] for ids):
    the component computes no other.  A file can bring others in, since
    [validateTourFile] asks for the type of a number only; the import of such
    a file is marked [outside_model]. *)

Open Scope string_scope.
Open Scope list_scope.

#[local] Unset Elimination Schemes.
Inductive json : Type :=
  | JNull
  | JBool (b : bool)
  | JNum (q : Q)
  | JInfinity (negative : bool)   (* a literal beyond the doubles, as [1e999] *)
  | JStr (s : jsstring)
  | JArr (items : list json)
  | JObj (fields : list (string * json)).
#[local] Set Elimination Schemes.

(** A computation that may throw (a [TypeError], a failed [JSON.parse]). *)
Inductive outcome (A : Type) : Type :=
  | ok (a : A)
  | thrown.
Arguments ok {A} a.
Arguments thrown {A}.

Definition bind {A B : Type} (m : outcome A) (k : A -> outcome B) : outcome B :=
  match m with ok a => k a | thrown => thrown end.

Notation "x <- m ;; k" := (bind m (fun x => k))
  (at level 61, m at next level, right associativity).

Fixpoint lookup (k : string) (fields : list (string * json)) : option json :=
  match fields with
  | [] => None
  | (k', v) :: rest => if String.eqb k k' then Some v else lookup k rest
  end.

(** [v.k]: [None] is [undefined]; reading a property of [null] throws. *)
Definition get (v : json) (k : string) : outcome (option json) :=
  match v with
  | JNull => thrown
  | JObj fields => ok (lookup k fields)
  | _ => ok None
  end.

(** [typeof v === 'number'] *)
Definition is_number (v : option json) : bool :=
  match v with Some (JNum _) | Some (JInfinity _) => true | _ => false end.

Definition is_string (v : option json) : bool :=
  match v with Some (JStr _) => true | _ => false end.

Definition is_boolean (v : option json) : bool :=
  match v with Some (JBool _) => true | _ => false end.

(** [typeof v === 'object' && v !== null] *)
Definition is_object (v : option json) : bool :=
  match v with Some (JArr _) | Some (JObj _) => true | _ => false end.

Definition is_undefined (v : option json) : bool :=
  match v with None => true | Some _ => false end.

(** The checks of one view, in the order of the loop body; [false] is
    [return false]. *)
Definition validate_view (view : json) : outcome bool :=
  i <- get view "id" ;;
  if negb (is_number i) then ok false else
  n <- get view "name" ;;
  if negb (is_string n) then ok false else
  h <- get view "heading" ;;
  if negb (is_number h) then ok false else
  t <- get view "tilt" ;;
  if negb (is_number t) then ok false else
  r <- get view "range" ;;
  if negb (is_number r) then ok false else
  c <- get view "center" ;;
  if negb (is_object c) then ok false else
  match c with
  | None => ok false
  | Some c =>
      la <- get c "lat" ;;
      if negb (is_number la) then ok false else
      ln <- get c "lng" ;;
      if negb (is_number ln) then ok false else
      al <- get c "altitude" ;;
      if negb (is_undefined al) && negb (is_number al) then ok false else
      ok true
  end.

Fixpoint validate_views (views : list json) : outcome bool :=
  match views with
  | [] => ok true
  | view :: rest =>
      b <- validate_view view ;;
      if b then validate_views rest else ok false
  end.

Definition validateTourFile (data : json) : outcome bool :=
  if negb (is_object (Some data)) then ok false else
  d <- get data "playbackDelay" ;;
  if negb (is_number d) then ok false else
  f <- get data "playbackFlyoverTime" ;;
  if negb (is_undefined f) && negb (is_number f) then ok false else
  l <- get data "loopTour" ;;
  if negb (is_boolean l) then ok false else
  vs <- get data "views" ;;
  match vs with
  | Some (JArr views) => validate_views views
  | _ => ok false
  end.

(** **** Writing *)

Definition json_of_center (c : Center) : json :=
  JObj ([("lat", JNum (center_lat c)); ("lng", JNum (center_lng c))]
        ++ match altitude c with
           | Some a => [("altitude", JNum a)]
           | None => []
           end).

Definition type_name (t : ViewType) : string :=
  match t with stop_view => "stop" | leg_view => "leg" | custom_view => "custom" end.

Definition json_of_view (v : MapView) : json :=
  JObj [("id", JNum (inject_Z (id v)));
        ("name", JStr (name v));
        ("center", json_of_center (center v));
        ("heading", JNum (heading v));
        ("tilt", JNum (tilt v));
        ("range", JNum (range v));
        ("type", JStr (u (type_name (type v))));
        ("itineraryIndex", JNum (inject_Z (itineraryIndex v)))].

(** [JSON.stringify(value)] as [JSON.parse] reads it back: a number that is
    not finite is written as [null]; every other value of a document is
    written so that it is read back as it was. *)
Fixpoint through_text (value : json) : json :=
  match value with
  | JInfinity _ => JNull
  | JArr items => JArr (map through_text items)
  | JObj fields => JObj (map (fun field => (fst field, through_text (snd field))) fields)
  | _ => value
  end.

(** [exportTour]: nothing when there is no view, else the document that is
    offered for download as [map-tour.json]. *)
Definition exportTour (st : State) : option json :=
  if (List.length (savedViews st) =? 0)%nat then None
  else
    let tourData :=
      JObj [("playbackDelay", JNum (playbackDelay st));
            ("playbackFlyoverTime", JNum (playbackFlyoverTime st));
            ("loopTour", JBool (loopTour st));
            ("views", JArr (map json_of_view (savedViews st)))] in
    let dataStr := through_text tourData in
    Some dataStr.

(** **** Reading

    [this.savedViews = data.views] stores the parsed objects as they are.
    The model reads them as [MapView]s, as the type of [savedViews] says; a
    document whose views do not have that shape (an id that is no whole
    number, a number that is not finite, a missing [type]) is outside the
    model. *)

Definition integral (q : Q) : option Z :=
  if (Qden q =? 1)%positive then Some (Qnum q) else None.

Definition number_of (v : option json) : option Q :=
  match v with Some (JNum q) => Some q | _ => None end.

Definition integer_of (v : option json) : option Z :=
  match v with Some (JNum q) => integral q | _ => None end.

Definition type_of_json (v : option json) : option ViewType :=
  match v with
  | Some (JStr s) =>
      if jsstring_eqb s (u "stop") then Some stop_view
      else if jsstring_eqb s (u "leg") then Some leg_view
      else if jsstring_eqb s (u "custom") then Some custom_view
      else None
  | _ => None
  end.

Definition center_of_json (v : option json) : option Center :=
  match v with
  | Some (JObj fields) =>
      match number_of (lookup "lat" fields), number_of (lookup "lng" fields) with
      | Some la, Some ln =>
          match lookup "altitude" fields with
          | None => Some {| center_lat := la; center_lng := ln; altitude := None |}
          | Some (JNum a) =>
              Some {| center_lat := la; center_lng := ln; altitude := Some a |}
          | Some _ => None
          end
      | _, _ => None
      end
  | _ => None
  end.

Definition view_of_json (v : json) : option MapView :=
  match v with
  | JObj fields =>
      match integer_of (lookup "id" fields), lookup "name" fields,
            center_of_json (lookup "center" fields),
            number_of (lookup "heading" fields), number_of (lookup "tilt" fields),
            number_of (lookup "range" fields), type_of_json (lookup "type" fields),
            integer_of (lookup "itineraryIndex" fields) with
      | Some i, Some (JStr n), Some c, Some h, Some t, Some r, Some ty, Some ix =>
          Some {| id := i; name := n; center := c; heading := h; tilt := t;
                  range := r; type := ty; itineraryIndex := ix |}
      | _, _, _, _, _, _, _, _ => None
      end
  | _ => None
  end.

Fixpoint views_of_json (l : list json) : option (list MapView) :=
  match l with
  | [] => Some []
  | v :: rest =>
      match view_of_json v, views_of_json rest with
      | Some v, Some rest => Some (v :: rest)
      | _, _ => None
      end
  end.

(** [Math.max(...ids, 0)] *)
Definition Math_max_ids (l : list Z) : Z := fold_right Z.max 0 l.

Inductive ImportResult : Type :=
  | imported (st : State)   (* "Tour imported successfully!" *)
  | cancelled               (* the user declined to replace the current tour *)
  | import_failed           (* the [catch] branch: "Failed to import tour" *)
  | outside_model.          (* valid, but with views that are no [MapView]s
                               or with a number that is not finite *)

(** The [onload] handler of [handleFileImport].  [parsed] is the result of
    [JSON.parse]; [confirmed] is the user's answer to the [confirm] dialog,
    asked only when there are saved views. *)
Definition handleFileImport (parsed : outcome json) (confirmed : bool) (st : State)
  : ImportResult :=
  match parsed with
  | thrown => import_failed
  | ok data =>
      match validateTourFile data with
      | thrown | ok false => import_failed
      | ok true =>
          if (0 <? List.length (savedViews st))%nat && negb confirmed then cancelled
          else
            match get data "playbackDelay", get data "playbackFlyoverTime",
                  get data "loopTour", get data "views" with
            | ok (Some (JNum delay)), ok flyover, ok (Some (JBool loop)),
              ok (Some (JArr views)) =>
                match flyover, views_of_json views with
                | Some (JInfinity _), _ | _, None => outside_model
                | _, Some views =>
                    let st := set_playbackDelay delay st in
                    let st :=
                      set_playbackFlyoverTime
                        match flyover with Some (JNum f) => f | _ => 2 end st in
                    let st := set_loopTour loop st in
                    let st := set_savedViews views st in
                    let st :=
                      set_nextViewId (js_add (Math_max_ids (map id views)) 1) st in
                    imported (set_activeRightSidebarTab tour st)
                end
            | ok (Some (JInfinity _)), _, _, _ => outside_model
            | _, _, _, _ => import_failed (* not reached after validation *)
            end
      end
  end.

(** **** The round trip *)

Lemma view_of_json_of_view (v : MapView) : view_of_json (json_of_view v) = Some v.
Proof.
  destruct v as [i n [la ln [a|]] h t r [| |] ix]; reflexivity.
Qed.

Lemma validate_view_json_of_view (v : MapView) :
  validate_view (json_of_view v) = ok true.
Proof.
  destruct v as [i n [la ln [a|]] h t r ty ix]; reflexivity.
Qed.

Lemma views_of_json_of_views (l : list MapView) :
  views_of_json (map json_of_view l) = Some l.
Proof.
  induction l as [|v l IH]; [reflexivity|].
  cbn [map views_of_json]. now rewrite view_of_json_of_view, IH.
Qed.

Lemma validate_views_json_of_views (l : list MapView) :
  validate_views (map json_of_view l) = ok true.
Proof.
  induction l as [|v l IH]; [reflexivity|].
  cbn [map validate_views]. now rewrite validate_view_json_of_view.
Qed.

Lemma Math_max_ids_upper (l : list Z) (x : Z) : In x l -> x <= Math_max_ids l.
Proof.
  induction l as [|a l IH]; simpl; [tauto|].
  intros [->|H]; [lia | specialize (IH H); lia].
Qed.

Lemma Math_max_ids_largest (l : list Z) (m : Z) :
  In m l -> (forall x, In x l -> x <= m) -> 0 <= m -> Math_max_ids l = m.
Proof.
  intros Hin Hmax Hpos. apply Z.le_antisymm; [|now apply Math_max_ids_upper].
  clear Hin. induction l as [|a l IH]; simpl; [exact Hpos|].
  apply Z.max_lub; [apply Hmax; simpl; auto | apply IH; intros x Hx; apply Hmax; simpl; auto].
Qed.

(** What the text keeps: the document of a state, whose numbers are finite,
    is read back as it was written. *)
Lemma through_text_view (v : MapView) : through_text (json_of_view v) = json_of_view v.
Proof.
  destruct v as [i n [la ln [a|]] h t r ty ix]; reflexivity.
Qed.

Lemma through_text_views (l : list MapView) :
  map through_text (map json_of_view l) = map json_of_view l.
Proof.
  induction l as [|v l IH]; [reflexivity|].
  cbn [map]. now rewrite through_text_view, IH.
Qed.

Lemma exportTour_document (st : State) :
  savedViews st <> [] ->
  exportTour st
  = Some (JObj [("playbackDelay", JNum (playbackDelay st));
                ("playbackFlyoverTime", JNum (playbackFlyoverTime st));
                ("loopTour", JBool (loopTour st));
                ("views", JArr (map json_of_view (savedViews st)))]).
Proof.
  intros Hne. unfold exportTour.
  destruct (savedViews st) as [|v l] eqn:E; [contradiction|].
  cbn [List.length Nat.eqb]. cbv zeta. cbn [through_text map fst snd].
  fold (map through_text (map json_of_view l)).
  now rewrite through_text_view, through_text_views.
Qed.

(** What the text loses: a document that holds [Infinity] in a number of
    a view that [validateTourFile] checks is refused once [JSON.stringify]
    has written it. *)
Lemma lookup_through_text (k : string) (fields : list (string * json)) :
  lookup k (map (fun field => (fst field, through_text (snd field))) fields)
  = option_map through_text (lookup k fields).
Proof.
  induction fields as [|[k' v] rest IH]; [reflexivity|].
  cbn [map lookup fst snd]. destruct (String.eqb k k'); [reflexivity | exact IH].
Qed.

Lemma validate_views_all (views : list json) :
  validate_views views = ok true ->
  Forall (fun view => validate_view view = ok true) views.
Proof.
  induction views as [|view rest IH]; cbn [validate_views]; intros H; [constructor|].
  destruct (validate_view view) as [[|]|] eqn:E; cbn [bind] in H; try discriminate.
  constructor; [exact E | now apply IH].
Qed.

(** The numbers of a view that the validation checks first. *)
Definition checked_numbers : list string := ["id"; "heading"; "tilt"; "range"].

Lemma infinite_view_refused (fields : list (string * json)) (key : string)
  (negative : bool) :
  In key checked_numbers -> lookup key fields = Some (JInfinity negative) ->
  validate_view (through_text (JObj fields)) <> ok true.
Proof.
  intros Hk Hl. cbn [through_text]. unfold validate_view. cbn [get bind].
  rewrite !lookup_through_text.
  destruct Hk as [<-|[<-|[<-|[<-|[]]]]]; rewrite Hl; cbn [option_map through_text];
    repeat match goal with
           | |- (if negb (is_number (Some JNull)) then _ else _) <> _ =>
               cbn [is_number negb]; discriminate
           | |- (if negb ?b then _ else _) <> _ =>
               destruct b; cbn [negb]; [|discriminate]
           end.
Qed.

Lemma infinity_is_lost (doc : json) (views : list json) (fields : list (string * json))
  (key : string) (negative : bool) :
  get doc "views" = ok (Some (JArr views)) -> In (JObj fields) views ->
  In key checked_numbers -> lookup key fields = Some (JInfinity negative) ->
  validateTourFile (through_text doc) <> ok true.
Proof.
  intros Hv Hin Hk Hl.
  destruct doc as [ | | | | | |top]; try discriminate.
  cbn [get] in Hv. injection Hv as Hv.
  cbn [through_text]. unfold validateTourFile. cbn [is_object negb get bind].
  rewrite !lookup_through_text, Hv. cbn [option_map through_text].
  repeat match goal with
         | |- (if ?b then ok false else _) <> _ => destruct b; [discriminate|]
         end.
  fold (map through_text views). intros V.
  apply validate_views_all in V. rewrite Forall_forall in V.
  apply (infinite_view_refused fields key negative Hk Hl).
  apply V. now apply (in_map through_text views (JObj fields)).
Qed.

(** A tour whose only view has the id -5, and one whose only view has the
    id 2^53, as the import of a hand-written file leaves them. *)
Definition negative_id_tour : State :=
  set_nextViewId 1 (set_savedViews [sample (-5)] initial).

Definition large_id_tour : State :=
  set_nextViewId (2 ^ 53) (set_savedViews [sample (2 ^ 53)] initial).

(** A file in which the range of a view is written [1e999], which
    [JSON.parse] reads as [Infinity]. *)
Definition infinite_range_file : json :=
  JObj [("playbackDelay", JNum 3);
        ("loopTour", JBool false);
        ("views",
         JArr [JObj [("id", JNum 0);
                     ("name", JStr (u "far"));
                     ("center", JObj [("lat", JNum 0); ("lng", JNum 0)]);
                     ("heading", JNum 0);
                     ("tilt", JNum 0);
                     ("range", JInfinity false)]])].

(** The claim fails on four counts.  The largest id of [negative_id_tour]
    is -5, yet importing its own export sets [nextViewId] to 1, not to -4:
    the code takes [Math.max(...ids, 0) + 1].  When the importing component
    has saved views and the user declines the [confirm] dialog, the import
    is abandoned and nothing is restored.  The largest id of
    [large_id_tour] is 2^53, and importing its own export sets [nextViewId]
    to 2^53 again: on doubles 2^53 + 1 is 2^53.  And a file that holds
    [Infinity] is accepted, the component then keeps the parsed views as
    they are, and what it exports of them, the range written as [null], is
    refused by [validateTourFile]. *)
Lemma export_import_counterexample :
  (exists doc st',
     exportTour negative_id_tour = Some doc /\
     handleFileImport (ok doc) true negative_id_tour = imported st' /\
     ids st' = [-5] /\
     nextViewId st' = 1 /\
     nextViewId st' <> -5 + 1 /\
     handleFileImport (ok doc) false negative_id_tour = cancelled) /\
  (exists doc st',
     exportTour large_id_tour = Some doc /\
     handleFileImport (ok doc) true large_id_tour = imported st' /\
     ids st' = [2 ^ 53] /\
     nextViewId st' = 2 ^ 53 /\
     nextViewId st' <> 2 ^ 53 + 1) /\
  (validateTourFile infinite_range_file = ok true /\
   handleFileImport (ok infinite_range_file) false initial = outside_model /\
   validateTourFile (through_text infinite_range_file) = ok false).
Proof.
  split; [|split].
  - eexists. eexists. split; [reflexivity|]. split; [reflexivity|].
    repeat split; try reflexivity. discriminate.
  - eexists. eexists. split; [reflexivity|]. split; [vm_compute; reflexivity|].
    repeat split; try reflexivity. discriminate.
  - repeat split; reflexivity.
Qed.

(** C6 (amended).  For a state with at least one saved view (its numbers
    are finite, its ids whole), [exportTour] writes a document holding
    [playbackDelay], [playbackFlyoverTime], [loopTour] and the views; that
    document passes [validateTourFile]; and importing it, into a component
    that has no saved views or whose user confirms the replacement, restores
    [playbackDelay], [playbackFlyoverTime], [loopTour] and [savedViews] to the
    exported values and sets [nextViewId] to [Math.max(...ids, 0) + 1] as
    doubles add, which is one more than the largest imported id when that
    id is not negative and below 2^53.  A number that is not finite is
    written as [null]: a document with [Infinity] for the id, the heading,
    the tilt or the range of a view is refused by [validateTourFile] once
    it has been written. *)
Theorem export_import_roundtrip :
  (forall st : State,
     savedViews st <> [] ->
     exists doc,
       exportTour st = Some doc /\
       get doc "playbackDelay" = ok (Some (JNum (playbackDelay st))) /\
       get doc "playbackFlyoverTime" = ok (Some (JNum (playbackFlyoverTime st))) /\
       get doc "loopTour" = ok (Some (JBool (loopTour st))) /\
       get doc "views" = ok (Some (JArr (map json_of_view (savedViews st)))) /\
       validateTourFile doc = ok true /\
       forall (st' : State) (confirmed : bool),
         savedViews st' = [] \/ confirmed = true ->
         exists st'',
           handleFileImport (ok doc) confirmed st' = imported st'' /\
           playbackDelay st'' = playbackDelay st /\
           playbackFlyoverTime st'' = playbackFlyoverTime st /\
           loopTour st'' = loopTour st /\
           savedViews st'' = savedViews st /\
           nextViewId st'' = js_add (Math_max_ids (ids st)) 1 /\
           (forall m, In m (ids st) -> (forall x, In x (ids st) -> x <= m) ->
                      0 <= m < 2 ^ 53 -> nextViewId st'' = m + 1)) /\
  (forall (doc : json) (views : list json) (fields : list (string * json))
          (key : string) (negative : bool),
     get doc "views" = ok (Some (JArr views)) -> In (JObj fields) views ->
     In key ["id"; "heading"; "tilt"; "range"] ->
     lookup key fields = Some (JInfinity negative) ->
     validateTourFile (through_text doc) <> ok true).
Proof.
  split; [|exact infinity_is_lost].
  intros st Hne. rewrite (exportTour_document st Hne).
  eexists. split; [reflexivity|].
  repeat (split; [reflexivity|]).
  assert (V : validateTourFile
                (JObj [("playbackDelay", JNum (playbackDelay st));
                       ("playbackFlyoverTime", JNum (playbackFlyoverTime st));
                       ("loopTour", JBool (loopTour st));
                       ("views", JArr (map json_of_view (savedViews st)))]) = ok true).
  { cbn. apply validate_views_json_of_views. }
  split; [exact V|].
  intros st' confirmed Hc. unfold handleFileImport. rewrite V.
  assert (G : ((0 <? List.length (savedViews st'))%nat && negb confirmed) = false).
  { destruct Hc as [-> | ->]; [reflexivity | apply andb_false_r]. }
  rewrite G. cbn [get lookup String.eqb Ascii.eqb Bool.eqb].
  rewrite views_of_json_of_views.
  eexists. split; [reflexivity|].
  repeat (split; [reflexivity|]).
  intros m Hin Hmax Hpos. cbn [nextViewId set_activeRightSidebarTab set_nextViewId].
  unfold ids in *.
  rewrite (Math_max_ids_largest (map id (savedViews st)) m Hin Hmax ltac:(lia)).
  apply js_add_exact. lia.
Qed.

Lemma export_import_roundtrip_witness :
  (exists doc,
     exportTour three_views = Some doc /\
     validateTourFile doc = ok true /\
     exists st'',
       handleFileImport (ok doc) false initial = imported st'' /\
       savedViews st'' = savedViews three_views /\
       nextViewId st'' = 3) /\
  validateTourFile (through_text infinite_range_file) <> ok true.
Proof.
  destruct export_import_roundtrip as [Round Lost]. split.
  - destruct (Round three_views ltac:(discriminate))
      as (doc & Hx & _ & _ & _ & _ & Hv & Himp).
    destruct (Himp initial false (or_introl eq_refl))
      as (st'' & Hi & _ & _ & _ & Hs & Hn & _).
    exists doc. split; [exact Hx|]. split; [exact Hv|].
    exists st''. split; [exact Hi|]. split; [exact Hs|]. exact Hn.
  - eapply (Lost infinite_range_file _ _ "range" false).
    + reflexivity.
    + left. reflexivity.
    + cbn. tauto.
    + reflexivity.
Defined.

(** **** The counter at 2^53 *)

(** A file whose only view has the id 2^53 - 1. *)
Definition limit_file : json :=
  JObj [("playbackDelay", JNum 3);
        ("loopTour", JBool false);
        ("views", JArr [json_of_view (sample (2 ^ 53 - 1))])].

(** The invariant of the ids is lost at 2^53.  The import of [limit_file]
    leaves one view with the id 2^53 - 1 and the counter at 2^53: the ids
    are distinct and below the counter.  The view saved next takes the id
    2^53 and the counter stays where it is, so that the id is not below it;
    the view saved after it takes the id 2^53 once more. *)
Lemma ids_fresh_counterexample :
  validateTourFile limit_file = ok true /\
  exists st,
    handleFileImport (ok limit_file) false initial = imported st /\
    ids_fresh st /\
    nextViewId st = 2 ^ 53 /\
    let st' := saveCurrentView_resume origin rejected st in
    ids st' = [2 ^ 53 - 1; 2 ^ 53] /\
    nextViewId st' = 2 ^ 53 /\
    ~ ids_fresh st' /\
    ids (saveCurrentView_resume origin rejected st') = [2 ^ 53 - 1; 2 ^ 53; 2 ^ 53] /\
    ~ NoDup (ids (saveCurrentView_resume origin rejected st')).
Proof.
  split; [reflexivity|].
  eexists. split; [vm_compute; reflexivity|].
  split; [split; [repeat constructor; intros []|repeat constructor]|].
  split; [reflexivity|]. cbv zeta.
  split; [reflexivity|]. split; [reflexivity|]. split; [|split; [reflexivity|]].
  - intros [_ F]. inversion F as [|? ? _ F']. inversion F' as [|? ? L _].
    vm_compute in L. discriminate.
  - intros N. inversion N as [|? ? _ N']. inversion N' as [|? ? I _].
    apply I. left. reflexivity.
Qed.

End Tour.

(* ================================================================= *)
(** ** [_parseItineraryTable] *)

Module Table.
Import JS.
Open Scope list_scope.

(** Code units the parser tests for. *)
Definition newline : jsstring := [10%N].
Definition bar : jsstring := [124%N].
Definition emdash : jsstring := [8212%N].   (* U+2014 *)
Definition endash : jsstring := [8211%N].   (* U+2013 *)

Record Parsed : Type := {
  stops : list jsstring;
  dates : list jsstring;
  accommodationCosts : list Q
}.

Section Parser.

(** The host's clock and number and date parsing:
    [String(new Date().getFullYear())]; [new Date(text).toISOString()], or
    [None] when the date is invalid ([isNaN(date.getTime())]); and
    [parseFloat], with [None] for [NaN]. *)
Variable year : jsstring.
Variable Date_toISOString : jsstring -> option jsstring.
Variable parseFloat : jsstring -> option Q.

(** [row.split('|').map((c) => c.trim())] *)
Definition columns_of (row : jsstring) : list jsstring := map trimU (split bar row).

(** Column 3 and 4: the label, and the "name;;;query" entry pushed to [stops]. *)
Definition stopNameForLabel_of (columns : list jsstring) : jsstring :=
  trimU (removeAll [u "**"; endash ++ u " START"; endash ++ u " RETURN"]
           (nth 3 columns [])).

Definition query_of (columns : list jsstring) : jsstring :=
  let stopNameForLabel := stopNameForLabel_of columns in
  let address := nth 4 columns [] in
  if truthy address && negb (jsstring_eqb address emdash)
  then if includes (u "Home") stopNameForLabel
       then address
       else stopNameForLabel ++ u ", " ++ address
  else stopNameForLabel.

Definition stop_of (columns : list jsstring) : jsstring :=
  stopNameForLabel_of columns ++ u ";;;" ++ query_of columns.

(** Column 2: the entry pushed to [dates]. *)
Definition date_of (columns : list jsstring) : jsstring :=
  let dateStr := nth 2 columns [] in
  if truthy dateStr && negb (jsstring_eqb dateStr emdash)
  then
    let firstDatePart :=
      trimU (hd [] (splitAny (fun c => (c =? 8211) || (c =? 45))%N dateStr)) in
    match Date_toISOString (firstDatePart ++ u " " ++ year) with
    | Some iso => hd [] (split (u "T") iso)
    | None => []
    end
  else [].

(** Column 7: the entry pushed to [rates]. *)
Definition rate_of (columns : list jsstring) : Q :=
  let rateStr := nth 7 columns [] in
  if truthy rateStr && negb (jsstring_eqb rateStr emdash)
  then
    match parseFloat (filter (fun c => negb ((c =? 36) || (c =? 92))%N) rateStr) with
    | Some rate => rate
    | None => 0
    end
  else 0.

(** The loop over the data rows, with the three arrays it pushes to. *)
Fixpoint scan (dataRows : list jsstring) (stops dates : list jsstring) (rates : list Q)
  : list jsstring * list jsstring * list Q :=
  match dataRows with
  | [] => (stops, dates, rates)
  | row :: rest =>
      if negb (startsWith bar row) then scan rest stops dates rates
      else
        let columns := columns_of row in
        if (List.length columns <? 8)%nat then scan rest stops dates rates
        else
          scan rest (stops ++ [stop_of columns]) (dates ++ [date_of columns])
            (rates ++ [rate_of columns])
  end.

Definition lines_of (markdown : jsstring) : list jsstring :=
  filter truthy (map trimU (split newline markdown)).

Definition _parseItineraryTable (markdown : jsstring) : option Parsed :=
  let lines := lines_of markdown in
  if (List.length lines <? 3)%nat
     || negb (includes bar (nth 0 lines []))
     || negb (includes (u "--") (nth 1 lines []))
  then None
  else
    let dataRows := skipn 2 lines in
    let '(stops, dates, rates) := scan dataRows [] [] [] in
    if (List.length stops <? 2)%nat then None
    else
      let accommodationCosts := skipn 1 rates in
      Some {| stops := stops; dates := dates; accommodationCosts := accommodationCosts |}.

(** The data rows that the loop keeps. *)
Definition is_stop_row (row : jsstring) : bool :=
  startsWith bar row && (8 <=? List.length (split bar row))%nat.

Definition stop_rows (markdown : jsstring) : list (list jsstring) :=
  map columns_of (filter is_stop_row (skipn 2 (lines_of markdown))).

Lemma scan_spec (dataRows : list jsstring) (s d : list jsstring) (r : list Q) :
  let rows := map columns_of (filter is_stop_row dataRows) in
  scan dataRows s d r
  = (s ++ map stop_of rows, d ++ map date_of rows, r ++ map rate_of rows).
Proof.
  revert s d r. induction dataRows as [|row rest IH]; intros s d r; cbn zeta.
  - cbn [filter map scan]. now rewrite !app_nil_r.
  - cbn [scan filter].
    assert (L : List.length (columns_of row) = List.length (split bar row))
      by (unfold columns_of; apply length_map).
    rewrite L.
    destruct (is_stop_row row) eqn:E; unfold is_stop_row in E.
    + apply andb_prop in E. destruct E as [E1 E2]. rewrite E1. cbn [negb].
      apply Nat.leb_le in E2.
      destruct (Nat.ltb_spec (List.length (split bar row)) 8) as [H|_]; [lia|].
      rewrite IH. cbn [map]. now rewrite <- !app_assoc.
    + destruct (startsWith bar row); cbn [negb]; [|apply IH].
      cbn [andb] in E. apply Nat.leb_gt in E.
      destruct (Nat.ltb_spec (List.length (split bar row)) 8) as [_|H]; [|lia].
      apply IH.
Qed.

(** *** The table as the specification reads it

    What the specification says of the result is written here once more, on
    its own, from the lines of the text to the three arrays, with the
    built-ins of [JS] only and none of the parser's own parts.  The parser
    is compared with it below. *)

(** The lines, trimmed, without the blank ones. *)
Definition spec_lines (markdown : jsstring) : list jsstring :=
  filter (fun line => negb (List.length line =? 0)%nat)
    (map trimU (split [10%N] markdown)).

(** A data row that gives a stop: a line after the first two that starts
    with '|' and splits at '|' into 8 parts or more. *)
Definition spec_data_rows (markdown : jsstring) : list jsstring :=
  filter (fun row => startsWith [124%N] row
                     && (8 <=? List.length (split [124%N] row))%nat)
    (skipn 2 (spec_lines markdown)).

(** The cell at position [k] of a row, trimmed. *)
Definition spec_cell (k : nat) (row : jsstring) : jsstring :=
  nth k (map trimU (split [124%N] row)) [].

(** A cell without an entry: empty, or the dash U+2014. *)
Definition no_entry (cell : jsstring) : bool :=
  match cell with
  | [] => true
  | [c] => (c =? 8212)%N
  | _ => false
  end.

(** The name of a stop: cell 3 without its bold marks and without the
    notes "– START" and "– RETURN". *)
Definition spec_name (row : jsstring) : jsstring :=
  trimU (removeAll [u "**"; 8211%N :: u " START"; 8211%N :: u " RETURN"]
           (spec_cell 3 row)).

(** The query of a stop: the address of cell 4 for "Home", the name and the
    address for another stop, the name alone without an address. *)
Definition spec_query (row : jsstring) : jsstring :=
  if no_entry (spec_cell 4 row) then spec_name row
  else if includes (u "Home") (spec_name row) then spec_cell 4 row
       else spec_name row ++ u ", " ++ spec_cell 4 row.

Definition spec_stop (row : jsstring) : jsstring :=
  spec_name row ++ u ";;;" ++ spec_query row.

(** The text that the date cell 2 is parsed from: what stands before the
    first dash or hyphen, and the year. *)
Definition spec_date_text (row : jsstring) : jsstring :=
  trimU (hd [] (splitAny (fun c => (c =? 8211) || (c =? 45))%N (spec_cell 2 row)))
  ++ u " " ++ year.

Definition spec_date (row : jsstring) : jsstring :=
  if no_entry (spec_cell 2 row) then []
  else match Date_toISOString (spec_date_text row) with
       | Some iso => hd [] (split (u "T") iso)
       | None => []
       end.

(** The rate of cell 7, read without '$' and backslash; 0 without an entry
    or when it is no number. *)
Definition spec_rate (row : jsstring) : Q :=
  if no_entry (spec_cell 7 row) then 0
  else match parseFloat (filter (fun c => negb ((c =? 36) || (c =? 92))%N)
                           (spec_cell 7 row)) with
       | Some rate => rate
       | None => 0
       end.

(** A table whose result does not depend on the host: its date and rate
    cells have no entry.  It has a blank line, a row that is too short, a
    row that does not start with '|' and white space around its last row. *)
Definition plain_table : jsstring :=
  u "| # | Dates | Stop | Address | Drive | Notes | Rate |" ++ [10%N] ++
  u "|---|---|---|---|---|---|---|" ++ [10%N] ++
  u "   " ++ [10%N] ++
  u "| 1 | " ++ [8212%N] ++ u " | **Home** " ++ [8211%N] ++ u " START | 1 Main St | 0 | x | "
    ++ [8212%N] ++ u " |" ++ [10%N] ++
  u "| oops |" ++ [10%N] ++
  u "no bar | a | b | c | d | e | f | g |" ++ [10%N] ++
  u "  | 2 |  | Boise | Capitol Blvd | 5h | y |  |  ".

Lemma no_entry_spec (cell : jsstring) :
  no_entry cell = negb (truthy cell && negb (jsstring_eqb cell emdash)).
Proof.
  unfold jsstring_eqb, emdash.
  destruct cell as [|c [|d rest]]; cbn [no_entry truthy andb negb].
  - reflexivity.
  - destruct (list_eq_dec N.eq_dec [c] [8212%N]) as [E|E]; cbn [negb].
    + injection E as ->. reflexivity.
    + destruct (N.eqb_spec c 8212) as [->|_]; [now contradiction E | reflexivity].
  - destruct (list_eq_dec N.eq_dec (c :: d :: rest) [8212%N]) as [E|E];
      [discriminate | reflexivity].
Qed.

Lemma spec_lines_eq (markdown : jsstring) : spec_lines markdown = lines_of markdown.
Proof.
  unfold spec_lines, lines_of. apply filter_ext. intros [|c line]; reflexivity.
Qed.

Lemma spec_stop_eq (row : jsstring) : spec_stop row = stop_of (columns_of row).
Proof.
  unfold spec_stop, stop_of, spec_query, query_of. cbv zeta.
  change (stopNameForLabel_of (columns_of row)) with (spec_name row).
  change (nth 4 (columns_of row) []) with (spec_cell 4 row).
  rewrite no_entry_spec.
  now destruct (truthy (spec_cell 4 row)
                && negb (jsstring_eqb (spec_cell 4 row) emdash)).
Qed.

Lemma spec_date_eq (row : jsstring) : spec_date row = date_of (columns_of row).
Proof.
  unfold spec_date, date_of, spec_date_text. cbv zeta.
  change (nth 2 (columns_of row) []) with (spec_cell 2 row).
  rewrite no_entry_spec.
  now destruct (truthy (spec_cell 2 row)
                && negb (jsstring_eqb (spec_cell 2 row) emdash)).
Qed.

Lemma spec_rate_eq (row : jsstring) : spec_rate row = rate_of (columns_of row).
Proof.
  unfold spec_rate, rate_of. cbv zeta.
  change (nth 7 (columns_of row) []) with (spec_cell 7 row).
  rewrite no_entry_spec.
  now destruct (truthy (spec_cell 7 row)
                && negb (jsstring_eqb (spec_cell 7 row) emdash)).
Qed.

Lemma spec_data_rows_eq (markdown : jsstring) :
  map columns_of (spec_data_rows markdown) = stop_rows markdown.
Proof. unfold spec_data_rows, stop_rows. now rewrite spec_lines_eq. Qed.

(** C3.  [_parseItineraryTable] returns null exactly when the input, its
    lines trimmed and the blank ones dropped, has fewer than 3 lines, or its
    first line has no '|', or its second line has no '--', or fewer than 2
    stops are extracted.  Otherwise it returns one "name;;;query" stop per
    data row that starts with '|' and splits into at least 8 columns, as
    many dates as stops (the empty string where the date cell is missing,
    '—' or unparsable), and the parsed rates without the first one: one
    accommodation cost fewer than there are stops.  The lines, the rows and
    their cells are those of the reading above; [plain_table] is a table
    that the parser reads in this way. *)
Theorem parseItineraryTable_spec (markdown : jsstring) :
  let lines := spec_lines markdown in
  let rows := spec_data_rows markdown in
  (_parseItineraryTable markdown = None <->
   (List.length lines < 3)%nat \/ includes [124%N] (nth 0 lines []) = false \/
   includes (u "--") (nth 1 lines []) = false \/ (List.length rows < 2)%nat) /\
  (forall r, _parseItineraryTable markdown = Some r ->
     stops r = map spec_stop rows /\
     dates r = map spec_date rows /\
     List.length (dates r) = List.length (stops r) /\
     (forall i row, nth_error rows i = Some row ->
        spec_cell 2 row = [] \/ spec_cell 2 row = [8212%N] \/
        Date_toISOString (spec_date_text row) = None ->
        nth_error (dates r) i = Some []) /\
     accommodationCosts r = skipn 1 (map spec_rate rows) /\
     List.length (accommodationCosts r) = (List.length (stops r) - 1)%nat) /\
  _parseItineraryTable plain_table
  = Some {| stops := [u "Home;;;1 Main St"; u "Boise;;;Boise, Capitol Blvd"];
            dates := [[]; []];
            accommodationCosts := [0%Q] |}.
Proof.
  cbv zeta. split; [|split; [|vm_compute; reflexivity]].
  - rewrite spec_lines_eq, <- (length_map columns_of (spec_data_rows markdown)),
      spec_data_rows_eq.
    unfold _parseItineraryTable, stop_rows.
    set (lines := lines_of markdown).
    rewrite (scan_spec (skipn 2 lines) [] [] []). cbv zeta. cbn [app].
    set (rows := map columns_of (filter is_stop_row (skipn 2 lines))).
    rewrite length_map.
    change [124%N] with bar.
    destruct (Nat.ltb_spec (List.length lines) 3) as [A|A]; cbn [orb].
    { split; auto. }
    destruct (includes bar (nth 0 lines [])); cbn [negb orb];
      [|split; auto].
    destruct (includes (u "--") (nth 1 lines [])); cbn [negb];
      [|split; auto].
    destruct (Nat.ltb_spec (List.length rows) 2) as [B|B].
    + split; auto.
    + split; [discriminate|]. intros [H|[H|[H|H]]]; try discriminate; lia.
  - intros r Hr.
    assert (E : stops r = map spec_stop (spec_data_rows markdown) /\
                dates r = map spec_date (spec_data_rows markdown) /\
                accommodationCosts r = skipn 1 (map spec_rate (spec_data_rows markdown))).
    { rewrite (map_ext _ _ spec_stop_eq), (map_ext _ _ spec_date_eq),
        (map_ext _ _ spec_rate_eq).
      rewrite <- !(map_map columns_of), spec_data_rows_eq.
      unfold _parseItineraryTable in Hr.
      rewrite (scan_spec (skipn 2 (lines_of markdown)) [] [] []) in Hr.
      cbv zeta in Hr. cbn [app] in Hr. fold (stop_rows markdown) in Hr.
      destruct ((List.length (lines_of markdown) <? 3)%nat
                || negb (includes bar (nth 0 (lines_of markdown) []))
                || negb (includes (u "--") (nth 1 (lines_of markdown) [])));
        [discriminate|].
      destruct (List.length (map stop_of (stop_rows markdown)) <? 2)%nat;
        [discriminate|].
      injection Hr as <-. repeat split. }
    destruct E as (Es & Ed & Ec). rewrite Es, Ed, Ec.
    split; [reflexivity|]. split; [reflexivity|].
    split; [now rewrite !length_map|]. split; [|split; [reflexivity|]].
    + intros i row Hi Hblank. rewrite nth_error_map, Hi. cbn [option_map]. f_equal.
      unfold spec_date. destruct Hblank as [H|[H|H]].
      * now rewrite H.
      * now rewrite H.
      * rewrite H. now destruct (no_entry (spec_cell 2 row)).
    + rewrite length_skipn, !length_map. reflexivity.
Qed.

End Parser.

(** The parser on [plain_table], whatever the host. *)
Lemma parseItineraryTable_spec_witness :
  _parseItineraryTable (u "2025") (fun _ => None) (fun _ => None) plain_table
  = Some {| stops := [u "Home;;;1 Main St"; u "Boise;;;Boise, Capitol Blvd"];
            dates := [[]; []];
            accommodationCosts := [0%Q] |} /\
  List.length (spec_data_rows plain_table) = 2%nat.
Proof.
  destruct (parseItineraryTable_spec (u "2025") (fun _ => None) (fun _ => None)
              plain_table) as (_ & Rows & Plain).
  split; [exact Plain|].
  destruct (Rows _ Plain) as (S & _). apply (f_equal (@List.length _)) in S.
  now rewrite length_map in S.
Defined.

(** A table of three data rows, the second of them too short to be a stop;
    dates and rates are read by stand-ins for the host's parsers. *)
Definition sample_table : jsstring :=
  u "| # | Dates | Stop | Address | Drive | Notes | Rate |" ++ newline ++
  u "|---|---|---|---|---|---|---|" ++ newline ++
  u "| 1 | Aug 12 | **Home** | 1 Main St | 0 | x | $0 |" ++ newline ++
  u "| oops |" ++ newline ++
  u "  | 2 | Aug 13 | Boise | Capitol Blvd | 5h | y | $165 |  ".

Example parse_sample_table :
  _parseItineraryTable (u "2025") (fun _ => None) (fun _ => Some 165%Q) sample_table
  = Some {| stops := [u "Home;;;1 Main St"; u "Boise;;;Boise, Capitol Blvd"];
            dates := [[]; []];
            accommodationCosts := [165%Q] |}.
Proof. vm_compute. reflexivity. Qed.

Example parse_one_stop :
  _parseItineraryTable (u "2025") (fun _ => None) (fun _ => None)
    (u "| a | b |" ++ newline ++ u "|--|--|" ++ newline
     ++ u "| 1 | Aug 12 | Home | 1 Main St | 0 | x | $0 |") = None.
Proof. vm_compute. reflexivity. Qed.

End Table.

(* ================================================================= *)
(** ** The component: map elements, itinerary and route animation *)

Module App.
Import JS Types.
Open Scope string_scope.
Open Scope list_scope.
Open Scope Z_scope.

Inductive ChatState : Type := IDLE | GENERATING | THINKING | EXECUTING.

Record TooltipInfo : Type := { content : jsstring; top : Q; left : Q }.

(** The chat and layout fields, which the map handlers never touch. *)
Record Ui : Type := {
  chatState : ChatState;
  isRunning : bool;
  inputMessage : jsstring;
  tooltipInfo : option TooltipInfo;
  isChatSidebarCollapsed : bool;
  isItinerarySidebarCollapsed : bool;
  isItinerarySummaryCollapsed : bool
}.

(** A turn in the chat: its role and the markdown it shows. *)
Record Message : Type := { role : jsstring; body : jsstring }.

(** Which parts of the mapping SDK have been loaded. *)
Record Services : Type := {
  mapElement : bool;   (* [this.map] *)
  geocoder : bool;
  Marker3DElement : bool;
  Polyline3DElement : bool;
  directionsService : bool
}.

(** The state of the component.  The back-reference [leg.polyline] and the
    tooltip listeners of markers and polylines are not part of it: they are
    read only by mouse events. *)
Record State : Type := {
  ui : Ui;
  messages : list Message;
  mapInitialized : bool;
  mapError : jsstring;
  services : Services;
  marker : option Marker;
  routePolylines : list Polyline;
  stopMarkers : list Marker;
  backgroundRoutePolyline : option Polyline;
  currentAnimationId : Z;
  itineraryData : option ItineraryData;
  mpg : Q;
  animationSpeed : Z;
  sidebar : Tour.State
}.

(** Assignments [this.field = x]. *)
Definition set_messages (x : list Message) (s : State) : State :=
  {| ui := ui s; messages := x; mapInitialized := mapInitialized s; mapError := mapError
     s; services := services s; marker := marker s; routePolylines := routePolylines s;
     stopMarkers := stopMarkers s; backgroundRoutePolyline := backgroundRoutePolyline s;
     currentAnimationId := currentAnimationId s; itineraryData := itineraryData s; mpg
     := mpg s; animationSpeed := animationSpeed s; sidebar := sidebar s |}.

Definition set_marker (x : option Marker) (s : State) : State :=
  {| ui := ui s; messages := messages s; mapInitialized := mapInitialized s; mapError :=
     mapError s; services := services s; marker := x; routePolylines := routePolylines
     s; stopMarkers := stopMarkers s; backgroundRoutePolyline := backgroundRoutePolyline
     s; currentAnimationId := currentAnimationId s; itineraryData := itineraryData s;
     mpg := mpg s; animationSpeed := animationSpeed s; sidebar := sidebar s |}.

Definition set_routePolylines (x : list Polyline) (s : State) : State :=
  {| ui := ui s; messages := messages s; mapInitialized := mapInitialized s; mapError :=
     mapError s; services := services s; marker := marker s; routePolylines := x;
     stopMarkers := stopMarkers s; backgroundRoutePolyline := backgroundRoutePolyline s;
     currentAnimationId := currentAnimationId s; itineraryData := itineraryData s; mpg
     := mpg s; animationSpeed := animationSpeed s; sidebar := sidebar s |}.

Definition set_stopMarkers (x : list Marker) (s : State) : State :=
  {| ui := ui s; messages := messages s; mapInitialized := mapInitialized s; mapError :=
     mapError s; services := services s; marker := marker s; routePolylines :=
     routePolylines s; stopMarkers := x; backgroundRoutePolyline :=
     backgroundRoutePolyline s; currentAnimationId := currentAnimationId s;
     itineraryData := itineraryData s; mpg := mpg s; animationSpeed := animationSpeed s;
     sidebar := sidebar s |}.

Definition set_backgroundRoutePolyline (x : option Polyline) (s : State) : State :=
  {| ui := ui s; messages := messages s; mapInitialized := mapInitialized s; mapError :=
     mapError s; services := services s; marker := marker s; routePolylines :=
     routePolylines s; stopMarkers := stopMarkers s; backgroundRoutePolyline := x;
     currentAnimationId := currentAnimationId s; itineraryData := itineraryData s; mpg
     := mpg s; animationSpeed := animationSpeed s; sidebar := sidebar s |}.

Definition set_currentAnimationId (x : Z) (s : State) : State :=
  {| ui := ui s; messages := messages s; mapInitialized := mapInitialized s; mapError :=
     mapError s; services := services s; marker := marker s; routePolylines :=
     routePolylines s; stopMarkers := stopMarkers s; backgroundRoutePolyline :=
     backgroundRoutePolyline s; currentAnimationId := x; itineraryData := itineraryData
     s; mpg := mpg s; animationSpeed := animationSpeed s; sidebar := sidebar s |}.

Definition set_itineraryData (x : option ItineraryData) (s : State) : State :=
  {| ui := ui s; messages := messages s; mapInitialized := mapInitialized s; mapError :=
     mapError s; services := services s; marker := marker s; routePolylines :=
     routePolylines s; stopMarkers := stopMarkers s; backgroundRoutePolyline :=
     backgroundRoutePolyline s; currentAnimationId := currentAnimationId s;
     itineraryData := x; mpg := mpg s; animationSpeed := animationSpeed s; sidebar :=
     sidebar s |}.

Definition set_mpg (x : Q) (s : State) : State :=
  {| ui := ui s; messages := messages s; mapInitialized := mapInitialized s; mapError :=
     mapError s; services := services s; marker := marker s; routePolylines :=
     routePolylines s; stopMarkers := stopMarkers s; backgroundRoutePolyline :=
     backgroundRoutePolyline s; currentAnimationId := currentAnimationId s;
     itineraryData := itineraryData s; mpg := x; animationSpeed := animationSpeed s;
     sidebar := sidebar s |}.

Definition set_animationSpeed (x : Z) (s : State) : State :=
  {| ui := ui s; messages := messages s; mapInitialized := mapInitialized s; mapError :=
     mapError s; services := services s; marker := marker s; routePolylines :=
     routePolylines s; stopMarkers := stopMarkers s; backgroundRoutePolyline :=
     backgroundRoutePolyline s; currentAnimationId := currentAnimationId s;
     itineraryData := itineraryData s; mpg := mpg s; animationSpeed := x; sidebar :=
     sidebar s |}.

Definition set_sidebar (x : Tour.State) (s : State) : State :=
  {| ui := ui s; messages := messages s; mapInitialized := mapInitialized s; mapError :=
     mapError s; services := services s; marker := marker s; routePolylines :=
     routePolylines s; stopMarkers := stopMarkers s; backgroundRoutePolyline :=
     backgroundRoutePolyline s; currentAnimationId := currentAnimationId s;
     itineraryData := itineraryData s; mpg := mpg s; animationSpeed := animationSpeed s;
     sidebar := x |}.

Definition set_activeRightSidebarTab (t : Tour.Tab) (s : State) : State :=
  set_sidebar (Tour.set_activeRightSidebarTab t (sidebar s)) s.

(** What a handler does outside the component's state. *)
Record DirectionsRequest : Type := {
  origin : option jsstring;
  destination : option jsstring;
  waypoints : list jsstring;
  request_travelMode : TravelMode
}.

Inductive Effect : Type :=
  | append_marker (m : Marker)            (* map.appendChild(marker) *)
  | append_polyline (p : Polyline)        (* map.appendChild(polyline) *)
  | remove_marker (m : Marker)            (* marker.remove() *)
  | remove_polyline (p : Polyline)        (* line.remove() *)
  | fly_camera_to (endCamera : Camera) (durationMillis : Z)
  | geocode (address : jsstring)          (* geocoder.geocode({address}, ...) *)
  | request_route (request : DirectionsRequest)  (* directionsService.route(...) *)
  | set_timeout (delay : Q)               (* setTimeout(resolve, delay) *)
  | console (text : jsstring).            (* console.warn / console.error *)

(** Handlers read and write the state and emit effects in order. *)
Definition M (A : Type) : Type := State -> A * State * list Effect.

Definition ret {A : Type} (a : A) : M A := fun s => (a, s, []).

Definition bind {A B : Type} (m : M A) (k : A -> M B) : M B :=
  fun s =>
    let '(a, s1, e1) := m s in
    let '(b, s2, e2) := k a s1 in
    (b, s2, e1 ++ e2).

Notation "x <- m ;; k" := (bind m (fun x => k))
  (at level 61, m at next level, right associativity).
Notation "m ;; k" := (bind m (fun _ => k))
  (at level 61, right associativity).

Definition get : M State := fun s => (s, s, []).
Definition modify (f : State -> State) : M unit := fun s => (tt, f s, []).
Definition emit (e : Effect) : M unit := fun s => (tt, s, [e]).

Fixpoint forEach {A : Type} (l : list A) (f : A -> M unit) : M unit :=
  match l with
  | [] => ret tt
  | x :: rest => f x ;; forEach rest f
  end.

Definition when (b : bool) (m : M unit) : M unit := if b then m else ret tt.

(** *** Clearing the map *)

Definition _clearMapElements : M unit :=
  modify (fun s => set_currentAnimationId (currentAnimationId s + 1) s) ;;
  s <- get ;;
  match marker s with
  | Some m => emit (remove_marker m) ;; modify (set_marker None)
  | None => ret tt
  end ;;
  forEach (routePolylines s) (fun line => emit (remove_polyline line)) ;;
  modify (set_routePolylines []) ;;
  forEach (stopMarkers s) (fun m => emit (remove_marker m)) ;;
  modify (set_stopMarkers []) ;;
  match backgroundRoutePolyline s with
  | Some line => emit (remove_polyline line) ;; modify (set_backgroundRoutePolyline None)
  | None => ret tt
  end ;;
  modify (set_itineraryData None).

(** [addMessage(role, ...)] followed by the assignment of the parsed
    markdown to the new turn. *)
Definition addMessage (r : string) (markdown : jsstring) : M unit :=
  modify (fun s => set_messages (messages s ++ [{| role := u r; body := markdown |}]) s).

(** *** Viewing a location *)

Definition _handleViewLocation (locationQuery : jsstring) : M bool :=
  s <- get ;;
  if negb (mapInitialized s) || negb (mapElement (services s))
     || negb (geocoder (services s)) || negb (Marker3DElement (services s))
  then
    when (negb (truthy (mapError s)))
      (addMessage "error"
         (u "Map is not ready to display locations. Please check configuration.")) ;;
    emit (console (u "Map not initialized, geocoder or Marker3DElement not available, cannot render query.")) ;;
    ret false
  else
    _clearMapElements ;;
    emit (geocode locationQuery) ;;
    ret true.

(** How the geocoder answers: with the locations found, or with an error. *)
Inductive Located : Type :=
  | found (results : list LatLng)
  | not_found (message : jsstring).

Definition label_of (locationQuery : jsstring) : jsstring :=
  if (30 <? List.length locationQuery)%nat
  then firstn 27 locationQuery ++ u "..."
  else locationQuery.

(** [_handleViewLocation] after its [await]. *)
Definition _handleViewLocation_resume (locationQuery : jsstring) (answer : Located)
  : M unit :=
  match answer with
  | found (location :: _) =>
      let position :=
        {| center_lat := lat location; center_lng := lng location;
           altitude := Some 0%Q |} in
      let cameraOptions :=
        {| cam_center := position; cam_heading := 0; cam_tilt := 675 # 10;
           cam_range := 2000 |} in
      emit (fly_camera_to cameraOptions 1500) ;;
      let m := {| position := position; label := label_of locationQuery;
                  styleColor := None |} in
      modify (set_marker (Some m)) ;;
      emit (append_marker m)
  | found [] => ret tt
  | not_found message =>
      emit (console (u "Geocode was not successful for " ++ quote ++ locationQuery
                     ++ quote ++ u ". Reason: " ++ message)) ;;
      addMessage "error"
        (u "Could not find location: " ++ locationQuery ++ u ". Reason: " ++ message)
  end.

(** *** Asking for directions *)

(** What the callback of [directionsService.route] keeps from the call. *)
Record Pending : Type := {
  animationId : Z;
  stopNames : list jsstring;
  pending_accommodationCosts : option (list Q);
  pending_dates : option (list jsstring);
  selectedTravelMode : TravelMode;
  pending_hotelNames : option (list jsstring)
}.

Definition separator : jsstring := u ";;;".

Definition stopQuery_of (s : jsstring) : option jsstring :=
  if includes separator s then nth_error (split separator s) 1 else Some s.

Definition stopName_of (s : jsstring) : jsstring :=
  if includes separator s then nth 0 (split separator s) [] else s.

(** The queries the request is made of.  An entry "name;;;" followed by
    nothing still has a query, the empty one. *)
Definition stopQueries_of (stopsWithNames : list jsstring) : list jsstring :=
  map (fun s => match stopQuery_of s with Some q => q | None => [] end) stopsWithNames.

Definition _handleDirections (stopsWithNames : list jsstring)
  (accommodationCosts : option (list Q)) (dates : option (list jsstring))
  (travelMode : option TravelMode) (hotelNames : option (list jsstring))
  : M (option Pending) :=
  s <- get ;;
  if negb (mapInitialized s) || negb (mapElement (services s))
     || negb (directionsService (services s)) || negb (Marker3DElement (services s))
     || negb (Polyline3DElement (services s)) || negb (geocoder (services s))
  then
    when (negb (truthy (mapError s)))
      (addMessage "error"
         (u "Map is not ready for directions. Please check configuration.")) ;;
    emit (console (u "Map not initialized or required services not available, cannot render directions.")) ;;
    ret None
  else
    _clearMapElements ;;
    s <- get ;;
    let animationId := currentAnimationId s in
    let stopQueries := stopQueries_of stopsWithNames in
    let stopNames := map stopName_of stopsWithNames in
    let origin := nth_error stopQueries 0 in
    let destination := nth_error stopQueries (List.length stopQueries - 1) in
    let waypoints := removelast (skipn 1 stopQueries) in
    let selectedTravelMode :=
      match travelMode with Some m => m | None => DRIVING end in
    emit (request_route {| origin := origin; destination := destination;
                   waypoints := waypoints;
                   request_travelMode := selectedTravelMode |}) ;;
    ret (Some {| animationId := animationId; stopNames := stopNames;
                 pending_accommodationCosts := accommodationCosts;
                 pending_dates := dates;
                 selectedTravelMode := selectedTravelMode;
                 pending_hotelNames := hotelNames |}).

(** *** [handleMapQuery] *)

Record MapParams : Type := {
  param_location : option jsstring;
  param_stops : option (list jsstring);
  param_legColors : option (list jsstring);
  param_accommodationCosts : option (list Q);
  param_dates : option (list jsstring);
  param_travelMode : option TravelMode;
  param_hotelNames : option (list jsstring)
}.

(** [if (params.location)]: present and not empty. *)
Definition truthy_location (l : option jsstring) : option jsstring :=
  match l with
  | Some (c :: rest) => Some (c :: rest)
  | _ => None
  end.

(** The result says what the handler is left waiting for. *)
Inductive Waiting : Type :=
  | for_nothing
  | for_geocoder (locationQuery : jsstring)
  | for_directions (p : Pending).

Definition handleMapQuery (params : MapParams) : M Waiting :=
  match truthy_location (param_location params) with
  | Some location =>
      asked <- _handleViewLocation location ;;
      ret (if asked then for_geocoder location else for_nothing)
  | None =>
      match param_stops params with
      | Some stops =>
          if (2 <=? List.length stops)%nat
          then
            modify (set_activeRightSidebarTab Tour.itinerary) ;;
            p <- _handleDirections stops (param_accommodationCosts params)
                   (param_dates params) (param_travelMode params)
                   (param_hotelNames params) ;;
            ret (match p with Some p => for_directions p | None => for_nothing end)
          else ret for_nothing
      | None => ret for_nothing
      end
  end.

(** C8.  When [params.location] is absent and [params.stops] is absent or
    has fewer than 2 entries, [handleMapQuery] does nothing: it emits no
    effect, so no geocoding or directions request and no map element added
    or removed, it waits for nothing, and the whole state of the component,
    [itineraryData] and the active tab of the right sidebar included, is the
    one it started from. *)
Theorem handleMapQuery_noop (params : MapParams) (s : State) :
  param_location params = None ->
  param_stops params = None \/
  (exists stops, param_stops params = Some stops /\ (List.length stops < 2)%nat) ->
  handleMapQuery params s = (for_nothing, s, []).
Proof.
  intros Hl Hs. unfold handleMapQuery. rewrite Hl. cbn [truthy_location].
  destruct Hs as [-> | (stops & -> & Hlen)]; [reflexivity|].
  destruct (Nat.leb_spec 2 (List.length stops)) as [H|_]; [lia | reflexivity].
Qed.

(** *** Drawing the route *)

Definition _drawLegPolyline (leg : RouteLeg) (color : option string)
  : M (option Polyline) :=
  s <- get ;;
  if negb (Polyline3DElement (services s)) then ret None
  else
    let legPath :=
      flat_map (fun step =>
                  List.map (fun p => {| center_lat := lat p; center_lng := lng p;
                                        altitude := Some 5%Q |}) (path step))
               (steps leg) in
    let legPolyline :=
      {| coordinates := legPath; strokeColor := color; strokeWidth := 10 |} in
    emit (append_polyline legPolyline) ;;
    modify (fun s => set_routePolylines (routePolylines s ++ [legPolyline]) s) ;;
    ret (Some legPolyline).

Definition draw (leg : ItineraryLeg) : M unit :=
  _drawLegPolyline (rawLegData leg) (leg_color leg) ;; ret tt.

Definition remove_routePolylines : M unit :=
  s <- get ;;
  forEach (routePolylines s) (fun line => emit (remove_polyline line)) ;;
  modify (set_routePolylines []).

Definition _drawStaticRoute : M unit :=
  s <- get ;;
  match itineraryData s with
  | None => ret tt
  | Some data => remove_routePolylines ;; forEach (legs data) draw
  end.

(** *** The animation loop

    [_runAnimationLoop] is an [async] function: it runs until it waits for a
    timer, and goes on when the timer fires.  A [Loop] is such a waiting
    call: its three arguments and the legs its [for] loop has still to draw. *)
Record Loop : Type := {
  loop_animationId : Z;
  legsData : list ItineraryLeg;
  delayPerLeg : Q;
  remaining : list ItineraryLeg
}.

Definition stale (animationId : Z) (s : State) : bool :=
  negb (animationId =? currentAnimationId s) || (animationSpeed s =? 100).

(** One turn of the [for] loop: the check, the polyline, the timer. *)
Definition iterate (l : Loop) (leg : ItineraryLeg) (rest : list ItineraryLeg)
  : M (option Loop) :=
  s <- get ;;
  if stale (loop_animationId l) s then ret None
  else
    draw leg ;;
    emit (set_timeout (delayPerLeg l)) ;;
    ret (Some {| loop_animationId := loop_animationId l; legsData := legsData l;
                 delayPerLeg := delayPerLeg l; remaining := rest |}).

(** A call of [_runAnimationLoop], up to its first timer.  Without a leg the
    function would call itself without ever waiting, until the call stack
    overflows; [_startAnimation] never calls it so. *)
Definition _runAnimationLoop (animationId : Z) (legsData : list ItineraryLeg)
  (delayPerLeg : Q) : M (option Loop) :=
  s <- get ;;
  if stale animationId s then ret None
  else
    remove_routePolylines ;;
    match legsData with
    | leg :: rest =>
        iterate {| loop_animationId := animationId; legsData := legsData;
                   delayPerLeg := delayPerLeg; remaining := legsData |} leg rest
    | [] => ret None
    end.

(** What a waiting loop does when its timer fires: the next turn of the
    [for] loop, or, after the last leg, the next call of the function. *)
Definition resume (l : Loop) : M (option Loop) :=
  match remaining l with
  | leg :: rest => iterate l leg rest
  | [] =>
      s <- get ;;
      if (loop_animationId l =? currentAnimationId s) && (animationSpeed s <? 100)
      then _runAnimationLoop (loop_animationId l) (legsData l) (delayPerLeg l)
      else ret None
  end.

Definition _startAnimation : M (option Loop) :=
  s <- get ;;
  match itineraryData s with
  | None => ret None
  | Some data =>
      if (List.length (legs data) =? 0)%nat then ret None
      else
        let animationId := currentAnimationId s in
        let speed := animationSpeed s in
        if 100 <=? speed then _drawStaticRoute ;; ret None
        else
          let legCount := inject_Z (Z.of_nat (List.length (legs data))) in
          let maxTotalDuration := (2000 * legCount)%Q in
          let minTotalDuration := 1000%Q in
          let totalDuration :=
            (maxTotalDuration
             - (inject_Z speed / 99) * (maxTotalDuration - minTotalDuration))%Q in
          let delayPerLeg :=
            if (0 <? List.length (legs data))%nat
            then (totalDuration / legCount)%Q else 0%Q in
          _runAnimationLoop animationId (legs data) delayPerLeg
  end.

Definition _stopAnimation : M unit :=
  modify (fun s => set_currentAnimationId (currentAnimationId s + 1) s) ;;
  _drawStaticRoute.

Definition _updateRouteAnimation : M (option Loop) :=
  s <- get ;;
  match itineraryData s with
  | None => ret None
  | Some _ =>
      modify (fun s => set_currentAnimationId (currentAnimationId s + 1) s) ;;
      s <- get ;;
      if animationSpeed s =? 100 then _drawStaticRoute ;; ret None
      else _startAnimation
  end.

(** [value] is what [parseInt(slider.value, 10)] gives. *)
Definition _handleAnimationSpeedChange (value : Z) : M (option Loop) :=
  modify (set_animationSpeed value) ;;
  _updateRouteAnimation.

(** *** What handlers leave alone *)

Definition result_of {A : Type} (r : A * State * list Effect) : A := fst (fst r).
Definition state_of {A : Type} (r : A * State * list Effect) : State := snd (fst r).
Definition effects_of {A : Type} (r : A * State * list Effect) : list Effect := snd r.

(** [respects R m]: running [m] takes a state to one related to it by [R]. *)
Definition respects (R : State -> State -> Prop) {A : Type} (m : M A) : Prop :=
  forall s, R s (state_of (m s)).

Section Respects.

Variable R : State -> State -> Prop.
Hypothesis R_refl : forall s, R s s.
Hypothesis R_trans : forall s1 s2 s3, R s1 s2 -> R s2 s3 -> R s1 s3.

Lemma respects_ret {A : Type} (a : A) : respects R (ret a).
Proof. intros s. apply R_refl. Qed.

Lemma respects_get : respects R get.
Proof. intros s. apply R_refl. Qed.

Lemma respects_emit (e : Effect) : respects R (emit e).
Proof. intros s. apply R_refl. Qed.

Lemma respects_modify (f : State -> State) :
  (forall s, R s (f s)) -> respects R (modify f).
Proof. intros H s. apply H. Qed.

Lemma respects_bind {A B : Type} (m : M A) (k : A -> M B) :
  respects R m -> (forall a, respects R (k a)) -> respects R (bind m k).
Proof.
  intros Hm Hk s. unfold bind, state_of. specialize (Hm s).
  destruct (m s) as [[a s1] e1]. specialize (Hk a s1).
  destruct (k a s1) as [[b s2] e2]. simpl in *. eauto.
Qed.

Lemma respects_forEach {A : Type} (l : list A) (f : A -> M unit) :
  (forall x, respects R (f x)) -> respects R (forEach l f).
Proof.
  intros H. induction l as [|x l IH]; simpl.
  - apply respects_ret.
  - apply respects_bind; auto.
Qed.

Lemma respects_when (b : bool) (m : M unit) : respects R m -> respects R (when b m).
Proof. intros H. destruct b; [exact H | apply respects_ret]. Qed.

End Respects.

(** Breaks a handler down to its assignments. *)
Ltac respects_steps :=
  repeat first
    [ apply respects_ret; [assumption]
    | apply respects_get; [assumption]
    | apply respects_emit; [assumption]
    | apply respects_bind; [assumption | | intros]
    | apply respects_forEach; [assumption | assumption | intros]
    | apply respects_when; [assumption | ]
    | progress cbv zeta
    | match goal with
      | |- respects _ (match ?x with _ => _ end) => destruct x
      | |- respects _ (if ?b then _ else _) => destruct b
      end ].

(** Drawing changes nothing but the polylines on the map. *)
Definition same_but_polylines (s s' : State) : Prop :=
  s' = set_routePolylines (routePolylines s') s.

Lemma same_but_polylines_refl (s : State) : same_but_polylines s s.
Proof. now destruct s. Qed.

Lemma same_but_polylines_trans (s1 s2 s3 : State) :
  same_but_polylines s1 s2 -> same_but_polylines s2 s3 -> same_but_polylines s1 s3.
Proof.
  unfold same_but_polylines. intros H12 H23. rewrite H23 at 1. rewrite H12 at 1.
  reflexivity.
Qed.

Lemma same_but_polylines_set (l : list Polyline) (s : State) :
  same_but_polylines s (set_routePolylines l s).
Proof. reflexivity. Qed.

Ltac polylines_only :=
  pose proof same_but_polylines_refl;
  pose proof same_but_polylines_trans;
  respects_steps;
  try (apply respects_modify; intros; apply same_but_polylines_set).

Lemma draw_polylines_only (leg : ItineraryLeg) : respects same_but_polylines (draw leg).
Proof. unfold draw, _drawLegPolyline. polylines_only. Qed.

Lemma drawStaticRoute_polylines_only : respects same_but_polylines _drawStaticRoute.
Proof. unfold _drawStaticRoute. polylines_only. Qed.

Lemma resume_polylines_only (l : Loop) : respects same_but_polylines (resume l).
Proof. unfold resume. polylines_only. Qed.

Lemma startAnimation_polylines_only : respects same_but_polylines _startAnimation.
Proof. unfold _startAnimation. polylines_only. Qed.

(** *** The answer of the directions service *)

Definition DEFAULT_GAS_PRICE_PER_GALLON : Q := 35 # 10.
Definition METERS_TO_MILES : Q := 621371 # 1000000000.

Section Host.

(** The geometry of the SDK, and [new Date(text).getTime()] in milliseconds,
    [None] standing for [NaN]. *)
Variable sdk : Sdk.
Variable Date_getTime : jsstring -> option Z.

Definition _calculateTripDays (dates : option (list jsstring)) : option TripDays :=
  match dates with
  | None => None
  | Some dates =>
      if (List.length dates <? 2)%nat then None
      else
        match Date_getTime (nth 0 dates []),
              Date_getTime (nth (List.length dates - 1) dates []) with
        | Some startDate, Some endDate =>
            let diffTime := Z.abs (endDate - startDate) in
            (* Math.ceil(diffTime / (1000 * 60 * 60 * 24)) + 1 *)
            let diffDays := - ((- diffTime) / (1000 * 60 * 60 * 24)) + 1 in
            Some (days diffDays)
        | _, _ => Some days_NaN
        end
  end.

Definition _zoomToBounds (bounds : LatLngBounds) : M unit :=
  let center := getCenter sdk bounds in
  let range := 10000%Q in
  let range :=
    match spherical sdk with
    | Some computeDistanceBetween =>
        let ne := getNorthEast sdk bounds in
        let sw := getSouthWest sdk bounds in
        (computeDistanceBetween ne sw * (17 # 10))%Q
    | None => range
    end in
  let range := Tour.Math_max range 2000 in
  emit (fly_camera_to
          {| cam_center := {| center_lat := lat center; center_lng := lng center;
                              altitude := Some 0%Q |};
             cam_heading := 0; cam_tilt := 45; cam_range := range |}
          2000).

Definition position_of (l : LatLng) : Center :=
  {| center_lat := lat l; center_lng := lng l; altitude := None |}.

Definition push_stop (x : ItineraryStop) (d : ItineraryData) : ItineraryData :=
  {| stops := stops d ++ [x]; legs := legs d; totalDistance := totalDistance d;
     totalTime := totalTime d; totalFuelCost := totalFuelCost d;
     totalAccommodationCost := totalAccommodationCost d;
     totalTripDays := totalTripDays d; travelMode := travelMode d;
     bounds := bounds d |}.

(** [legs.push(x)] followed by [totalFuelCost += fuelCost]. *)
Definition push_leg (x : ItineraryLeg) (d : ItineraryData) : ItineraryData :=
  {| stops := stops d; legs := legs d ++ [x]; totalDistance := totalDistance d;
     totalTime := totalTime d; totalFuelCost := js_plus (totalFuelCost d) (fuelCost x);
     totalAccommodationCost := totalAccommodationCost d;
     totalTripDays := totalTripDays d; travelMode := travelMode d;
     bounds := bounds d |}.

Definition at_index {A : Type} (l : option (list A)) (i : nat) : option A :=
  match l with Some l => nth_error l i | None => None end.

(** A marker is made, put on the map and kept in [stopMarkers]. *)
Definition place_marker (m : Marker) : M unit :=
  emit (append_marker m) ;;
  modify (fun s => set_stopMarkers (stopMarkers s ++ [m]) s).

(** The fuel cost of a leg of [meters] metres.  Nothing keeps [mpg] from
    being 0 here: the quotient is then [Infinity], or [NaN] for a leg of no
    length. *)
Definition fuelCost_of (mode : TravelMode) (mpg : Q) (meters : Z) : jsnumber :=
  let distanceMiles := (inject_Z meters * METERS_TO_MILES)%Q in
  match mode with
  | DRIVING =>
      js_times (js_divide (finite distanceMiles) (finite mpg))
        (finite DEFAULT_GAS_PRICE_PER_GALLON)
  | _ => finite 0
  end.

(** The body of [route.legs.forEach((leg, index) => ...)], from [index] on.
    The directions service answers with one leg per pair of consecutive
    stops, so [stopNames[index + 1]] is a name. *)
Fixpoint process_legs (p : Pending) (spectrumColors : list string)
  (l : list RouteLeg) (index : nat) (newItineraryData : ItineraryData)
  : M ItineraryData :=
  match l with
  | [] => ret newItineraryData
  | leg :: rest =>
      s <- get ;;
      let legColor := nth_error spectrumColors index in
      let stopLocation := end_location leg in
      let stopMarker :=
        {| position := position_of stopLocation;
           label := u (show (Z.of_nat index + 2)) ++ u ": "
                    ++ nth (index + 1) (stopNames p) [];
           styleColor := legColor |} in
      place_marker stopMarker ;;
      let destStop :=
        {| stop_name := nth (index + 1) (stopNames p) [];
           hotelName := at_index (pending_hotelNames p) (index + 1);
           address := end_address leg;
           accommodationCost := at_index (pending_accommodationCosts p) index;
           location := stopLocation;
           stop_marker := stopMarker;
           stop_color := legColor;
           date := at_index (pending_dates p) (index + 1) |} in
      let newItineraryData := push_stop destStop newItineraryData in
      let fuelCost := fuelCost_of (selectedTravelMode p) (mpg s) (value (distance leg)) in
      let legBounds := flat_map path (steps leg) in
      let newItineraryData :=
        push_leg {| distanceText := text (distance leg);
                    distanceValue := value (distance leg);
                    durationText := text (duration leg);
                    fuelCost := fuelCost;
                    rawLegData := leg;
                    leg_bounds := legBounds;
                    leg_color := legColor |} newItineraryData in
      process_legs p spectrumColors rest (S index) newItineraryData
  end.

Definition process_origin (p : Pending) (spectrumColors : list string)
  (first : RouteLeg) (newItineraryData : ItineraryData) : M ItineraryData :=
  let originLocation := start_location first in
  let originColor := nth_error spectrumColors 0 in
  let originMarker :=
    {| position := position_of originLocation;
       label := u "1: " ++ nth 0 (stopNames p) [];
       styleColor := originColor |} in
  place_marker originMarker ;;
  let originStop :=
    {| stop_name := nth 0 (stopNames p) [];
       hotelName := at_index (pending_hotelNames p) 0;
       address := start_address first;
       accommodationCost := None;
       location := originLocation;
       stop_marker := originMarker;
       stop_color := originColor;
       date := at_index (pending_dates p) 0 |} in
  ret (push_stop originStop newItineraryData).

(** The callback of [directionsService.route]: [response] holds the routes
    when the response has any; the result is the animation loop it starts. *)
Definition directions_callback (p : Pending) (response : option (list Route))
  (status : jsstring) : M (option Loop) :=
  s <- get ;;
  if negb (animationId p =? currentAnimationId s) then ret None
  else
    match (if jsstring_eqb status (u "OK") then response else None) with
    | Some (route :: _) =>
        let spectrumColors :=
          Spectrum._generateColorSpectrum (List.length (route_legs route)) in
        let newItineraryData :=
          {| stops := []; legs := [];
             totalDistance :=
               fold_left (fun sum leg => sum + value (distance leg)) (route_legs route) 0;
             totalTime :=
               Duration._formatTotalDuration
                 (fold_left (fun sum leg => sum + value (duration leg))
                    (route_legs route) 0);
             totalFuelCost := finite 0;
             totalAccommodationCost :=
               match pending_accommodationCosts p with
               | Some accommodationCosts =>
                   fold_left (fun sum cost => (sum + cost)%Q) accommodationCosts 0%Q
               | None => 0%Q
               end;
             totalTripDays := _calculateTripDays (pending_dates p);
             travelMode := selectedTravelMode p;
             bounds := route_bounds route |} in
        newItineraryData <-
          match route_legs route with
          | first :: _ =>
              if Marker3DElement (services s)
              then
                d <- process_origin p spectrumColors first newItineraryData ;;
                process_legs p spectrumColors (route_legs route) 0 d
              else ret newItineraryData
          | [] => ret newItineraryData
          end ;;
        modify (set_itineraryData (Some newItineraryData)) ;;
        _zoomToBounds (route_bounds route) ;;
        let fullPath :=
          flat_map (fun leg => flat_map path (steps leg)) (route_legs route) in
        let background :=
          {| coordinates := List.map position_of fullPath;
             strokeColor := Some "#B0B0B0"; strokeWidth := 10 |} in
        modify (set_backgroundRoutePolyline (Some background)) ;;
        emit (append_polyline background) ;;
        _updateRouteAnimation
    | _ =>
        emit (console (u "Directions request failed for stops: " ++ quote
                       ++ join (u ", ") (stopNames p) ++ quote
                       ++ u ". Status: " ++ status ++ u ".")) ;;
        addMessage "error" (u "Could not get directions. Reason: " ++ status) ;;
        ret None
    end.

(** The change of the MPG input: [value] is [parseFloat(...) || 0]. *)
Definition refuel (mpg : Q) (l : ItineraryLeg) : ItineraryLeg :=
  let distanceMiles := (inject_Z (distanceValue l) * METERS_TO_MILES)%Q in
  let newFuelCost :=
    if Qlt_le_dec 0 mpg
    then js_times (js_divide (finite distanceMiles) (finite mpg))
           (finite DEFAULT_GAS_PRICE_PER_GALLON)
    else finite 0 in
  {| distanceText := distanceText l; distanceValue := distanceValue l;
     durationText := durationText l; fuelCost := newFuelCost;
     rawLegData := rawLegData l; leg_bounds := leg_bounds l;
     leg_color := leg_color l |}.

Definition _recalculateFuelCosts : M unit :=
  s <- get ;;
  match itineraryData s with
  | Some d =>
      match travelMode d with
      | DRIVING =>
          let updatedLegs := List.map (refuel (mpg s)) (legs d) in
          let totalFuelCost :=
            fold_left (fun total l => js_plus total (fuelCost l)) updatedLegs (finite 0) in
          modify (set_itineraryData
                    (Some {| stops := stops d; legs := updatedLegs;
                             totalDistance := totalDistance d;
                             totalTime := totalTime d;
                             totalFuelCost := totalFuelCost;
                             totalAccommodationCost := totalAccommodationCost d;
                             totalTripDays := totalTripDays d;
                             travelMode := travelMode d; bounds := bounds d |}))
      | _ => ret tt
      end
  | None => ret tt
  end.

Definition mpg_input (value : Q) : M unit :=
  modify (set_mpg value) ;; _recalculateFuelCosts.

(** **** The totals of the itinerary *)

Lemma state_of_bind {A B : Type} (m : M A) (k : A -> M B) (s : State) :
  state_of (bind m k s) = state_of (k (result_of (m s)) (state_of (m s))).
Proof.
  unfold bind, state_of, result_of. destruct (m s) as [[a s1] e1]. simpl.
  now destruct (k a s1) as [[b s2] e2].
Qed.

Lemma result_of_bind {A B : Type} (m : M A) (k : A -> M B) (s : State) :
  result_of (bind m k s) = result_of (k (result_of (m s)) (state_of (m s))).
Proof.
  unfold bind, state_of, result_of. destruct (m s) as [[a s1] e1]. simpl.
  now destruct (k a s1) as [[b s2] e2].
Qed.





(** One turn of [process_legs]: the marker, then the rest with the stop and
    the leg pushed. *)
Definition marker_of (p : Pending) (colors : list string) (x : RouteLeg) (index : nat)
  : Marker :=
  {| position := position_of (end_location x);
     label := u (show (Z.of_nat index + 2)) ++ u ": " ++ nth (index + 1) (stopNames p) [];
     styleColor := nth_error colors index |}.

Definition stop_of (p : Pending) (colors : list string) (x : RouteLeg) (index : nat)
  : ItineraryStop :=
  {| stop_name := nth (index + 1) (stopNames p) [];
     hotelName := at_index (pending_hotelNames p) (index + 1);
     address := end_address x;
     accommodationCost := at_index (pending_accommodationCosts p) index;
     location := end_location x;
     stop_marker := marker_of p colors x index;
     stop_color := nth_error colors index;
     date := at_index (pending_dates p) (index + 1) |}.

Definition leg_of (p : Pending) (colors : list string) (mpg : Q) (x : RouteLeg)
  (index : nat) : ItineraryLeg :=
  {| distanceText := text (distance x);
     distanceValue := value (distance x);
     durationText := text (duration x);
     fuelCost := fuelCost_of (selectedTravelMode p) mpg (value (distance x));
     rawLegData := x;
     leg_bounds := flat_map path (steps x);
     leg_color := nth_error colors index |}.

Lemma process_legs_cons (p : Pending) (colors : list string) (x : RouteLeg)
  (l : list RouteLeg) (index : nat) (d : ItineraryData) (s : State) :
  let r := process_legs p colors (x :: l) index d s in
  let r' := process_legs p colors l (S index)
              (push_leg (leg_of p colors (mpg s) x index)
                 (push_stop (stop_of p colors x index) d))
              (set_stopMarkers (stopMarkers s ++ [marker_of p colors x index]) s) in
  result_of r = result_of r' /\ state_of r = state_of r' /\
  effects_of r = append_marker (marker_of p colors x index) :: effects_of r'.
Proof.
  cbv zeta. cbn [process_legs]. unfold place_marker. unfold bind, get, emit, modify.
  cbn beta iota.
  fold (marker_of p colors x index). fold (stop_of p colors x index).
  fold (leg_of p colors (mpg s) x index).
  destruct (process_legs p colors l (S index) _ _) as [[d' s'] e']. auto.
Qed.

(** The fuel costs and distances that [process_legs] appends. *)
Lemma process_legs_spec (p : Pending) (colors : list string) (l : list RouteLeg) :
  forall (index : nat) (d : ItineraryData) (s : State),
    let r := process_legs p colors l index d s in
    let cost := fun x => fuelCost_of (selectedTravelMode p) (mpg s) (value (distance x)) in
    List.map fuelCost (legs (result_of r)) = List.map fuelCost (legs d) ++ List.map cost l /\
    List.map distanceValue (legs (result_of r))
    = List.map distanceValue (legs d) ++ List.map (fun x => value (distance x)) l /\
    totalFuelCost (result_of r) = fold_left js_plus (List.map cost l) (totalFuelCost d) /\
    totalDistance (result_of r) = totalDistance d /\
    totalAccommodationCost (result_of r) = totalAccommodationCost d /\
    state_of r = set_stopMarkers (stopMarkers (state_of r)) s.
Proof.
  induction l as [|x l IH]; intros index d s; cbv zeta.
  - cbn. rewrite !app_nil_r. repeat split. now destruct s.
  - destruct (process_legs_cons p colors x l index d s) as (E1 & E2 & _).
    rewrite E1, E2.
    specialize (IH (S index)
                  (push_leg (leg_of p colors (mpg s) x index)
                     (push_stop (stop_of p colors x index) d))
                  (set_stopMarkers (stopMarkers s ++ [marker_of p colors x index]) s)).
    cbv zeta in IH. destruct IH as (I1 & I2 & I3 & I4 & I5 & I6).
    rewrite I1, I2, I3, I4, I5.
    cbn [push_leg push_stop legs totalFuelCost totalDistance totalAccommodationCost
         leg_of fuelCost distanceValue mpg set_stopMarkers List.map fold_left].
    rewrite !map_app. cbn [List.map fuelCost distanceValue].
    rewrite <- !app_assoc. repeat split.
    rewrite I6 at 1. reflexivity.
Qed.

Lemma fold_left_map {A B C : Type} (f : A -> C -> A) (g : B -> C) (l : list B) (a : A) :
  fold_left (fun acc x => f acc (g x)) l a = fold_left f (List.map g l) a.
Proof. revert a. induction l as [|x l IH]; intros a; simpl; auto. Qed.




(** *** The component among its events

    Between two handlers the component waits; the loops that wait for their
    timer are kept with the timer's id. *)
Record System : Type := {
  app : State;
  timers : list (nat * Loop);
  nextTimer : nat
}.

Inductive Event : Type :=
  | timer_fired (id : nat)
  | slider_input (value : Z)               (* _handleAnimationSpeedChange *)
  | stop_animation                         (* _stopAnimation *)
  | mpg_changed (value : Q)
  | map_query (params : MapParams)         (* handleMapQuery *)
  | geocoder_answer (locationQuery : jsstring) (answer : Located)
  | directions_answer (p : Pending) (response : option (list Route)) (status : jsstring)
  | tour_event (f : Tour.State -> Tour.State).   (* a handler of the map tour *)

Fixpoint lookup_timer (id : nat) (l : list (nat * Loop)) : option Loop :=
  match l with
  | [] => None
  | (i, x) :: rest => if (i =? id)%nat then Some x else lookup_timer id rest
  end.

Fixpoint drop_timer (id : nat) (l : list (nat * Loop)) : list (nat * Loop) :=
  match l with
  | [] => []
  | (i, x) :: rest => if (i =? id)%nat then rest else (i, x) :: drop_timer id rest
  end.

(** The state after a handler, with the loop it started waiting on a new
    timer. *)
Definition settle (sys : System) (r : option Loop * State * list Effect)
  : System * list Effect :=
  let '(started, s, effects) := r in
  match started with
  | Some l =>
      ({| app := s; timers := timers sys ++ [(nextTimer sys, l)];
          nextTimer := S (nextTimer sys) |}, effects)
  | None => ({| app := s; timers := timers sys; nextTimer := nextTimer sys |}, effects)
  end.

Definition quiet {A : Type} (m : M A) : M (option Loop) := m ;; ret None.

Definition step (e : Event) (sys : System) : System * list Effect :=
  match e with
  | timer_fired id =>
      match lookup_timer id (timers sys) with
      | Some l =>
          settle {| app := app sys; timers := drop_timer id (timers sys);
                    nextTimer := nextTimer sys |}
                 (resume l (app sys))
      | None => (sys, [])
      end
  | slider_input value => settle sys (_handleAnimationSpeedChange value (app sys))
  | stop_animation => settle sys (quiet _stopAnimation (app sys))
  | mpg_changed value => settle sys (quiet (mpg_input value) (app sys))
  | map_query params => settle sys (quiet (handleMapQuery params) (app sys))
  | geocoder_answer q answer =>
      settle sys (quiet (_handleViewLocation_resume q answer) (app sys))
  | directions_answer p response status =>
      settle sys (directions_callback p response status (app sys))
  | tour_event f =>
      settle sys (quiet (modify (fun s => set_sidebar (f (sidebar s)) s)) (app sys))
  end.

(** A run: the state after the events, and what each of them did. *)
Fixpoint exec (events : list Event) (sys : System)
  : System * list (Event * list Effect) :=
  match events with
  | [] => (sys, [])
  | e :: rest =>
      let '(sys1, effects) := step e sys in
      let '(sys2, trace) := exec rest sys1 in
      (sys2, (e, effects) :: trace)
  end.

(** **** A loop whose id is out of date *)

Lemma stale_spec (a : Z) (s : State) :
  stale a s = true <-> a <> currentAnimationId s \/ animationSpeed s = 100.
Proof.
  unfold stale. rewrite orb_true_iff, negb_true_iff, Z.eqb_neq, Z.eqb_eq. tauto.
Qed.

Lemma runAnimationLoop_stale (a : Z) (l : list ItineraryLeg) (d : Q) (s : State) :
  stale a s = true -> _runAnimationLoop a l d s = (None, s, []).
Proof. intros H. unfold _runAnimationLoop, bind, get. now rewrite H. Qed.

Lemma resume_stale (l : Loop) (s : State) :
  stale (loop_animationId l) s = true -> resume l s = (None, s, []).
Proof.
  intros H. unfold resume. destruct (remaining l) as [|x rest].
  - unfold bind, get.
    assert (C : (loop_animationId l =? currentAnimationId s) && (animationSpeed s <? 100)
                = false).
    { apply stale_spec in H. apply andb_false_iff.
      destruct H as [H|H]; [left; now apply Z.eqb_neq | right; apply Z.ltb_ge; lia]. }
    now rewrite C.
  - unfold iterate, bind, get. now rewrite H.
Qed.

(** **** The animation id never goes back *)

Definition id_grows (s s' : State) : Prop :=
  currentAnimationId s <= currentAnimationId s'.

Lemma id_grows_refl (s : State) : id_grows s s.
Proof. unfold id_grows. lia. Qed.

Lemma id_grows_trans (s1 s2 s3 : State) :
  id_grows s1 s2 -> id_grows s2 s3 -> id_grows s1 s3.
Proof. unfold id_grows. lia. Qed.

Ltac id_grows_steps :=
  pose proof id_grows_refl;
  pose proof id_grows_trans;
  respects_steps;
  try (apply respects_modify; intros; unfold id_grows; cbn; lia).

Lemma process_legs_id_grows (p : Pending) (colors : list string) (l : list RouteLeg)
  (index : nat) (d : ItineraryData) : respects id_grows (process_legs p colors l index d).
Proof.
  intros s. destruct (process_legs_spec p colors l index d s) as (_ & _ & _ & _ & _ & E).
  unfold id_grows. rewrite E. cbn. lia.
Qed.

Lemma resume_id_grows (l : Loop) : respects id_grows (resume l).
Proof. unfold resume. id_grows_steps. Qed.

Lemma updateRouteAnimation_id_grows : respects id_grows _updateRouteAnimation.
Proof. unfold _updateRouteAnimation. id_grows_steps. Qed.

Lemma handleAnimationSpeedChange_id_grows (v : Z) :
  respects id_grows (_handleAnimationSpeedChange v).
Proof. unfold _handleAnimationSpeedChange. id_grows_steps. Qed.

Lemma stopAnimation_id_grows : respects id_grows _stopAnimation.
Proof. unfold _stopAnimation. id_grows_steps. Qed.

Lemma mpg_input_id_grows (v : Q) : respects id_grows (mpg_input v).
Proof. unfold mpg_input, _recalculateFuelCosts. id_grows_steps. Qed.

Lemma clearMapElements_id_grows : respects id_grows _clearMapElements.
Proof. unfold _clearMapElements. id_grows_steps. Qed.

Lemma handleMapQuery_id_grows (params : MapParams) :
  respects id_grows (handleMapQuery params).
Proof.
  unfold handleMapQuery, _handleViewLocation, _handleDirections, addMessage.
  id_grows_steps.
Qed.

Lemma handleViewLocation_resume_id_grows (q : jsstring) (answer : Located) :
  respects id_grows (_handleViewLocation_resume q answer).
Proof. unfold _handleViewLocation_resume, addMessage. id_grows_steps. Qed.

Lemma directions_callback_id_grows (p : Pending) (response : option (list Route))
  (status : jsstring) : respects id_grows (directions_callback p response status).
Proof.
  unfold directions_callback, addMessage, _zoomToBounds, process_origin.
  id_grows_steps. apply process_legs_id_grows.
Qed.

(** **** A loop starts under the current id *)

Definition spawns_current (m : M (option Loop)) : Prop :=
  forall s l, result_of (m s) = Some l ->
              loop_animationId l = currentAnimationId (state_of (m s)).

Lemma spawns_current_none : spawns_current (ret None).
Proof. intros s l. discriminate. Qed.

Lemma spawns_current_bind {A : Type} (m : M A) (k : A -> M (option Loop)) :
  (forall a, spawns_current (k a)) -> spawns_current (bind m k).
Proof.
  intros H s l. rewrite result_of_bind, state_of_bind. apply H.
Qed.

Lemma iterate_spawns_current (l : Loop) (x : ItineraryLeg) (rest : list ItineraryLeg) :
  spawns_current (iterate l x rest).
Proof.
  intros s l'. unfold iterate. rewrite result_of_bind, state_of_bind.
  cbn [get result_of state_of fst snd].
  destruct (stale (loop_animationId l) s) eqn:St; [discriminate|].
  rewrite !result_of_bind, !state_of_bind.
  cbn [emit ret result_of state_of fst snd]. intros [= <-].
  cbn [loop_animationId]. rewrite (draw_polylines_only x s).
  cbn [currentAnimationId set_routePolylines].
  unfold stale in St. apply orb_false_iff in St. destruct St as [St _].
  apply negb_false_iff, Z.eqb_eq in St. exact St.
Qed.

Ltac spawns_steps :=
  repeat first
    [ apply spawns_current_none
    | apply iterate_spawns_current
    | apply spawns_current_bind; intros
    | progress cbv zeta
    | match goal with
      | |- spawns_current (match ?x with _ => _ end) => destruct x
      | |- spawns_current (if ?b then _ else _) => destruct b
      end ].

Lemma resume_spawns_current (l : Loop) : spawns_current (resume l).
Proof. unfold resume, _runAnimationLoop. spawns_steps. Qed.

Lemma updateRouteAnimation_spawns_current : spawns_current _updateRouteAnimation.
Proof. unfold _updateRouteAnimation, _startAnimation, _runAnimationLoop. spawns_steps. Qed.

Lemma handleAnimationSpeedChange_spawns_current (v : Z) :
  spawns_current (_handleAnimationSpeedChange v).
Proof.
  unfold _handleAnimationSpeedChange. apply spawns_current_bind. intros _.
  apply updateRouteAnimation_spawns_current.
Qed.

Lemma directions_callback_spawns_current (p : Pending) (response : option (list Route))
  (status : jsstring) : spawns_current (directions_callback p response status).
Proof.
  unfold directions_callback.
  repeat first
    [ apply updateRouteAnimation_spawns_current
    | apply spawns_current_none
    | apply spawns_current_bind; intros
    | progress cbv zeta
    | match goal with
      | |- spawns_current (match ?x with _ => _ end) => destruct x
      | |- spawns_current (if ?b then _ else _) => destruct b
      end ].
Qed.

Lemma quiet_spawns_current {A : Type} (m : M A) : spawns_current (quiet m).
Proof. unfold quiet. apply spawns_current_bind. intros _. apply spawns_current_none. Qed.

Lemma quiet_respects (R : State -> State -> Prop) {A : Type} (m : M A) :
  (forall s, R s s) -> (forall s1 s2 s3, R s1 s2 -> R s2 s3 -> R s1 s3) ->
  respects R m -> respects R (quiet m).
Proof.
  intros Rr Rt H. unfold quiet. apply respects_bind; [exact Rt | exact H | intros _].
  now apply respects_ret.
Qed.

(** **** Every waiting loop has an id that was current *)

Definition pending_ok (sys : System) : Prop :=
  forall id l, In (id, l) (timers sys) ->
               loop_animationId l <= currentAnimationId (app sys).

Lemma lookup_timer_In (id : nat) (l : list (nat * Loop)) (x : Loop) :
  lookup_timer id l = Some x -> In (id, x) l.
Proof.
  induction l as [|[i y] l IH]; simpl; [discriminate|].
  destruct (Nat.eqb_spec i id) as [->|_]; [intros [= ->]; auto | auto].
Qed.

Lemma drop_timer_In (id : nat) (l : list (nat * Loop)) (e : nat * Loop) :
  In e (drop_timer id l) -> In e l.
Proof.
  induction l as [|[i y] l IH]; simpl; [tauto|].
  destruct (i =? id)%nat; simpl; tauto.
Qed.

(** A handler run from [sys], its new loop put to wait beside loops that
    were waiting in [sys]. *)
Lemma settle_spec (sys sys0 : System) (m : M (option Loop)) :
  pending_ok sys ->
  (forall e, In e (timers sys0) -> In e (timers sys)) ->
  respects id_grows m -> spawns_current m ->
  pending_ok (fst (settle sys0 (m (app sys)))) /\
  currentAnimationId (app sys)
  <= currentAnimationId (app (fst (settle sys0 (m (app sys))))).
Proof.
  intros Hok Hsub Hgrow Hspawn.
  specialize (Hgrow (app sys)). specialize (Hspawn (app sys)).
  unfold id_grows in Hgrow. unfold settle.
  destruct (m (app sys)) as [[started s'] effects].
  cbn [state_of result_of fst snd] in *.
  destruct started as [l|]; cbn [fst app timers]; (split; [|exact Hgrow]).
  - intros id x Hin. cbn [app timers] in *.
    apply in_app_or in Hin. destruct Hin as [Hin|[[= _ <-]|[]]].
    + specialize (Hok id x (Hsub _ Hin)). lia.
    + rewrite (Hspawn l eq_refl). lia.
  - intros id x Hin. cbn [app timers] in *.
    specialize (Hok id x (Hsub _ Hin)). lia.
Qed.

Lemma step_spec (e : Event) (sys : System) :
  pending_ok sys ->
  pending_ok (fst (step e sys)) /\
  currentAnimationId (app sys) <= currentAnimationId (app (fst (step e sys))).
Proof.
  intros Hok.
  pose proof id_grows_refl as Rr. pose proof id_grows_trans as Rt.
  destruct e as [id | value | | value | params | q answer | p response status | f];
    cbn [step].
  - destruct (lookup_timer id (timers sys)) as [l|] eqn:E.
    + apply (settle_spec sys
               {| app := app sys; timers := drop_timer id (timers sys);
                  nextTimer := nextTimer sys |} (resume l) Hok).
      * intros e. apply drop_timer_In.
      * apply resume_id_grows.
      * apply resume_spawns_current.
    + split; [exact Hok | cbn; lia].
  - apply (settle_spec sys sys _ Hok);
      [ auto | apply handleAnimationSpeedChange_id_grows
      | apply handleAnimationSpeedChange_spawns_current ].
  - apply (settle_spec sys sys _ Hok);
      [ auto | apply quiet_respects; auto; apply stopAnimation_id_grows
      | apply quiet_spawns_current ].
  - apply (settle_spec sys sys _ Hok);
      [ auto | apply quiet_respects; auto; apply mpg_input_id_grows
      | apply quiet_spawns_current ].
  - apply (settle_spec sys sys _ Hok);
      [ auto | apply quiet_respects; auto; apply handleMapQuery_id_grows
      | apply quiet_spawns_current ].
  - apply (settle_spec sys sys _ Hok);
      [ auto | apply quiet_respects; auto; apply handleViewLocation_resume_id_grows
      | apply quiet_spawns_current ].
  - apply (settle_spec sys sys _ Hok);
      [ auto | apply directions_callback_id_grows
      | apply directions_callback_spawns_current ].
  - apply (settle_spec sys sys _ Hok);
      [ auto | apply quiet_respects; auto | apply quiet_spawns_current ].
Qed.

Lemma exec_spec (events : list Event) (sys : System) :
  pending_ok sys ->
  pending_ok (fst (exec events sys)) /\
  currentAnimationId (app sys) <= currentAnimationId (app (fst (exec events sys))).
Proof.
  revert sys. induction events as [|e rest IH]; intros sys Hok.
  - split; [exact Hok | cbn; lia].
  - cbn [exec]. destruct (step_spec e sys Hok) as [Hok1 Hle1].
    destruct (step e sys) as [sys1 effects]. cbn [fst] in *.
    destruct (IH sys1 Hok1) as [Hok2 Hle2].
    destruct (exec rest sys1) as [sys2 trace]. cbn [fst] in *.
    split; [exact Hok2 | lia].
Qed.

(** Firing the timer of a stale loop: the loop is gone, and nothing else
    has happened. *)
Lemma stale_timer_is_silent (id : nat) (l : Loop) (sys : System) :
  lookup_timer id (timers sys) = Some l ->
  stale (loop_animationId l) (app sys) = true ->
  step (timer_fired id) sys
  = ({| app := app sys; timers := drop_timer id (timers sys);
        nextTimer := nextTimer sys |}, []).
Proof.
  intros Hl Hs. cbn [step]. rewrite Hl, (resume_stale l _ Hs). reflexivity.
Qed.

Lemma increments (s : State) :
  currentAnimationId (state_of (_clearMapElements s)) = currentAnimationId s + 1 /\
  currentAnimationId (state_of (_stopAnimation s)) = currentAnimationId s + 1 /\
  (itineraryData s <> None ->
   currentAnimationId (state_of (_updateRouteAnimation s)) = currentAnimationId s + 1).
Proof.
  split; [|split].
  - unfold _clearMapElements. rewrite state_of_bind.
    cbn [modify result_of state_of fst snd].
    set (s1 := set_currentAnimationId (currentAnimationId s + 1) s).
    assert (K : forall (m : M unit),
               respects (fun a b => currentAnimationId b = currentAnimationId a) m ->
               currentAnimationId (state_of (m s1)) = currentAnimationId s + 1).
    { intros m Hm. rewrite (Hm s1). reflexivity. }
    match goal with |- currentAnimationId (state_of (?m s1)) = _ => apply (K m) end.
    assert (Rr : forall a : State, currentAnimationId a = currentAnimationId a)
      by reflexivity.
    assert (Rt : forall a b c : State,
               currentAnimationId b = currentAnimationId a ->
               currentAnimationId c = currentAnimationId b ->
               currentAnimationId c = currentAnimationId a) by (intros; congruence).
    respects_steps; apply respects_modify; intros; reflexivity.
  - unfold _stopAnimation. rewrite state_of_bind.
    rewrite (drawStaticRoute_polylines_only _). reflexivity.
  - intros Hd. unfold _updateRouteAnimation. rewrite state_of_bind.
    cbn [get result_of state_of fst snd].
    destruct (itineraryData s) as [d|]; [|contradiction].
    rewrite !state_of_bind. cbn [modify get result_of state_of fst snd].
    set (s1 := set_currentAnimationId (currentAnimationId s + 1) s).
    destruct (animationSpeed s1 =? 100).
    + rewrite state_of_bind. cbn [ret state_of fst snd].
      rewrite (drawStaticRoute_polylines_only _). reflexivity.
    + rewrite (startAnimation_polylines_only _). reflexivity.
Qed.

(** C10.  [_clearMapElements], [_stopAnimation] and [_updateRouteAnimation]
    (with an itinerary) increment [currentAnimationId], and no handler
    decrements it.  A call of [_runAnimationLoop], and every resumption of
    its per-leg loop, first compares its own id with [currentAnimationId]
    and returns without drawing or rescheduling when they differ or the
    speed is 100.  So from any state in which the waiting loops carry ids
    that were once current, after any sequence of events, the timer of a
    loop with an id below the current one fires without any effect: the
    loop draws no polyline, changes nothing and waits no more. *)
Theorem stale_loops_never_draw (sys : System) (events : list Event) :
  pending_ok sys ->
  (forall s,
     currentAnimationId (state_of (_clearMapElements s)) = currentAnimationId s + 1 /\
     currentAnimationId (state_of (_stopAnimation s)) = currentAnimationId s + 1 /\
     (itineraryData s <> None ->
      currentAnimationId (state_of (_updateRouteAnimation s))
      = currentAnimationId s + 1)) /\
  (forall l s,
     loop_animationId l <> currentAnimationId s \/ animationSpeed s = 100 ->
     resume l s = (None, s, []) /\
     _runAnimationLoop (loop_animationId l) (legsData l) (delayPerLeg l) s
     = (None, s, [])) /\
  currentAnimationId (app sys) <= currentAnimationId (app (fst (exec events sys))) /\
  (forall id l,
     lookup_timer id (timers (fst (exec events sys))) = Some l ->
     loop_animationId l <= currentAnimationId (app (fst (exec events sys))) /\
     (loop_animationId l < currentAnimationId (app (fst (exec events sys))) \/
      animationSpeed (app (fst (exec events sys))) = 100 ->
      step (timer_fired id) (fst (exec events sys))
      = ({| app := app (fst (exec events sys));
            timers := drop_timer id (timers (fst (exec events sys)));
            nextTimer := nextTimer (fst (exec events sys)) |}, []))).
Proof.
  intros Hok. split; [exact increments|]. split; [|split].
  - intros l s H. apply stale_spec in H. split.
    + now apply resume_stale.
    + now apply runAnimationLoop_stale.
  - apply exec_spec, Hok.
  - intros id l Hl. destruct (exec_spec events sys Hok) as [Hok' _].
    split; [apply (Hok' id l), lookup_timer_In, Hl|].
    intros H. apply stale_timer_is_silent with (l := l); [exact Hl|].
    apply stale_spec. destruct H as [H|H]; [left; lia | right; exact H].
Qed.

(** **** The cadence of the animation *)

(** The polyline that [_drawLegPolyline] makes for a leg. *)
Definition polyline_for (x : ItineraryLeg) : Polyline :=
  {| coordinates :=
       flat_map (fun step =>
                   List.map (fun p => {| center_lat := lat p; center_lng := lng p;
                                         altitude := Some 5%Q |}) (path step))
                (steps (rawLegData x));
     strokeColor := leg_color x; strokeWidth := 10 |}.

(** The delay after each leg, for [n] legs at speed [v], as the
    specification gives it. *)
Definition delay_for (n : nat) (v : Z) : Q :=
  ((2000 * inject_Z (Z.of_nat n)
    - (inject_Z v / 99) * (2000 * inject_Z (Z.of_nat n) - 1000))
   / inject_Z (Z.of_nat n))%Q.

(** [k] timers of a loop fire in a row, with no other event in between. *)
Fixpoint turns (k : nat) (l : Loop) : M (option Loop) :=
  match k with
  | O => ret (Some l)
  | S k =>
      next <- resume l ;;
      match next with
      | Some l' => turns k l'
      | None => ret None
      end
  end.

Definition waiting (l : Loop) (rest : list ItineraryLeg) : Loop :=
  {| loop_animationId := loop_animationId l; legsData := legsData l;
     delayPerLeg := delayPerLeg l; remaining := rest |}.

Definition drawable (a : Z) (s : State) : Prop :=
  stale a s = false /\ Polyline3DElement (services s) = true.

Lemma draw_spec (x : ItineraryLeg) (s : State) :
  Polyline3DElement (services s) = true ->
  draw x s = (tt, set_routePolylines (routePolylines s ++ [polyline_for x]) s,
              [append_polyline (polyline_for x)]).
Proof.
  intros H. unfold draw, _drawLegPolyline, bind, get, emit, modify, ret.
  rewrite H. reflexivity.
Qed.

Lemma iterate_spec (l : Loop) (x : ItineraryLeg) (rest : list ItineraryLeg) (s : State) :
  drawable (loop_animationId l) s ->
  iterate l x rest s
  = (Some (waiting l rest),
     set_routePolylines (routePolylines s ++ [polyline_for x]) s,
     [append_polyline (polyline_for x); set_timeout (delayPerLeg l)]).
Proof.
  intros [Hs Hp]. unfold iterate, bind, get. rewrite Hs.
  rewrite (draw_spec x s Hp). reflexivity.
Qed.

Lemma drawable_after_draw (a : Z) (l : list Polyline) (s : State) :
  drawable a s -> drawable a (set_routePolylines l s).
Proof. intros H. exact H. Qed.

(** The legs that remain are drawn in their order, each followed by the
    same delay. *)
Lemma turns_spec (rest : list ItineraryLeg) :
  forall (l : Loop) (s : State),
    remaining l = rest ->
    drawable (loop_animationId l) s ->
    result_of (turns (List.length rest) l s) = Some (waiting l []) /\
    effects_of (turns (List.length rest) l s)
    = flat_map (fun x => [append_polyline (polyline_for x); set_timeout (delayPerLeg l)])
        rest.
Proof.
  induction rest as [|x rest IH]; intros l s Hr Hd.
  - cbn. destruct l as [a ls d r]. cbn in Hr. subst r. split; reflexivity.
  - cbn [List.length turns]. unfold bind, resume. rewrite Hr.
    rewrite (iterate_spec l x rest s Hd).
    destruct (IH (waiting l rest)
                (set_routePolylines (routePolylines s ++ [polyline_for x]) s)
                eq_refl (drawable_after_draw _ _ _ Hd)) as [I1 I2].
    destruct (turns (List.length rest) (waiting l rest) _) as [[r s'] e].
    cbn [result_of effects_of fst snd] in *. subst r e. split; reflexivity.
Qed.

Lemma forEach_emit {A : Type} (f : A -> Effect) (l : list A) (s : State) :
  forEach l (fun x => emit (f x)) s = (tt, s, List.map f l).
Proof.
  induction l as [|x l IH]; [reflexivity|].
  cbn [forEach]. unfold bind. cbn [emit]. rewrite IH. reflexivity.
Qed.

Lemma remove_routePolylines_spec (s : State) :
  remove_routePolylines s
  = (tt, set_routePolylines [] s, List.map remove_polyline (routePolylines s)).
Proof.
  unfold remove_routePolylines, bind, get. rewrite forEach_emit.
  cbn [modify]. now rewrite !app_nil_r.
Qed.

Lemma forEach_draw (l : list ItineraryLeg) (s : State) :
  Polyline3DElement (services s) = true ->
  forEach l draw s
  = (tt, set_routePolylines (routePolylines s ++ List.map polyline_for l) s,
     List.map (fun x => append_polyline (polyline_for x)) l).
Proof.
  revert s. induction l as [|x l IH]; intros s H.
  - cbn. rewrite app_nil_r. now destruct s.
  - cbn [forEach]. unfold bind. rewrite (draw_spec x s H). cbn beta iota.
    rewrite (IH (set_routePolylines (routePolylines s ++ [polyline_for x]) s) H). cbn [routePolylines set_routePolylines List.map app].
    rewrite <- app_assoc. reflexivity.
Qed.

Lemma drawStaticRoute_spec (data : ItineraryData) (s : State) :
  itineraryData s = Some data -> Polyline3DElement (services s) = true ->
  _drawStaticRoute s
  = (tt, set_routePolylines (List.map polyline_for (legs data)) s,
     List.map remove_polyline (routePolylines s)
     ++ List.map (fun x => append_polyline (polyline_for x)) (legs data)).
Proof.
  intros Hd Hp. unfold _drawStaticRoute, bind, get. rewrite Hd.
  rewrite remove_routePolylines_spec.
  rewrite (forEach_draw (legs data) (set_routePolylines [] s) Hp).
  reflexivity.
Qed.

Lemma runAnimationLoop_spec (a : Z) (first : ItineraryLeg) (rest : list ItineraryLeg)
  (d : Q) (s : State) :
  drawable a s ->
  _runAnimationLoop a (first :: rest) d s
  = (Some {| loop_animationId := a; legsData := first :: rest; delayPerLeg := d;
             remaining := rest |},
     set_routePolylines [polyline_for first] s,
     List.map remove_polyline (routePolylines s)
     ++ [append_polyline (polyline_for first); set_timeout d]).
Proof.
  intros Hd. unfold _runAnimationLoop. unfold bind at 1. cbn [get].
  rewrite (proj1 Hd). unfold bind. rewrite remove_routePolylines_spec.
  rewrite iterate_spec by exact Hd. reflexivity.
Qed.

Lemma startAnimation_spec (s : State) (data : ItineraryData) (first : ItineraryLeg)
  (rest : list ItineraryLeg) :
  itineraryData s = Some data -> legs data = first :: rest ->
  Polyline3DElement (services s) = true -> animationSpeed s < 100 ->
  _startAnimation s
  = (Some {| loop_animationId := currentAnimationId s; legsData := legs data;
             delayPerLeg := delay_for (List.length (legs data)) (animationSpeed s);
             remaining := rest |},
     set_routePolylines [polyline_for first] s,
     List.map remove_polyline (routePolylines s)
     ++ [append_polyline (polyline_for first);
         set_timeout (delay_for (List.length (legs data)) (animationSpeed s))]).
Proof.
  intros Hd Hl Hp Hv. unfold _startAnimation. unfold bind at 1. cbn [get].
  rewrite Hd.
  assert (Hn : (List.length (legs data) =? 0)%nat = false) by now rewrite Hl.
  assert (Hn' : (0 <? List.length (legs data))%nat = true) by now rewrite Hl.
  rewrite Hn. cbv zeta. rewrite Hn'.
  destruct (Z.leb_spec 100 (animationSpeed s)) as [C|_]; [lia|].
  fold (delay_for (List.length (legs data)) (animationSpeed s)).
  assert (D : drawable (currentAnimationId s) s).
  { split; [|exact Hp]. unfold stale. rewrite Z.eqb_refl. cbn.
    destruct (Z.eqb_spec (animationSpeed s) 100); [lia | reflexivity]. }
  rewrite Hl at 1. rewrite (runAnimationLoop_spec _ first rest _ s D).
  cbn [app]. rewrite Hl. reflexivity.
Qed.

(** What moving the slider to a speed below 100 starts. *)
Lemma handleAnimationSpeedChange_starts (v : Z) (st : State) (data : ItineraryData)
  (first : ItineraryLeg) (rest : list ItineraryLeg) :
  itineraryData st = Some data -> legs data = first :: rest ->
  Polyline3DElement (services st) = true -> v < 100 ->
  _handleAnimationSpeedChange v st
  = (Some {| loop_animationId := currentAnimationId st + 1; legsData := legs data;
             delayPerLeg := delay_for (List.length (legs data)) v; remaining := rest |},
     set_routePolylines [polyline_for first]
       (set_currentAnimationId (currentAnimationId st + 1) (set_animationSpeed v st)),
     List.map remove_polyline (routePolylines st)
     ++ [append_polyline (polyline_for first);
         set_timeout (delay_for (List.length (legs data)) v)]).
Proof.
  intros Hd Hl Hp Hv.
  unfold _handleAnimationSpeedChange, _updateRouteAnimation.
  unfold bind at 1. cbn [modify]. unfold bind at 1. cbn [get].
  cbn [itineraryData set_animationSpeed]. rewrite Hd.
  unfold bind at 1. cbn [modify]. unfold bind at 1. cbn [get].
  cbn [animationSpeed set_currentAnimationId set_animationSpeed].
  destruct (Z.eqb_spec v 100) as [C|_]; [lia|].
  rewrite (startAnimation_spec _ data first rest) by (cbn; auto).
  reflexivity.
Qed.

(** What moving the slider to 100 does. *)
Lemma handleAnimationSpeedChange_static (st : State) (data : ItineraryData) :
  itineraryData st = Some data -> Polyline3DElement (services st) = true ->
  _handleAnimationSpeedChange 100 st
  = (None,
     set_routePolylines (List.map polyline_for (legs data))
       (set_currentAnimationId (currentAnimationId st + 1) (set_animationSpeed 100 st)),
     List.map remove_polyline (routePolylines st)
     ++ List.map (fun x => append_polyline (polyline_for x)) (legs data)).
Proof.
  intros Hd Hp.
  unfold _handleAnimationSpeedChange, _updateRouteAnimation.
  unfold bind at 1. cbn [modify]. unfold bind at 1. cbn [get].
  cbn [itineraryData set_animationSpeed]. rewrite Hd.
  unfold bind at 1. cbn [modify]. unfold bind at 1. cbn [get].
  cbn [animationSpeed set_currentAnimationId set_animationSpeed Z.eqb Pos.eqb].
  unfold bind. rewrite (drawStaticRoute_spec data) by (cbn; auto).
  cbn [ret app routePolylines set_currentAnimationId set_animationSpeed].
  now rewrite !app_nil_r.
Qed.

(** The duration of a cycle: [n] delays. *)
Definition cycle (n : nat) (v : Z) : Q := (inject_Z (Z.of_nat n) * delay_for n v)%Q.

Lemma legCount_pos (n : nat) : (1 <= n)%nat -> (1 <= inject_Z (Z.of_nat n))%Q.
Proof.
  intros H. change 1%Q with (inject_Z 1). rewrite <- Zle_Qle. lia.
Qed.

Lemma cycle_linear (n : nat) (v : Z) :
  (1 <= n)%nat ->
  (cycle n v == 2000 * inject_Z (Z.of_nat n)
                - (inject_Z v / 99) * (2000 * inject_Z (Z.of_nat n) - 1000))%Q.
Proof.
  intros H. pose proof (legCount_pos n H) as P. unfold cycle, delay_for.
  field. intros C. rewrite C in P. lra.
Qed.

Lemma cycle_decreasing (n : nat) (v1 v2 : Z) :
  (1 <= n)%nat -> v1 < v2 -> (cycle n v2 < cycle n v1)%Q.
Proof.
  intros H Hv. pose proof (legCount_pos n H) as P.
  rewrite !cycle_linear by exact H.
  assert (Q1 : (inject_Z v1 < inject_Z v2)%Q) by (rewrite <- Zlt_Qlt; exact Hv).
  set (a := inject_Z (Z.of_nat n)) in *. set (x1 := inject_Z v1) in *.
  set (x2 := inject_Z v2) in *.
  assert (B : (0 < (x2 - x1) * (2000 * a - 1000))%Q)
    by (apply Qmult_lt_0_compat; lra).
  assert (E : (x2 / 99 * (2000 * a - 1000) - x1 / 99 * (2000 * a - 1000)
               == (x2 - x1) * (2000 * a - 1000) / 99)%Q) by (field).
  assert (B' : (0 < (x2 - x1) * (2000 * a - 1000) / 99)%Q).
  { unfold Qdiv. apply Qmult_lt_0_compat; [exact B | reflexivity]. }
  lra.
Qed.

(** C4.  With an itinerary of [n >= 1] legs on display, moving the speed
    slider to a value [v] below 100 (the slider's values from 0 to 99) starts
    a loop under a new animation id that draws the legs in their order, each
    followed by the same delay [(2000 n - (v / 99) (2000 n - 1000)) / n]
    milliseconds: the first leg at once, the others as the timers fire.  The
    duration of a cycle, [n] delays, is linear in [v]: 2000 ms per leg at
    [v = 0], 1000 ms in all at [v = 99], and strictly decreasing in [v].
    At [v = 100] no loop is started and the route is drawn statically, all
    legs at once. *)
Theorem animation_cadence (st : State) (data : ItineraryData) (first : ItineraryLeg)
  (rest : list ItineraryLeg) :
  itineraryData st = Some data ->
  legs data = first :: rest ->
  Polyline3DElement (services st) = true ->
  let n := List.length (legs data) in
  (forall v, 0 <= v <= 99 ->
     exists l,
       result_of (_handleAnimationSpeedChange v st) = Some l /\
       loop_animationId l = currentAnimationId st + 1 /\
       delayPerLeg l = delay_for n v /\
       effects_of (_handleAnimationSpeedChange v st)
       = List.map remove_polyline (routePolylines st)
         ++ [append_polyline (polyline_for first); set_timeout (delay_for n v)] /\
       effects_of (turns (List.length rest) l
                     (state_of (_handleAnimationSpeedChange v st)))
       = flat_map (fun x => [append_polyline (polyline_for x);
                             set_timeout (delay_for n v)]) rest /\
       (cycle n v == 2000 * inject_Z (Z.of_nat n)
                     - (inject_Z v / 99) * (2000 * inject_Z (Z.of_nat n) - 1000))%Q) /\
  (cycle n 0 == 2000 * inject_Z (Z.of_nat n))%Q /\
  (cycle n 99 == 1000)%Q /\
  (forall v1 v2, v1 < v2 -> (cycle n v2 < cycle n v1)%Q) /\
  result_of (_handleAnimationSpeedChange 100 st) = None /\
  effects_of (_handleAnimationSpeedChange 100 st)
  = List.map remove_polyline (routePolylines st)
    ++ List.map (fun x => append_polyline (polyline_for x)) (legs data).
Proof.
  intros Hd Hl Hp n.
  assert (Hn : (1 <= n)%nat) by (unfold n; rewrite Hl; simpl; lia).
  split; [|split; [|split; [|split; [|split]]]].
  - intros v Hv.
    rewrite (handleAnimationSpeedChange_starts v st data first rest Hd Hl Hp)
      by lia.
    eexists. split; [reflexivity|]. cbn [result_of effects_of state_of fst snd
      loop_animationId delayPerLeg].
    repeat (split; [reflexivity|]). split.
    + match goal with
      | |- context [turns _ ?l ?s] =>
          destruct (turns_spec rest l s eq_refl) as [_ T]
      end.
      * split; [|exact Hp]. unfold stale. cbn. rewrite Z.eqb_refl. cbn.
        destruct (Z.eqb_spec v 100); [lia | reflexivity].
      * exact T.
    + now apply cycle_linear.
  - rewrite cycle_linear by exact Hn. change (inject_Z 0) with 0%Q. field.
  - rewrite cycle_linear by exact Hn. change (inject_Z 99) with 99%Q. field.
  - intros v1 v2. now apply cycle_decreasing.
  - now rewrite (handleAnimationSpeedChange_static st data Hd Hp).
  - now rewrite (handleAnimationSpeedChange_static st data Hd Hp).
Qed.

End Host.

(** *** A component with a three-stop trip, for the examples *)

Definition no_geometry : Sdk :=
  {| getCenter := fun _ => {| lat := 0; lng := 0 |};
     getNorthEast := fun _ => {| lat := 0; lng := 0 |};
     getSouthWest := fun _ => {| lat := 0; lng := 0 |};
     spherical := None |}.

Definition no_clock : jsstring -> option Z := fun _ => None.

(** The component once the map and its services are loaded. *)
Definition loaded : State :=
  {| ui := {| chatState := IDLE; isRunning := true; inputMessage := [];
              tooltipInfo := None; isChatSidebarCollapsed := false;
              isItinerarySidebarCollapsed := false;
              isItinerarySummaryCollapsed := false |};
     messages := [];
     mapInitialized := true;
     mapError := [];
     services := {| mapElement := true; geocoder := true; Marker3DElement := true;
                    Polyline3DElement := true; directionsService := true |};
     marker := None;
     routePolylines := [];
     stopMarkers := [];
     backgroundRoutePolyline := None;
     currentAnimationId := 0;
     itineraryData := None;
     mpg := 20;
     animationSpeed := 75;
     sidebar := Tour.initial |}.

Definition place (a b : Z) : LatLng := {| lat := inject_Z a; lng := inject_Z b |}.

Definition leg_between (a b : LatLng) (meters seconds : Z) : RouteLeg :=
  {| distance := {| text := u "far"; value := meters |};
     duration := {| text := u "long"; value := seconds |};
     start_location := a; end_location := b;
     start_address := u "from"; end_address := u "to";
     steps := [{| path := [a; b] |}] |}.

Definition trip : Route :=
  {| route_legs := [leg_between (place 0 0) (place 1 1) 100000 3600;
                    leg_between (place 1 1) (place 2 2) 200000 7200];
     route_bounds := [place 0 0; place 2 2] |}.

Definition trip_params : MapParams :=
  {| param_location := None;
     param_stops := Some [u "Home;;;1 Main St"; u "Boise"; u "Reno"];
     param_legColors := None;
     param_accommodationCosts := Some [165%Q; 150%Q];
     param_dates := None;
     param_travelMode := None;
     param_hotelNames := None |}.

(** The query is made, and its request is still unanswered. *)
Definition asked : State := state_of (handleMapQuery trip_params loaded).

Definition trip_pending : Pending :=
  {| animationId := 1;
     stopNames := [u "Home"; u "Boise"; u "Reno"];
     pending_accommodationCosts := Some [165%Q; 150%Q];
     pending_dates := None;
     selectedTravelMode := DRIVING;
     pending_hotelNames := None |}.

Example handleMapQuery_asks_for_directions :
  result_of (handleMapQuery trip_params loaded) = for_directions trip_pending /\
  effects_of (handleMapQuery trip_params loaded)
  = [request_route {| origin := Some (u "1 Main St"); destination := Some (u "Reno");
                      waypoints := [u "Boise"]; request_travelMode := DRIVING |}] /\
  currentAnimationId asked = 1.
Proof. repeat split; vm_compute; reflexivity. Qed.

(** The directions service has answered with [trip]. *)
Definition shown : State :=
  state_of (directions_callback no_geometry no_clock trip_pending (Some [trip]) (u "OK")
              asked).

Lemma handleMapQuery_noop_witness :
  handleMapQuery
    {| param_location := None; param_stops := Some [u "Boise"];
       param_legColors := None; param_accommodationCosts := None;
       param_dates := None; param_travelMode := None; param_hotelNames := None |}
    shown
  = (for_nothing, shown, []).
Proof.
  apply handleMapQuery_noop; [reflexivity|].
  right. exists [u "Boise"]. split; [reflexivity | simpl; lia].
Defined.


(** The itinerary of [shown], written out. *)
Definition shown_first : ItineraryLeg :=
  leg_of trip_pending ["rgb(0, 0, 255)"; "rgb(255, 0, 0)"] 20
    (leg_between (place 0 0) (place 1 1) 100000 3600) 0.

Definition shown_second : ItineraryLeg :=
  leg_of trip_pending ["rgb(0, 0, 255)"; "rgb(255, 0, 0)"] 20
    (leg_between (place 1 1) (place 2 2) 200000 7200) 1.

Lemma animation_cadence_witness :
  exists l,
    result_of (_handleAnimationSpeedChange 0 shown) = Some l /\
    delayPerLeg l = delay_for 2 0 /\
    (delay_for 2 0 == 2000)%Q /\
    (cycle 2 99 == 1000)%Q /\
    result_of (_handleAnimationSpeedChange 100 shown) = None.
Proof.
  destruct (itineraryData shown) as [data|] eqn:E; [|discriminate].
  assert (L : legs data = [shown_first; shown_second])
    by (vm_compute in E; injection E as <-; reflexivity).
  destruct (animation_cadence shown data shown_first [shown_second] E L eq_refl)
    as (Hloop & _ & Hfast & _ & Hstatic & _).
  destruct (Hloop 0 ltac:(lia)) as (l & Hl & _ & Hdelay & _).
  rewrite L in Hdelay, Hfast. cbn [List.length] in Hdelay, Hfast.
  exists l. split; [exact Hl|]. split; [exact Hdelay|]. split; [reflexivity|].
  split; [exact Hfast | exact Hstatic].
Defined.

(** The trip is asked for and shown, the slider is moved to 50 while the
    first loop waits, the timers fire, and the slider is moved to 100. *)
Definition idle : System := {| app := loaded; timers := []; nextTimer := 0 |}.

Definition session : list Event :=
  [map_query trip_params;
   directions_answer trip_pending (Some [trip]) (u "OK");
   slider_input 50;
   timer_fired 0;
   timer_fired 1;
   timer_fired 2;
   slider_input 100;
   timer_fired 3].

Lemma idle_pending_ok : pending_ok idle.
Proof. intros id l []. Qed.

(** The timers 0 and 3 belong to loops that were superseded: they fire with
    no effect, while the loop of timer 1 draws the second leg. *)
Example session_trace :
  List.map (fun entry => List.length (snd entry))
    (snd (exec no_geometry no_clock session idle))
  = [1; 7; 3; 0; 2; 4; 3; 0]%nat /\
  nth 4 (List.map snd (snd (exec no_geometry no_clock session idle))) []
  = [append_polyline (polyline_for shown_second); set_timeout (delay_for 2 50)].
Proof. split; vm_compute; reflexivity. Qed.

Lemma stale_loops_never_draw_witness :
  currentAnimationId (app idle)
  <= currentAnimationId (app (fst (exec no_geometry no_clock (firstn 3 session) idle))) /\
  step no_geometry no_clock (timer_fired 0)
    (fst (exec no_geometry no_clock (firstn 3 session) idle))
  = ({| app := app (fst (exec no_geometry no_clock (firstn 3 session) idle));
        timers := drop_timer 0
                    (timers (fst (exec no_geometry no_clock (firstn 3 session) idle)));
        nextTimer := nextTimer (fst (exec no_geometry no_clock (firstn 3 session) idle)) |},
     []).
Proof.
  destruct (stale_loops_never_draw no_geometry no_clock idle (firstn 3 session)
              idle_pending_ok) as (_ & _ & Hle & Hsilent).
  split; [exact Hle|].
  destruct (lookup_timer 0
              (timers (fst (exec no_geometry no_clock (firstn 3 session) idle))))
    as [l|] eqn:E; [|vm_compute in E; discriminate].
  apply (proj2 (Hsilent 0%nat l E)).
  left. vm_compute in E. injection E as <-. vm_compute. reflexivity.
Defined.

End App.

From Stdlib Require Import Sorted.
From Stdlib Require DecimalPos.

(* ================================================================= *)
(** ** [camelCaseToDash] of [chat_utils.ts] *)

Module ChatUtils.
Import JS.
Open Scope string_scope.

(** The classes [[a-z]] and [[A-Z]] of the two patterns. *)
Definition is_lower (c : ascii) : bool :=
  ((97 <=? nat_of_ascii c) && (nat_of_ascii c <=? 122))%nat.

Definition is_upper (c : ascii) : bool :=
  ((65 <=? nat_of_ascii c) && (nat_of_ascii c <=? 90))%nat.

(** [s.replace(/([a-z])([A-Z])/g, '$1-$2')]: after a match the search goes on
    behind the two characters. *)
Fixpoint dash_lower_upper (s : string) : string :=
  match s with
  | EmptyString => EmptyString
  | String x tl =>
      match tl with
      | String y rest =>
          if is_lower x && is_upper y
          then String x (String "-" (String y (dash_lower_upper rest)))
          else String x (dash_lower_upper tl)
      | EmptyString => s
      end
  end.

(** [s.replace(/([A-Z])([A-Z][a-z])/g, '$1-$2')]: a match takes three
    characters. *)
Fixpoint dash_upper_word (s : string) : string :=
  match s with
  | EmptyString => EmptyString
  | String x tl =>
      match tl with
      | String y (String z rest) =>
          if is_upper x && is_upper y && is_lower z
          then String x (String "-" (String y (String z (dash_upper_word rest))))
          else String x (dash_upper_word tl)
      | _ => s
      end
  end.

(** [toLowerCase] on ASCII text: the letters A to Z move to a to z. *)
Definition lower (c : ascii) : ascii :=
  if is_upper c then ascii_of_nat (nat_of_ascii c + 32) else c.

Fixpoint toLowerCase (s : string) : string :=
  match s with
  | EmptyString => EmptyString
  | String c s' => String (lower c) (toLowerCase s')
  end.

Definition camelCaseToDash (str : string) : string :=
  toLowerCase (dash_upper_word (dash_lower_upper str)).

Example camelCaseToDash_tool_name :
  camelCaseToDash "viewLocationGoogleMaps" = "view-location-google-maps".
Proof. reflexivity. Qed.

Example camelCaseToDash_acronym :
  camelCaseToDash "parseHTMLFile" = "parse-html-file".
Proof. reflexivity. Qed.

(** Text of the ASCII range, and text without a capital letter. *)
Fixpoint all_chars (p : ascii -> bool) (s : string) : bool :=
  match s with
  | EmptyString => true
  | String c s' => p c && all_chars p s'
  end.

Definition is_ascii (c : ascii) : bool := (nat_of_ascii c <? 128)%nat.

Definition no_capital (c : ascii) : bool := negb (is_upper c).

(** A word written in small letters, and the same word with a capital. *)
Definition upper (c : ascii) : ascii :=
  if is_lower c then ascii_of_nat (nat_of_ascii c - 32) else c.

Definition capitalize (w : string) : string :=
  match w with
  | EmptyString => EmptyString
  | String c w' => String (upper c) w'
  end.

(** [first] followed by the capitalized [rest]: a camel-case identifier. *)
Definition camel (first : string) (rest : list string) : string :=
  first ++ String.concat "" (map capitalize rest).

Definition small_word (w : string) : Prop :=
  all_chars is_lower w = true /\ w <> "".

(** A word that can follow another in camel case: its capital is followed
    by at least one small letter. *)
Definition inner_word (w : string) : Prop :=
  all_chars is_lower w = true /\ (2 <= String.length w)%nat.

(** *** Letters *)

Lemma lower_not_upper (c : ascii) : is_lower c = true -> is_upper c = false.
Proof.
  unfold is_lower, is_upper. intros H. apply andb_prop in H. destruct H as [H _].
  apply Nat.leb_le in H. apply andb_false_iff. right. apply Nat.leb_gt. lia.
Qed.

Lemma upper_is_upper (c : ascii) : is_lower c = true -> is_upper (upper c) = true.
Proof.
  intros H. unfold upper. rewrite H. unfold is_lower in H. unfold is_upper.
  apply andb_prop in H. destruct H as [H1 H2].
  apply Nat.leb_le in H1. apply Nat.leb_le in H2.
  rewrite nat_ascii_embedding by lia.
  apply andb_true_intro. split; apply Nat.leb_le; lia.
Qed.

Lemma lower_upper (c : ascii) : is_lower c = true -> lower (upper c) = c.
Proof.
  intros H. unfold lower. rewrite (upper_is_upper c H).
  unfold upper. rewrite H. unfold is_lower in H.
  apply andb_prop in H. destruct H as [H1 H2].
  apply Nat.leb_le in H1. apply Nat.leb_le in H2.
  rewrite nat_ascii_embedding by lia.
  replace (nat_of_ascii c - 32 + 32)%nat with (nat_of_ascii c) by lia.
  apply ascii_nat_embedding.
Qed.

Lemma lower_small (c : ascii) : is_upper c = false -> lower c = c.
Proof. intros H. unfold lower. now rewrite H. Qed.

Lemma lower_no_capital (c : ascii) : is_ascii c = true -> is_upper (lower c) = false.
Proof.
  intros A. unfold lower. destruct (is_upper c) eqn:U; [|exact U].
  unfold is_upper in *. apply andb_prop in U. destruct U as [U1 U2].
  apply Nat.leb_le in U1. apply Nat.leb_le in U2.
  rewrite nat_ascii_embedding by lia.
  apply andb_false_iff. right. apply Nat.leb_gt. lia.
Qed.

(** *** Text without capitals is left alone *)

Lemma dash_lower_upper_step (x y : ascii) (rest : string) :
  dash_lower_upper (String x (String y rest))
  = if is_lower x && is_upper y
    then String x (String "-" (String y (dash_lower_upper rest)))
    else String x (dash_lower_upper (String y rest)).
Proof. reflexivity. Qed.

Lemma dash_upper_word_step (x y z : ascii) (rest : string) :
  dash_upper_word (String x (String y (String z rest)))
  = if is_upper x && is_upper y && is_lower z
    then String x (String "-" (String y (String z (dash_upper_word rest))))
    else String x (dash_upper_word (String y (String z rest))).
Proof. reflexivity. Qed.

Lemma all_chars_app (p : ascii -> bool) (a b : string) :
  all_chars p (a ++ b) = all_chars p a && all_chars p b.
Proof.
  induction a as [|c a IH]; simpl; [reflexivity|]. rewrite IH. apply andb_assoc.
Qed.

Lemma dash_lower_upper_small (s : string) :
  all_chars no_capital s = true -> dash_lower_upper s = s.
Proof.
  induction s as [|x tl IH]; [reflexivity|]. intros H.
  cbn [all_chars] in H. apply andb_prop in H. destruct H as [Hx Htl].
  destruct tl as [|y rest]; [reflexivity|].
  assert (Hy : is_upper y = false).
  { cbn [all_chars] in Htl. apply andb_prop in Htl. destruct Htl as [Hy _].
    now apply negb_true_iff in Hy. }
  rewrite dash_lower_upper_step, Hy, andb_false_r. now rewrite (IH Htl).
Qed.

(** Where the character in front is no capital, the second pattern does not
    match there. *)
Lemma dash_upper_word_skip (x : ascii) (tl : string) :
  is_upper x = false -> dash_upper_word (String x tl) = String x (dash_upper_word tl).
Proof.
  intros H. destruct tl as [|y [|z rest]]; try reflexivity.
  now rewrite dash_upper_word_step, H.
Qed.

(** The same where the second character is no capital. *)
Lemma dash_upper_word_single (x y : ascii) (tl : string) :
  is_upper y = false ->
  dash_upper_word (String x (String y tl)) = String x (dash_upper_word (String y tl)).
Proof.
  intros H. destruct tl as [|z rest].
  - reflexivity.
  - now rewrite dash_upper_word_step, H, andb_false_r.
Qed.

Lemma dash_upper_word_small (s : string) :
  all_chars no_capital s = true -> dash_upper_word s = s.
Proof.
  induction s as [|x tl IH]; [reflexivity|]. intros H.
  cbn [all_chars] in H. apply andb_prop in H. destruct H as [Hx Htl].
  apply negb_true_iff in Hx. rewrite (dash_upper_word_skip x tl Hx).
  now rewrite (IH Htl).
Qed.

Lemma toLowerCase_small (s : string) :
  all_chars no_capital s = true -> toLowerCase s = s.
Proof.
  induction s as [|x tl IH]; [reflexivity|]. intros H.
  cbn [all_chars] in H. apply andb_prop in H. destruct H as [Hx Htl].
  apply negb_true_iff in Hx. cbn [toLowerCase]. now rewrite (lower_small x Hx), (IH Htl).
Qed.

Lemma toLowerCase_no_capital (s : string) :
  all_chars is_ascii s = true -> all_chars no_capital (toLowerCase s) = true.
Proof.
  induction s as [|x tl IH]; [reflexivity|]. intros H.
  cbn [all_chars] in H. apply andb_prop in H. destruct H as [Hx Htl].
  cbn [toLowerCase all_chars]. unfold no_capital at 1.
  now rewrite (lower_no_capital x Hx), (IH Htl).
Qed.

(** The two replacements insert dashes only: ASCII text stays ASCII. *)
Lemma dash_lower_upper_ascii (s : string) :
  all_chars is_ascii s = true -> all_chars is_ascii (dash_lower_upper s) = true.
Proof.
  assert (G : forall n s, (String.length s <= n)%nat -> all_chars is_ascii s = true ->
                          all_chars is_ascii (dash_lower_upper s) = true).
  { intros n. induction n as [|n IH]; intros t L H.
    - destruct t; [reflexivity | simpl in L; lia].
    - destruct t as [|x [|y rest]]; [reflexivity | exact H |].
      cbn [all_chars] in H. apply andb_prop in H. destruct H as [Hx H].
      apply andb_prop in H. destruct H as [Hy Hr].
      cbn [String.length] in L. rewrite dash_lower_upper_step.
      destruct (is_lower x && is_upper y).
      + cbn [all_chars]. rewrite Hx, Hy. cbn [andb is_ascii].
        change (is_ascii "-") with true. cbn [andb]. apply IH; [lia | exact Hr].
      + cbn [all_chars]. rewrite Hx. cbn [andb]. apply IH; [simpl; lia|].
        cbn [all_chars]. now rewrite Hy, Hr. }
  intros H. now apply (G (String.length s)).
Qed.

Lemma dash_upper_word_ascii (s : string) :
  all_chars is_ascii s = true -> all_chars is_ascii (dash_upper_word s) = true.
Proof.
  assert (G : forall n s, (String.length s <= n)%nat -> all_chars is_ascii s = true ->
                          all_chars is_ascii (dash_upper_word s) = true).
  { intros n. induction n as [|n IH]; intros t L H.
    - destruct t; [reflexivity | simpl in L; lia].
    - destruct t as [|x [|y [|z rest]]]; [reflexivity | exact H | exact H |].
      cbn [all_chars] in H. apply andb_prop in H. destruct H as [Hx H].
      apply andb_prop in H. destruct H as [Hy H].
      apply andb_prop in H. destruct H as [Hz Hr].
      cbn [String.length] in L. rewrite dash_upper_word_step.
      destruct (is_upper x && is_upper y && is_lower z).
      + cbn [all_chars]. rewrite Hx, Hy, Hz. change (is_ascii "-") with true.
        cbn [andb]. apply IH; [lia | exact Hr].
      + cbn [all_chars]. rewrite Hx. cbn [andb]. apply IH; [simpl; lia|].
        cbn [all_chars]. now rewrite Hy, Hz, Hr. }
  intros H. now apply (G (String.length s)).
Qed.

(** X1 (camelCaseToDash, fixed points).  On ASCII text the result of
    [camelCaseToDash] holds no capital letter; text that holds none, such as
    the snake-case names of the map tools, is returned as it is; hence
    converting twice gives what converting once gives. *)
Theorem camelCaseToDash_idempotent (s : string) :
  all_chars is_ascii s = true ->
  all_chars no_capital (camelCaseToDash s) = true /\
  (all_chars no_capital s = true -> camelCaseToDash s = s) /\
  camelCaseToDash (camelCaseToDash s) = camelCaseToDash s.
Proof.
  intros A.
  assert (F : forall t, all_chars no_capital t = true -> camelCaseToDash t = t).
  { intros t H. unfold camelCaseToDash.
    now rewrite (dash_lower_upper_small t H), (dash_upper_word_small t H),
      (toLowerCase_small t H). }
  assert (N : all_chars no_capital (camelCaseToDash s) = true).
  { unfold camelCaseToDash. apply toLowerCase_no_capital.
    apply dash_upper_word_ascii, dash_lower_upper_ascii, A. }
  split; [exact N|]. split; [apply F | apply F, N].
Qed.

Lemma camelCaseToDash_idempotent_witness :
  camelCaseToDash "view_location_google_maps" = "view_location_google_maps" /\
  camelCaseToDash (camelCaseToDash "directionsOnGoogleMaps")
  = camelCaseToDash "directionsOnGoogleMaps".
Proof.
  split.
  - apply (camelCaseToDash_idempotent "view_location_google_maps" eq_refl); reflexivity.
  - apply (camelCaseToDash_idempotent "directionsOnGoogleMaps" eq_refl).
Defined.

(** *** Camel case *)

Lemma small_no_capital (w : string) :
  all_chars is_lower w = true -> all_chars no_capital w = true.
Proof.
  induction w as [|c w IH]; [reflexivity|]. cbn [all_chars]. intros H.
  apply andb_prop in H. destruct H as [Hc Hw]. unfold no_capital at 1.
  now rewrite (lower_not_upper c Hc), (IH Hw).
Qed.

(** A run of small letters in front of a capital: the first pattern matches
    at its end, and nowhere before. *)
Lemma dash_lower_upper_word (w : string) (c : ascii) (t : string) :
  small_word w -> is_upper c = true ->
  dash_lower_upper (w ++ String c t) = w ++ String "-" (String c (dash_lower_upper t)).
Proof.
  intros [Hw Hne] Hc. induction w as [|x w IH]; [contradiction|].
  cbn [all_chars] in Hw. apply andb_prop in Hw. destruct Hw as [Hx Hw].
  destruct w as [|y w].
  - cbn [append dash_lower_upper]. now rewrite Hx, Hc.
  - change ((String x (String y w)) ++ String c t)
      with (String x (String y w ++ String c t)).
    change (String y w ++ String c t) with (String y (w ++ String c t)).
    assert (Hy : is_upper y = false).
    { cbn [all_chars] in Hw. apply andb_prop in Hw. destruct Hw as [Hy _].
      now apply lower_not_upper. }
    rewrite dash_lower_upper_step, Hy, andb_false_r.
    change (String y (w ++ String c t)) with (String y w ++ String c t).
    rewrite IH; [reflexivity | exact Hw | discriminate].
Qed.

Definition dashed (rest : list string) : string :=
  String.concat "" (map (fun w => String "-" (capitalize w)) rest).

Lemma inner_word_shape (w : string) :
  inner_word w ->
  exists c w', w = String c w' /\ is_lower c = true /\ small_word w'.
Proof.
  intros [Hw Hl]. destruct w as [|c [|d w]]; simpl in Hl; try lia.
  cbn [all_chars] in Hw. apply andb_prop in Hw. destruct Hw as [Hc Hw].
  exists c, (String d w). repeat split; [exact Hc | exact Hw | discriminate].
Qed.

Lemma concat_cons (x : string) (l : list string) :
  String.concat "" (x :: l) = x ++ String.concat "" l.
Proof.
  destruct l as [|y l]; cbn [String.concat].
  - now rewrite Duration.append_empty_r.
  - reflexivity.
Qed.

Lemma first_pass (rest : list string) :
  Forall inner_word rest ->
  forall first, small_word first ->
    dash_lower_upper (camel first rest) = first ++ dashed rest.
Proof.
  unfold camel, dashed.
  induction rest as [|w rest IH]; intros Hr first Hf.
  - cbn [map String.concat]. rewrite Duration.append_empty_r.
    apply dash_lower_upper_small, small_no_capital, (proj1 Hf).
  - apply Forall_cons_iff in Hr. destruct Hr as [Hw Hr].
    destruct (inner_word_shape w Hw) as (c & w' & -> & Hc & Hw').
    cbn [map]. rewrite !concat_cons. cbn [capitalize append].
    rewrite (dash_lower_upper_word first (upper c) _ Hf (upper_is_upper c Hc)).
    now rewrite (IH Hr w' Hw').
Qed.

(** After the first pass no capital follows another: the second pattern
    finds nothing. *)
Lemma dash_upper_word_app (w t : string) :
  all_chars no_capital w = true ->
  dash_upper_word (w ++ t) = w ++ dash_upper_word t.
Proof.
  induction w as [|x w IH]; [reflexivity|]. intros H.
  cbn [all_chars] in H. apply andb_prop in H. destruct H as [Hx Hw].
  apply negb_true_iff in Hx. cbn [append].
  now rewrite (dash_upper_word_skip x _ Hx), (IH Hw).
Qed.

Lemma second_pass (rest : list string) :
  Forall inner_word rest -> dash_upper_word (dashed rest) = dashed rest.
Proof.
  unfold dashed. induction rest as [|w rest IH]; intros Hr; [reflexivity|].
  apply Forall_cons_iff in Hr. destruct Hr as [Hw Hr].
  destruct (inner_word_shape w Hw) as (c & w' & -> & Hc & [Hw' Hne]).
  cbn [map]. rewrite concat_cons. cbn [capitalize append].
  rewrite (dash_upper_word_skip "-" _ eq_refl).
  destruct w' as [|d w']; [contradiction|]. cbn [append].
  assert (Hd : is_upper d = false).
  { cbn [all_chars] in Hw'. apply andb_prop in Hw'. now apply lower_not_upper. }
  rewrite (dash_upper_word_single (upper c) d _ Hd).
  change (String d (w' ++ ?x)) with (String d w' ++ x).
  rewrite (dash_upper_word_app (String d w') _ (small_no_capital _ Hw')).
  now rewrite (IH Hr).
Qed.

Lemma toLowerCase_app (a b : string) :
  toLowerCase (a ++ b) = toLowerCase a ++ toLowerCase b.
Proof. induction a as [|c a IH]; simpl; [reflexivity | now rewrite IH]. Qed.

Lemma third_pass (rest : list string) :
  Forall inner_word rest ->
  toLowerCase (dashed rest)
  = String.concat "" (map (fun w => String "-" w) rest).
Proof.
  unfold dashed. induction rest as [|w rest IH]; intros Hr; [reflexivity|].
  apply Forall_cons_iff in Hr. destruct Hr as [Hw Hr].
  destruct (inner_word_shape w Hw) as (c & w' & -> & Hc & [Hw' Hne]).
  cbn [map]. rewrite !concat_cons. cbn [capitalize append toLowerCase].
  rewrite toLowerCase_app, (IH Hr), (lower_upper c Hc).
  rewrite (toLowerCase_small w' (small_no_capital _ Hw')).
  rewrite (lower_small "-" eq_refl). reflexivity.
Qed.

Lemma concat_dash (first : string) (rest : list string) :
  String.concat "-" (first :: rest)
  = first ++ String.concat "" (map (fun w => String "-" w) rest).
Proof.
  revert first. induction rest as [|w rest IH]; intros first.
  - cbn. now rewrite Duration.append_empty_r.
  - change (String.concat "-" (first :: w :: rest))
      with (first ++ "-" ++ String.concat "-" (w :: rest)).
    rewrite (IH w). cbn [map]. rewrite concat_cons. reflexivity.
Qed.

(** X2 (camelCaseToDash, camel case).  For an identifier in camel case, a
    first word in small letters followed by capitalized words of two letters
    or more, [camelCaseToDash] gives the words in small letters, joined by
    dashes. *)
Theorem camelCaseToDash_words (first : string) (rest : list string) :
  small_word first -> Forall inner_word rest ->
  camelCaseToDash (camel first rest) = String.concat "-" (first :: rest).
Proof.
  intros Hf Hr. unfold camelCaseToDash.
  rewrite (first_pass rest Hr first Hf).
  rewrite (dash_upper_word_app first _ (small_no_capital _ (proj1 Hf))).
  rewrite (second_pass rest Hr), toLowerCase_app, (third_pass rest Hr).
  rewrite (toLowerCase_small first (small_no_capital _ (proj1 Hf))).
  symmetry. apply concat_dash.
Qed.

Lemma camelCaseToDash_words_witness :
  camelCaseToDash "directionsOnGoogleMaps" = "directions-on-google-maps".
Proof.
  apply (camelCaseToDash_words "directions" ["on"; "google"; "maps"]).
  - split; [reflexivity | discriminate].
  - repeat constructor.
Defined.

End ChatUtils.

(* ================================================================= *)
(** ** [_cssColorToRgb] *)

Module Css.
Import JS.
Open Scope string_scope.
Open Scope Z_scope.

(** The colour object of the Maps API: [{r, g, b, a}]. *)
Record Color : Type := { r : Z; g : Z; b : Z; a : Z }.

(** The classes [\d] and, within one byte, [\s]. *)
Definition is_digit (c : ascii) : bool :=
  ((48 <=? nat_of_ascii c) && (nat_of_ascii c <=? 57))%nat.

Definition is_space (c : ascii) : bool :=
  is_ws c || (nat_of_ascii c =? 160)%nat.

(** The longest run of characters of a class at the front of [s], and what
    follows it.  A greedy [\d+] or [\s*] takes this run when the pattern goes
    on with a character outside the class: giving back part of the run would
    leave a character of the class where the pattern wants another one. *)
Fixpoint run (p : ascii -> bool) (s : string) : string * string :=
  match s with
  | EmptyString => (EmptyString, EmptyString)
  | String c s' =>
      if p c then let (m, t) := run p s' in (String c m, t)
      else (EmptyString, s)
  end.

(** Literal text at the front of [s]: what follows it. *)
Fixpoint literal (p s : string) : option string :=
  match p with
  | EmptyString => Some s
  | String x p' =>
      match s with
      | String y s' => if Ascii.eqb x y then literal p' s' else None
      | EmptyString => None
      end
  end.

(** [(\d+)]: the capture and the rest. *)
Definition digits (s : string) : option (string * string) :=
  match run is_digit s with
  | (EmptyString, _) => None
  | (d, t) => Some (d, t)
  end.

(** [/rgb\((\d+),\s*(\d+),\s*(\d+)\)/] matched at the front of [s]: the three
    captures. *)
Definition match_here (s : string) : option (string * string * string) :=
  match literal "rgb(" s with
  | None => None
  | Some s =>
      match digits s with
      | None => None
      | Some (m1, s) =>
          match literal "," s with
          | None => None
          | Some s =>
              match digits (snd (run is_space s)) with
              | None => None
              | Some (m2, s) =>
                  match literal "," s with
                  | None => None
                  | Some s =>
                      match digits (snd (run is_space s)) with
                      | None => None
                      | Some (m3, s) =>
                          match literal ")" s with
                          | None => None
                          | Some _ => Some (m1, m2, m3)
                          end
                      end
                  end
              end
          end
      end
  end.

(** [cssColor.match(...)]: the leftmost match. *)
Fixpoint match_rgb (s : string) : option (string * string * string) :=
  match match_here s with
  | Some m => Some m
  | None =>
      match s with
      | String _ s' => match_rgb s'
      | EmptyString => None
      end
  end.

(** [parseInt(text, 10)] of a run of digits. *)
Fixpoint parseInt_from (value : Z) (s : string) : Z :=
  match s with
  | EmptyString => value
  | String c s' => parseInt_from (value * 10 + (Z.of_nat (nat_of_ascii c) - 48)) s'
  end.

Definition parseInt (s : string) : Z := parseInt_from 0 s.

Definition _cssColorToRgb (cssColor : string) : Color :=
  match match_rgb cssColor with
  | Some (m1, m2, m3) =>
      {| r := parseInt m1; g := parseInt m2; b := parseInt m3; a := 255 |}
  | None => {| r := 128; g := 128; b := 128; a := 255 |}
  end.

Example cssColorToRgb_spaces :
  _cssColorToRgb "color: rgb(12,34,   56);" = {| r := 12; g := 34; b := 56; a := 255 |}.
Proof. reflexivity. Qed.

Example cssColorToRgb_hex :
  _cssColorToRgb "#B0B0B0" = {| r := 128; g := 128; b := 128; a := 255 |}.
Proof. reflexivity. Qed.

(** *** The digits of a number *)

Definition numeral (s : string) : Prop :=
  ChatUtils.all_chars is_digit s = true /\ s <> "".

Lemma uint_digits (d : Decimal.uint) :
  ChatUtils.all_chars is_digit (NilEmpty.string_of_uint d) = true.
Proof. induction d as [|d IH|d IH|d IH|d IH|d IH|d IH|d IH|d IH|d IH|d IH]; simpl; auto. Qed.

Lemma parseInt_from_acc (d : Decimal.uint) :
  forall acc : positive,
    parseInt_from (Zpos acc) (NilEmpty.string_of_uint d) = Zpos (Pos.of_uint_acc d acc).
Proof.
  induction d as [|d IH|d IH|d IH|d IH|d IH|d IH|d IH|d IH|d IH|d IH]; intros acc;
    [reflexivity|..];
    cbn [NilEmpty.string_of_uint parseInt_from Pos.of_uint_acc];
    rewrite <- IH; f_equal;
    rewrite ?Pos2Z.inj_add, ?Pos2Z.inj_mul;     match goal with
    | |- context [Z.of_nat ?n] => let k := eval vm_compute in (Z.of_nat n) in
                                  change (Z.of_nat n) with k
    end; lia.
Qed.

Lemma parseInt_uint (d : Decimal.uint) :
  parseInt (NilEmpty.string_of_uint d) = Z.of_N (Pos.of_uint d).
Proof.
  unfold parseInt.
  induction d as [|d IH|d IH|d IH|d IH|d IH|d IH|d IH|d IH|d IH|d IH];
    [reflexivity | exact IH |..];
    cbn [NilEmpty.string_of_uint parseInt_from Pos.of_uint Z.of_N];
    rewrite <- parseInt_from_acc; reflexivity.
Qed.

(** The text of a number that is not negative is a numeral, and [parseInt]
    reads the number back. *)
Lemma show_numeral (n : Z) :
  0 <= n -> numeral (show n) /\ parseInt (show n) = n.
Proof.
  intros Hn. destruct n as [|p|p]; [split; [split|]; [reflexivity | discriminate | reflexivity] | | lia].
  unfold show. cbn [Z.to_int NilZero.string_of_int].
  pose proof (DecimalPos.Unsigned.to_uint_nonnil p) as Hnil.
  pose proof (DecimalPos.Unsigned.of_to p) as Hback.
  destruct (Pos.to_uint p) as [|d|d|d|d|d|d|d|d|d|d] eqn:E; [contradiction|..];
    (split; [split; [apply (uint_digits (_ d)) | discriminate]|]);
    unfold NilZero.string_of_uint;
    rewrite parseInt_uint, Hback; reflexivity.
Qed.

(** *** Matching the text of a colour *)

Lemma run_numeral (m : string) (c : ascii) (t : string) :
  ChatUtils.all_chars is_digit m = true -> is_digit c = false ->
  run is_digit (m ++ String c t) = (m, String c t).
Proof.
  intros Hm Hc. induction m as [|x m IH]; cbn [append run].
  - now rewrite Hc.
  - cbn [ChatUtils.all_chars] in Hm. apply andb_prop in Hm. destruct Hm as [Hx Hm].
    now rewrite Hx, (IH Hm).
Qed.

Lemma digits_numeral (m : string) (c : ascii) (t : string) :
  numeral m -> is_digit c = false ->
  digits (m ++ String c t) = Some (m, String c t).
Proof.
  intros [Hm Hne] Hc. unfold digits. rewrite (run_numeral m c t Hm Hc).
  destruct m; [contradiction | reflexivity].
Qed.

Lemma numeral_no_space (m t : string) :
  numeral m -> run is_space (m ++ t) = (EmptyString, m ++ t).
Proof.
  intros [Hm Hne]. destruct m as [|x m]; [contradiction|].
  cbn [ChatUtils.all_chars] in Hm. apply andb_prop in Hm. destruct Hm as [Hx _].
  cbn [append run].
  assert (S : is_space x = false).
  { unfold is_digit in Hx. apply andb_prop in Hx. destruct Hx as [H1 H2].
    apply Nat.leb_le in H1. apply Nat.leb_le in H2.
    unfold is_space, is_ws. apply orb_false_iff. split.
    - apply orb_false_iff. split.
      + apply andb_false_iff. right. apply Nat.leb_gt. lia.
      + apply Nat.eqb_neq. lia.
    - apply Nat.eqb_neq. lia. }
  now rewrite S.
Qed.

Lemma space_then_numeral (m t : string) :
  numeral m -> snd (run is_space (String " " (m ++ t))) = m ++ t.
Proof.
  intros H. cbn [run]. change (is_space " ") with true. cbv iota.
  now rewrite (numeral_no_space m t H).
Qed.

Lemma match_here_css (m1 m2 m3 : string) :
  numeral m1 -> numeral m2 -> numeral m3 ->
  match_here ("rgb(" ++ m1 ++ ", " ++ m2 ++ ", " ++ m3 ++ ")") = Some (m1, m2, m3).
Proof.
  intros H1 H2 H3. unfold match_here. cbn [append literal Ascii.eqb Bool.eqb].
  rewrite (digits_numeral m1 "," _ H1 eq_refl). cbn [literal Ascii.eqb Bool.eqb].
  rewrite (space_then_numeral m2 _ H2).
  rewrite (digits_numeral m2 "," _ H2 eq_refl). cbn [literal Ascii.eqb Bool.eqb].
  rewrite (space_then_numeral m3 _ H3).
  rewrite (digits_numeral m3 ")" _ H3 eq_refl). reflexivity.
Qed.

Lemma match_rgb_here (s : string) (m : string * string * string) :
  match_here s = Some m -> match_rgb s = Some m.
Proof. intros H. destruct s; cbn [match_rgb]; now rewrite H. Qed.

(** Without the text "rgb(" there is no match. *)
Fixpoint occurs (p s : string) : bool :=
  match literal p s with
  | Some _ => true
  | None =>
      match s with
      | String _ s' => occurs p s'
      | EmptyString => false
      end
  end.

Lemma match_rgb_none (s : string) : occurs "rgb(" s = false -> match_rgb s = None.
Proof.
  induction s as [|c s IH]; [reflexivity|]. cbn [occurs match_rgb]. unfold match_here.
  destruct (literal "rgb(" (String c s)); [discriminate|]. exact IH.
Qed.

Lemma cssColorToRgb_css (c : Spectrum.rgb) :
  0 <= Spectrum.r c -> 0 <= Spectrum.g c -> 0 <= Spectrum.b c ->
  _cssColorToRgb (Spectrum.css c)
  = {| r := Spectrum.r c; g := Spectrum.g c; b := Spectrum.b c; a := 255 |}.
Proof.
  intros Hr Hg Hb.
  destruct (show_numeral _ Hr) as [Nr Pr].
  destruct (show_numeral _ Hg) as [Ng Pg].
  destruct (show_numeral _ Hb) as [Nb Pb].
  unfold _cssColorToRgb, Spectrum.css.
  rewrite (match_rgb_here _ _ (match_here_css _ _ _ Nr Ng Nb)).
  now rewrite Pr, Pg, Pb.
Qed.

(** X3 (_cssColorToRgb).  [_cssColorToRgb] reads back the channels of every
    colour written as [`rgb(${r}, ${g}, ${b})`] with channels that are not
    negative, and gives the alpha 255; a text in which "rgb(" does not
    occur, a hexadecimal colour for one, gives the grey (128, 128, 128) of
    the fallback. *)
Theorem cssColorToRgb_roundtrip :
  (forall c : Spectrum.rgb,
     0 <= Spectrum.r c -> 0 <= Spectrum.g c -> 0 <= Spectrum.b c ->
     _cssColorToRgb (Spectrum.css c)
     = {| r := Spectrum.r c; g := Spectrum.g c; b := Spectrum.b c; a := 255 |}) /\
  (forall s, occurs "rgb(" s = false ->
             _cssColorToRgb s = {| r := 128; g := 128; b := 128; a := 255 |}).
Proof.
  split.
  - exact cssColorToRgb_css.
  - intros s H. unfold _cssColorToRgb. now rewrite (match_rgb_none s H).
Qed.

(** *** The colours of the spectrum *)

Open Scope Q_scope.

Lemma Math_round_range (x : Q) (lo hi : Z) :
  inject_Z lo <= x -> x <= inject_Z hi -> (lo <= Math_round x <= hi)%Z.
Proof.
  intros Hlo Hhi. unfold Math_round.
  pose proof (Qfloor_le (x + (1 # 2))) as F1.
  pose proof (Qlt_floor (x + (1 # 2))) as F2.
  set (k := Qfloor _) in *.
  rewrite inject_Z_plus in F2. change (inject_Z 1) with 1 in F2.
  assert (A : inject_Z lo < inject_Z (k + 1))
    by (rewrite inject_Z_plus; change (inject_Z 1) with 1; lra).
  assert (B : inject_Z k < inject_Z (hi + 1))
    by (rewrite inject_Z_plus; change (inject_Z 1) with 1; lra).
  rewrite <- Zlt_Qlt in A, B. lia.
Qed.

(** A channel between two anchors of the range 0 to 255 stays in it. *)
Lemma channel_range (from to : Z) (f : Q) :
  (0 <= from <= 255)%Z -> (0 <= to <= 255)%Z -> 0 <= f -> f <= 1 ->
  (0 <= Spectrum.channel from to f <= 255)%Z.
Proof.
  intros Hfrom Hto H0 H1. unfold Spectrum.channel.
  assert (Fq : 0 <= inject_Z from /\ inject_Z from <= 255).
  { change 0 with (inject_Z 0). change 255 with (inject_Z 255).
    rewrite <- !Zle_Qle. lia. }
  assert (Tq : 0 <= inject_Z to /\ inject_Z to <= 255).
  { change 0 with (inject_Z 0). change 255 with (inject_Z 255).
    rewrite <- !Zle_Qle. lia. }
  set (x := inject_Z from) in *. set (y := inject_Z to) in *.
  assert (E : x + (y - x) * f == x * (1 - f) + y * f) by ring.
  assert (P1 : 0 <= x * (1 - f)) by (apply Qmult_le_0_compat; lra).
  assert (P2 : 0 <= y * f) by (apply Qmult_le_0_compat; lra).
  assert (P3 : 0 <= (255 - x) * (1 - f)) by (apply Qmult_le_0_compat; lra).
  assert (P4 : 0 <= (255 - y) * f) by (apply Qmult_le_0_compat; lra).
  apply Math_round_range.
  - change (inject_Z 0) with 0. lra.
  - change (inject_Z 255) with 255. lra.
Qed.

Lemma ratio_range (i n : nat) : (i <= n)%nat -> (0 < n)%nat ->
  0 <= Spectrum.ratio i n /\ Spectrum.ratio i n <= 1.
Proof.
  intros Hi Hn. unfold Spectrum.ratio.
  assert (Pn : 0 < inject_Z (Z.of_nat n))
    by (change 0 with (inject_Z 0); rewrite <- Zlt_Qlt; lia).
  assert (Pi : 0 <= inject_Z (Z.of_nat i))
    by (change 0 with (inject_Z 0); rewrite <- Zle_Qle; lia).
  assert (Le : inject_Z (Z.of_nat i) <= inject_Z (Z.of_nat n))
    by (rewrite <- Zle_Qle; lia).
  split.
  - apply Qle_shift_div_l; [exact Pn | lra].
  - apply Qle_shift_div_r; [exact Pn | lra].
Qed.

(** A colour with its channels in the range of a byte. *)
Definition byte_color (c : Spectrum.rgb) : Prop :=
  (0 <= Spectrum.r c <= 255 /\ 0 <= Spectrum.g c <= 255 /\ 0 <= Spectrum.b c <= 255)%Z.

Definition well_formed (s : string) : Prop :=
  exists c, byte_color c /\ s = Spectrum.css c /\
            _cssColorToRgb s
            = {| r := Spectrum.r c; g := Spectrum.g c; b := Spectrum.b c; a := 255 |}.

Lemma css_well_formed (c : Spectrum.rgb) : byte_color c -> well_formed (Spectrum.css c).
Proof.
  intros H. exists c. split; [exact H|]. split; [reflexivity|].
  destruct H as (Hr & Hg & Hb). apply cssColorToRgb_css; lia.
Qed.

Lemma mix_well_formed (from to : Spectrum.rgb) (f : Q) :
  byte_color from -> byte_color to -> 0 <= f -> f <= 1 ->
  well_formed (Spectrum.mix from to f).
Proof.
  intros (F1 & F2 & F3) (T1 & T2 & T3) H0 H1. unfold Spectrum.mix.
  apply css_well_formed. repeat split; cbn [Spectrum.r Spectrum.g Spectrum.b];
    apply channel_range; assumption.
Qed.


(** X4 (spectrum colours).  Every colour that [_generateColorSpectrum] makes,
    for any number of legs, is the text of a colour with its three channels
    between 0 and 255, and [_cssColorToRgb] reads those channels back: no
    marker of a route gets the grey of the fallback by a failed match. *)
Theorem spectrum_colors_well_formed (n : nat) :
  Forall well_formed (Spectrum._generateColorSpectrum n).
Proof.
  assert (G : byte_color Spectrum.green) by (cbv; intuition discriminate).
  assert (B : byte_color Spectrum.blue) by (cbv; intuition discriminate).
  assert (R : byte_color Spectrum.red) by (cbv; intuition discriminate).
  destruct (Nat.le_gt_cases n 1) as [Hn|Hn].
  - unfold Spectrum._generateColorSpectrum.
    destruct (Nat.leb_spec n 1) as [_|H]; [|lia].
    constructor; [|constructor]. apply (css_well_formed Spectrum.green G).
  - rewrite Spectrum.generateColorSpectrum_pointwise by lia.
    apply Forall_forall. intros s Hs. apply in_map_iff in Hs.
    destruct Hs as (i & <- & Hi). apply in_seq in Hi.
    assert (Hm : ((n - 1) / 2 < n - 1)%nat) by (apply Nat.div_lt; lia).
    unfold Spectrum.spec_color.
    destruct (Nat.leb_spec i ((n - 1) / 2)) as [Le|Gt].
    + destruct (Nat.eqb_spec ((n - 1) / 2) 0) as [E|E].
      * apply mix_well_formed; [exact G | exact B | lra | lra].
      * destruct (ratio_range i ((n - 1) / 2) Le ltac:(lia)) as [P1 P2].
        now apply mix_well_formed.
    + destruct (ratio_range (i - (n - 1) / 2) (n - 1 - (n - 1) / 2)
                  ltac:(lia) ltac:(lia)) as [P1 P2].
      now apply mix_well_formed.
Qed.

End Css.

(* ================================================================= *)
(** ** More on the map tour: itinerary views, renaming, tour files *)

Module TourViews.
Import JS Types Tour.
Open Scope list_scope.
Open Scope Z_scope.

(** *** The views made from an itinerary *)

(** [l.map((x, index) => f(index, x))], the index starting at [i]. *)
Fixpoint mapi {A B : Type} (f : nat -> A -> B) (i : nat) (l : list A) : list B :=
  match l with
  | [] => []
  | x :: rest => f i x :: mapi f (S i) rest
  end.

(** Two lists taken in turns, the first one starting. *)
Fixpoint interleave {A : Type} (a b : list A) : list A :=
  match a, b with
  | x :: a', y :: b' => x :: y :: interleave a' b'
  | _, _ => a ++ b
  end.

(** The counter [next] after [k] increments: [next + k] as long as the
    doubles count exactly. *)
Definition id_after (next : Z) (k : nat) : Z := Nat.iter k (fun n => js_add n 1) next.

(** The view of the stop at [index], and of the leg that leaves it, when the
    views get their ids from [next] on. *)
Definition stop_view_of (next : Z) (index : nat) (s : ItineraryStop) : MapView :=
  view_of (_getViewForStop s) (id_after next index) (stop_name s) stop_view
    (Z.of_nat index * 2).

Definition leg_name (allStops : list ItineraryStop) (index : nat) : jsstring :=
  u "Leg: " ++ match nth_error allStops index with Some a => stop_name a | None => [] end
  ++ u " " ++ arrow ++ u " "
  ++ match nth_error allStops (S index) with Some b => stop_name b | None => [] end.

Definition leg_view_of (sdk : Sdk) (allStops : list ItineraryStop) (next : Z)
  (index : nat) (g : ItineraryLeg) : MapView :=
  view_of (_getViewForLeg sdk g) (id_after next index) (leg_name allStops index)
    leg_view (Z.of_nat index * 2 + 1).

Lemma id_after_exact (next : Z) (k : nat) :
  exact_counter next k -> id_after next k = next + Z.of_nat k.
Proof.
  unfold exact_counter. induction k as [|k IH]; intros [L U].
  - cbn. lia.
  - change (id_after next (S k)) with (js_add (id_after next k) 1).
    rewrite IH by lia. rewrite js_add_exact by lia. lia.
Qed.

Lemma id_after_add (next : Z) (a b : nat) :
  id_after (id_after next a) b = id_after next (a + b).
Proof.
  unfold id_after. rewrite Nat.add_comm. symmetry. apply Nat.iter_add.
Qed.

Lemma mapi_ext {A B : Type} (f g : nat -> A -> B) (l : list A) :
  forall i, (forall k x, (i <= k)%nat -> f k x = g k x) -> mapi f i l = mapi g i l.
Proof.
  induction l as [|x l IH]; intros i H; [reflexivity|]. cbn [mapi].
  rewrite (H i x (Nat.le_refl i)). f_equal. apply IH. intros k y Hk. apply H. lia.
Qed.

Lemma mapi_length {A B : Type} (f : nat -> A -> B) (l : list A) (i : nat) :
  List.length (mapi f i l) = List.length l.
Proof. revert i. induction l as [|x l IH]; intros i; simpl; [reflexivity | now rewrite IH]. Qed.

Lemma stopViews_spec (l : list ItineraryStop) :
  forall (index : nat) (base : Z),
    stopViews index (id_after base index) l
    = (mapi (stop_view_of base) index l, id_after base (index + List.length l)).
Proof.
  induction l as [|s l IH]; intros index base.
  - cbn. now rewrite Nat.add_0_r.
  - cbn [stopViews mapi List.length].
    change (js_add (id_after base index) 1) with (id_after base (S index)).
    rewrite (IH (S index) base). f_equal. f_equal. lia.
Qed.

Lemma legViews_spec (sdk : Sdk) (allStops : list ItineraryStop) (l : list ItineraryLeg) :
  forall (index : nat) (base : Z),
    (index + List.length l < List.length allStops)%nat ->
    legViews sdk allStops index (id_after base index) l
    = (Some (mapi (leg_view_of sdk allStops base) index l),
       id_after base (index + List.length l)).
Proof.
  induction l as [|g l IH]; intros index base Hlen.
  - cbn. now rewrite Nat.add_0_r.
  - cbn [List.length] in Hlen. cbn [legViews mapi List.length].
    destruct (nth_error allStops index) as [a|] eqn:Ea;
      [|apply nth_error_None in Ea; lia].
    destruct (nth_error allStops (S index)) as [b|] eqn:Eb;
      [|apply nth_error_None in Eb; lia].
    cbv zeta.
    change (js_add (id_after base index) 1) with (id_after base (S index)).
    rewrite (IH (S index) base) by lia.
    unfold leg_view_of at 2, leg_name. rewrite Ea, Eb. f_equal. f_equal. lia.
Qed.

(** **** Sorting views with distinct itinerary indices *)

Definition earlier (a b : MapView) : Prop := itineraryIndex a < itineraryIndex b.
Definition not_later (a b : MapView) : Prop := itineraryIndex a <= itineraryIndex b.

Lemma insert_sorted_In (v x : MapView) (l : list MapView) :
  In x (insert_sorted v l) -> x = v \/ In x l.
Proof.
  intros H. apply (Permutation_in _ (Permutation_sym (insert_sorted_perm v l))) in H.
  destruct H as [H|H]; auto.
Qed.

Lemma insert_sorted_sorted (v : MapView) (l : list MapView) :
  StronglySorted not_later l -> StronglySorted not_later (insert_sorted v l).
Proof.
  induction l as [|x l IH]; intros H; cbn [insert_sorted].
  - constructor; constructor.
  - apply StronglySorted_inv in H. destruct H as [Hl Hx].
    destruct (Z.leb_spec (itineraryIndex v) (itineraryIndex x)) as [Le|Gt].
    + constructor; [constructor; assumption|].
      constructor; [exact Le|]. rewrite Forall_forall in *. intros y Hy.
      specialize (Hx y Hy). unfold not_later in *. lia.
    + constructor; [apply IH, Hl|]. apply Forall_forall. intros y Hy.
      apply insert_sorted_In in Hy. destruct Hy as [->|Hy].
      * unfold not_later. lia.
      * rewrite Forall_forall in Hx. now apply Hx.
Qed.

Lemma sort_by_itineraryIndex_sorted (l : list MapView) :
  StronglySorted not_later (sort_by_itineraryIndex l).
Proof.
  induction l as [|v l IH]; cbn; [constructor | now apply insert_sorted_sorted].
Qed.

(** A list in strictly increasing order is the only sorted arrangement of
    its elements: whatever sorting method the host uses gives it. *)
Lemma sorted_arrangement_unique (l2 : list MapView) :
  forall l1, StronglySorted not_later l1 -> StronglySorted earlier l2 ->
             Permutation l1 l2 -> l1 = l2.
Proof.
  induction l2 as [|b l2 IH]; intros l1 S1 S2 P.
  - apply Permutation_sym, Permutation_nil in P. exact P.
  - destruct l1 as [|a l1]; [apply Permutation_nil in P; discriminate|].
    apply StronglySorted_inv in S1. destruct S1 as [S1 A1].
    apply StronglySorted_inv in S2. destruct S2 as [S2 A2].
    rewrite Forall_forall in A1, A2.
    assert (E : a = b).
    { assert (Ha : In a (b :: l2)) by (apply (Permutation_in _ P); now left).
      assert (Hb : In b (a :: l1))
        by (apply (Permutation_in _ (Permutation_sym P)); now left).
      destruct Ha as [Ha|Ha]; [now symmetry|].
      destruct Hb as [Hb|Hb]; [assumption|].
      specialize (A1 b Hb). specialize (A2 a Ha). unfold not_later, earlier in *. lia. }
    subst b. f_equal. apply IH; try assumption.
    now apply Permutation_cons_inv in P.
Qed.

Lemma interleave_perm {A : Type} (a : list A) :
  forall b, Permutation (a ++ b) (interleave a b).
Proof.
  induction a as [|x a IH]; intros b; [reflexivity|].
  destruct b as [|y b]; [reflexivity|]. cbn [interleave app].
  constructor. rewrite <- Permutation_middle. constructor. apply IH.
Qed.

Lemma consecutive_sorted (l : list MapView) :
  forall k, List.map itineraryIndex l = List.map Z.of_nat (seq k (List.length l)) ->
            StronglySorted earlier l.
Proof.
  induction l as [|x l IH]; intros k H; [constructor|].
  cbn [List.map List.length seq] in H. injection H as Hx Hl.
  constructor; [now apply (IH (S k))|].
  apply Forall_forall. intros y Hy. unfold earlier. rewrite Hx.
  assert (Hi : In (itineraryIndex y) (List.map Z.of_nat (seq (S k) (List.length l))))
    by (rewrite <- Hl; now apply in_map).
  apply in_map_iff in Hi. destruct Hi as (j & <- & Hj). apply in_seq in Hj. lia.
Qed.

Lemma interleave_indices (sdk : Sdk) (allStops : list ItineraryStop) (a c : Z)
  (ss : list ItineraryStop) :
  forall (ls : list ItineraryLeg) (k : nat),
    List.length ss = S (List.length ls) ->
    List.map itineraryIndex
      (interleave (mapi (stop_view_of a) k ss) (mapi (leg_view_of sdk allStops c) k ls))
    = List.map Z.of_nat (seq (2 * k) (List.length ss + List.length ls)).
Proof.
  induction ss as [|s ss IH]; intros ls k H; [discriminate|].
  destruct ls as [|g ls].
  - destruct ss; [|discriminate]. cbn. f_equal. lia.
  - cbn [List.length] in H. injection H as H.
    cbn [mapi interleave List.map List.length].
    rewrite (IH ls (S k) H).
    replace (S (List.length ss) + S (List.length ls))%nat
      with (S (S (List.length ss + List.length ls))) by lia.
    cbn [seq List.map]. unfold stop_view_of, leg_view_of, view_of.
    cbn [itineraryIndex].
    replace (2 * S k)%nat with (S (S (2 * k))) by lia.
    f_equal; [lia|]. f_equal. lia.
Qed.

(** X5 (_addFromItineraryToTour).  With both toggles set, an itinerary
    of [n + 1] stops and [n] legs adds its views in travel order: the stop
    views and the leg views in turns, stop 0, leg 0, stop 1, ..., stop [n],
    their itinerary indices counting 0, 1, ..., [2 n].  The stops take the
    ids that the counter gives out from [nextViewId] on and the legs the ids
    after them; [nextViewId] moves past all of them and both toggles are
    reset.  While the counter counts exactly, the id given out after [k]
    increments is [nextViewId + k]. *)
Theorem addFromItineraryToTour_travel_order (sdk : Sdk) (data : ItineraryData)
  (st : State) :
  addStopsToTourToggle st = true -> addLegsToTourToggle st = true ->
  List.length (stops data) = S (List.length (legs data)) ->
  let next := nextViewId st in
  let n := List.length (stops data) in
  let stop_views := mapi (stop_view_of next) 0 (stops data) in
  let leg_views :=
    mapi (leg_view_of sdk (stops data) (id_after next n)) 0 (legs data) in
  let st' := _addFromItineraryToTour sdk (Some data) st in
  savedViews st' = savedViews st ++ interleave stop_views leg_views /\
  List.map itineraryIndex (interleave stop_views leg_views)
  = List.map Z.of_nat (seq 0 (n + List.length (legs data))) /\
  nextViewId st' = id_after next (n + List.length (legs data)) /\
  addStopsToTourToggle st' = false /\ addLegsToTourToggle st' = false /\
  (forall k, exact_counter next k -> id_after next k = next + Z.of_nat k).
Proof.
  intros Hs Hl Hlen next n stop_views leg_views st'.
  assert (Ix : List.map itineraryIndex (interleave stop_views leg_views)
               = List.map Z.of_nat (seq 0 (n + List.length (legs data)))).
  { subst stop_views leg_views n.
    apply (interleave_indices sdk (stops data) next _ (stops data) (legs data) 0 Hlen). }
  assert (E : st' = set_addLegsToTourToggle false
                      (set_addStopsToTourToggle false
                         (set_savedViews (savedViews st ++ interleave stop_views leg_views)
                            (set_nextViewId
                               (id_after next (n + List.length (legs data))) st)))).
  { subst st'. unfold _addFromItineraryToTour. rewrite Hs, Hl. cbn [negb andb app].
    pose proof (stopViews_spec (stops data) 0 next) as S1.
    change (id_after next 0) with next in S1. fold next. rewrite S1.
    pose proof (legViews_spec sdk (stops data) (legs data) 0 (id_after next n)) as S2.
    change (id_after (id_after next n) 0) with (id_after next n) in S2.
    cbn [Nat.add] in S2 |- *. fold n. rewrite S2 by (cbn; lia).
    fold stop_views leg_views. rewrite id_after_add.
    replace (sort_by_itineraryIndex (stop_views ++ leg_views))
      with (interleave stop_views leg_views).
    - reflexivity.
    - symmetry. apply sorted_arrangement_unique.
      + apply sort_by_itineraryIndex_sorted.
      + apply (consecutive_sorted _ 0%nat). rewrite Ix. do 2 f_equal.
        rewrite <- (Permutation_length (interleave_perm stop_views leg_views)).
        subst stop_views leg_views. rewrite length_app, !mapi_length. reflexivity.
      + rewrite <- sort_by_itineraryIndex_perm. apply interleave_perm. }
  rewrite E. repeat split; [exact Ix|]. intros k. apply id_after_exact.
Qed.

(** An itinerary of two stops and the leg between them, with both toggles
    set in a fresh component. *)
Definition sample_stop (n : string) (at_ : LatLng) : ItineraryStop :=
  {| stop_name := u n; hotelName := None; address := u n; accommodationCost := None;
     location := at_;
     stop_marker := {| position := {| center_lat := lat at_; center_lng := lng at_;
                                      altitude := None |};
                       label := u n; styleColor := None |};
     stop_color := None; date := None |}.

Definition sample_leg (a b : LatLng) : ItineraryLeg :=
  {| distanceText := u "far"; distanceValue := 100000; durationText := u "long";
     fuelCost := finite 0; rawLegData := App.leg_between a b 100000 3600;
     leg_bounds := [a; b]; leg_color := None |}.

Definition two_stops : ItineraryData :=
  {| stops := [sample_stop "Boise" (App.place 0 0); sample_stop "Reno" (App.place 1 1)];
     legs := [sample_leg (App.place 0 0) (App.place 1 1)];
     totalDistance := 100000; totalTime := "1 hour"; totalFuelCost := finite 0;
     totalAccommodationCost := 0; totalTripDays := None; travelMode := DRIVING;
     bounds := [App.place 0 0; App.place 1 1] |}.

Definition both_toggles : State :=
  set_addLegsToTourToggle true (set_addStopsToTourToggle true initial).

Lemma addFromItineraryToTour_travel_order_witness :
  List.map itineraryIndex
    (savedViews (_addFromItineraryToTour App.no_geometry (Some two_stops) both_toggles))
  = [0; 1; 2] /\
  List.map id
    (savedViews (_addFromItineraryToTour App.no_geometry (Some two_stops) both_toggles))
  = [0; 2; 1] /\
  nextViewId (_addFromItineraryToTour App.no_geometry (Some two_stops) both_toggles) = 3.
Proof.
  destruct (addFromItineraryToTour_travel_order App.no_geometry two_stops both_toggles
              eq_refl eq_refl eq_refl) as (E & Ix & N & _).
  rewrite E, N. cbn [savedViews both_toggles set_addLegsToTourToggle
                     set_addStopsToTourToggle initial app].
  split; [exact Ix | split; reflexivity].
Defined.

(** *** Renaming a view *)

Definition startEditingView (i : Z) (st : State) : State :=
  if isPlayingTour st then st else set_editingViewId (Some i) st.

(** [e.key] as [handleRenameKeyDown] tells it apart. *)
Inductive Key : Type := Enter | Escape | another_key.

Definition handleRenameKeyDown (key : Key) (i : Z) (value : jsstring) (st : State)
  : State :=
  match key with
  | Enter => saveViewName i value st
  | Escape => set_editingViewId None st
  | another_key => st
  end.

Definition renamed (i : Z) (n : jsstring) (v : MapView) : MapView :=
  if id v =? i then rename v n else v.

Lemma renamed_absent (i : Z) (n : jsstring) (l : list MapView) :
  ~ In i (List.map id l) -> List.map (renamed i n) l = l.
Proof.
  induction l as [|v l IH]; intros H; [reflexivity|]. cbn [List.map] in *.
  unfold renamed at 1. destruct (Z.eqb_spec (id v) i) as [E|_].
  - exfalso. apply H. now left.
  - f_equal. apply IH. intros C. apply H. now right.
Qed.

Lemma rename_at_found (i : Z) (n : jsstring) (l : list MapView) :
  forall k, NoDup (List.map id l) -> findIndex (fun v => id v =? i) l = Some k ->
            rename_at k n l = List.map (renamed i n) l.
Proof.
  induction l as [|v l IH]; intros k Hnd Hk; [discriminate|].
  cbn [findIndex] in Hk. cbn [List.map] in Hnd. apply NoDup_cons_iff in Hnd.
  destruct Hnd as [Hv Hnd]. cbn [List.map]. unfold renamed at 1.
  destruct (Z.eqb_spec (id v) i) as [E|Ne].
  - injection Hk as <-. cbn [rename_at]. f_equal. symmetry.
    apply renamed_absent. now rewrite <- E.
  - destruct (findIndex (fun v => id v =? i) l) as [k'|] eqn:Ek; [|discriminate].
    injection Hk as <-. cbn [rename_at]. f_equal. now apply IH.
Qed.

(** X6 (saveViewName).  While the view [i] is being edited, and with
    the ids of the saved views distinct, [saveViewName i newName] gives the
    view with the id [i] the trimmed name and changes no other view; a name
    that is blank after trimming changes no view at all.  In both cases
    editing ends.  When another view or none is being edited the call does
    nothing, so that the [blur] which follows the Enter key does not rename
    again: saving twice is saving once.  The Escape key ends editing and
    leaves the views as they are. *)
Theorem saveViewName_spec (i : Z) (newName : jsstring) (st : State) :
  NoDup (ids st) ->
  (editingViewId st = Some i ->
     savedViews (saveViewName i newName st)
     = (if truthy (trimU newName)
        then List.map (renamed i (trimU newName)) (savedViews st)
        else savedViews st) /\
     editingViewId (saveViewName i newName st) = None) /\
  (editingViewId st <> Some i -> saveViewName i newName st = st) /\
  saveViewName i newName (saveViewName i newName st) = saveViewName i newName st /\
  handleRenameKeyDown Enter i newName st = saveViewName i newName st /\
  savedViews (handleRenameKeyDown Escape i newName st) = savedViews st /\
  editingViewId (handleRenameKeyDown Escape i newName st) = None.
Proof.
  intros Hnd.
  assert (Off : forall s, editingViewId s <> Some i -> saveViewName i newName s = s).
  { intros s H. unfold saveViewName.
    destruct (editingViewId s) as [e|]; cbn [option_Z_eqb negb]; [|reflexivity].
    destruct (Z.eqb_spec e i) as [->|_]; [congruence | reflexivity]. }
  assert (On : editingViewId st = Some i ->
               savedViews (saveViewName i newName st)
               = (if truthy (trimU newName)
                  then List.map (renamed i (trimU newName)) (savedViews st)
                  else savedViews st) /\
               editingViewId (saveViewName i newName st) = None).
  { intros H. unfold saveViewName. rewrite H. cbn [option_Z_eqb]. rewrite Z.eqb_refl.
    cbn [negb].
    destruct (findIndex (fun v => id v =? i) (savedViews st)) as [k|] eqn:Ek.
    - destruct (trimU newName) as [|c t] eqn:Et; cbn [truthy]; [split; reflexivity|].
      split; [|reflexivity]. cbn [savedViews set_editingViewId set_savedViews].
      apply rename_at_found; [exact Hnd | exact Ek].
    - split; [|reflexivity]. cbn [savedViews set_editingViewId].
      destruct (truthy (trimU newName)); [|reflexivity].
      symmetry. apply renamed_absent. intros C.
      destruct (findIndex_present i (savedViews st) C) as [k Hk]. congruence. }
  split; [exact On|]. split; [apply Off|]. split; [|repeat split].
  destruct (option_Z_eqb (editingViewId st) i) eqn:E.
  - assert (H : editingViewId st = Some i).
    { destruct (editingViewId st) as [e|]; [|discriminate].
      cbn in E. apply Z.eqb_eq in E. now subst. }
    apply Off. rewrite (proj2 (On H)). discriminate.
  - assert (H : editingViewId st <> Some i).
    { intros H. rewrite H in E. cbn in E. now rewrite Z.eqb_refl in E. }
    now rewrite !(Off st H).
Qed.

Lemma saveViewName_spec_witness :
  List.map name
    (savedViews (saveViewName 1 (u "  Lunch stop ") (startEditingView 1 three_views)))
  = [u "view"; u "Lunch stop"; u "view"] /\
  saveViewName 1 (u "again") (saveViewName 1 (u "  Lunch stop ") (startEditingView 1 three_views))
  = saveViewName 1 (u "  Lunch stop ") (startEditingView 1 three_views).
Proof.
  assert (Hnd : NoDup (ids (startEditingView 1 three_views))).
  { unfold ids. cbn. repeat constructor; cbn; intuition discriminate. }
  destruct (saveViewName_spec 1 (u "  Lunch stop ") (startEditingView 1 three_views) Hnd)
    as (On & _).
  destruct (On eq_refl) as [E Ed].
  split.
  - rewrite E. reflexivity.
  - destruct (saveViewName_spec 1 (u "again")
                (saveViewName 1 (u "  Lunch stop ") (startEditingView 1 three_views)))
      as (_ & Off & _).
    + unfold ids. rewrite E. cbn. repeat constructor; cbn; intuition discriminate.
    + apply Off. rewrite Ed. discriminate.
Defined.

(** *** Tour files *)

Open Scope string_scope.

(** A tour file without the field [playbackFlyoverTime], which the validation
    lets pass and the import replaces by 2. *)
Definition without_flyover (delay : Q) (loop : bool) (views : list MapView) : json :=
  JObj [("playbackDelay", JNum delay);
        ("loopTour", JBool loop);
        ("views", JArr (List.map json_of_view views))].

(** X7 (import without playbackFlyoverTime).  A file that holds a
    numeric [playbackDelay], a boolean [loopTour] and an array of views, but
    no [playbackFlyoverTime], is valid; so are views whose centre has no
    altitude, and an empty array of views.  Importing such a file, with no
    saved views or with the user's consent, takes the delay, the loop flag
    and the views from the file, sets the flyover time to 2 seconds, moves
    [nextViewId] past the largest id (to 1 at least) and shows the tour tab.
    [nextViewId] is [Math.max(...ids, 0) + 1] as doubles add: one more than
    the largest id, or than 0, when that is below 2^53. *)
Theorem import_without_flyover (delay : Q) (loop : bool) (views : list MapView)
  (st : State) (confirmed : bool) :
  savedViews st = [] \/ confirmed = true ->
  validateTourFile (without_flyover delay loop views) = ok true /\
  exists st',
    handleFileImport (ok (without_flyover delay loop views)) confirmed st = imported st' /\
    playbackDelay st' = delay /\
    playbackFlyoverTime st' = 2%Q /\
    loopTour st' = loop /\
    savedViews st' = views /\
    nextViewId st' = js_add (Math_max_ids (List.map id views)) 1 /\
    (Math_max_ids (List.map id views) < 2 ^ 53 ->
     nextViewId st' = Math_max_ids (List.map id views) + 1) /\
    1 <= nextViewId st' /\
    activeRightSidebarTab st' = tour.
Proof.
  intros Hc.
  assert (V : validateTourFile (without_flyover delay loop views) = ok true).
  { cbn. apply validate_views_json_of_views. }
  split; [exact V|]. unfold handleFileImport. rewrite V.
  assert (G : ((0 <? List.length (savedViews st))%nat && negb confirmed) = false).
  { destruct Hc as [-> | ->]; [reflexivity | apply andb_false_r]. }
  rewrite G. cbn [without_flyover get lookup String.eqb Ascii.eqb Bool.eqb].
  rewrite views_of_json_of_views.
  eexists. split; [reflexivity|].
  cbn [playbackDelay playbackFlyoverTime loopTour savedViews nextViewId
       activeRightSidebarTab set_activeRightSidebarTab set_nextViewId set_savedViews
       set_loopTour set_playbackFlyoverTime set_playbackDelay].
  do 5 (split; [reflexivity|]).
  assert (P : 0 <= Math_max_ids (List.map id views)).
  { unfold Math_max_ids. induction (List.map id views) as [|x l IH]; cbn; lia. }
  split; [|split; [|reflexivity]].
  - intros B. apply js_add_exact. lia.
  - now apply js_add_positive.
Qed.

Lemma import_without_flyover_witness :
  exists st',
    handleFileImport (ok (without_flyover 5 true [sample 7])) false initial
    = imported st' /\
    playbackFlyoverTime st' = 2%Q /\ savedViews st' = [sample 7] /\ nextViewId st' = 8.
Proof.
  destruct (import_without_flyover 5 true [sample 7] initial false (or_introl eq_refl))
    as (_ & st' & E & _ & F & _ & S & N & _ & _).
  exists st'. split; [exact E|]. split; [exact F|]. split; [exact S|]. rewrite N.
  reflexivity.
Defined.

Lemma Math_max_ids_floor (l : list Z) : 0 <= Math_max_ids l.
Proof. unfold Math_max_ids. induction l as [|x l IH]; cbn; lia. Qed.

Lemma Math_max_ids_below (l : list Z) (b : Z) :
  0 < b -> Forall (fun x => x < b) l -> Math_max_ids l < b.
Proof.
  intros Hb H. unfold Math_max_ids. induction H as [|x l Hx _ IH]; cbn; lia.
Qed.

(** X8 (nextViewId after an import).  An import that the model holds
    (views with whole ids and finite numbers) sets [nextViewId] to
    [Math.max(...ids, 0) + 1] as doubles add, which is 1 at least.  When the
    imported ids are below 2^53, every one of them is below [nextViewId]: a
    view saved afterwards gets an id that no imported view has, and when the
    ids in the file are distinct the invariant of the view ids holds again.
    (An id of 2^53 is not below the counter, which is then 2^53 too.)  The
    import shows the tour tab, and leaves the playing and the editing state
    as they are. *)
Theorem import_keeps_counter_ahead (parsed : outcome json) (confirmed : bool)
  (st st' : State) :
  handleFileImport parsed confirmed st = imported st' ->
  nextViewId st' = js_add (Math_max_ids (ids st')) 1 /\
  1 <= nextViewId st' /\
  (Forall (fun v => id v < 2 ^ 53) (savedViews st') ->
   Forall (fun v => id v < nextViewId st') (savedViews st') /\
   (NoDup (ids st') -> ids_fresh st')) /\
  activeRightSidebarTab st' = tour /\
  isPlayingTour st' = isPlayingTour st /\
  editingViewId st' = editingViewId st.
Proof.
  unfold handleFileImport. intros H.
  destruct parsed as [data|]; [|discriminate].
  destruct (validateTourFile data) as [[|]|]; try discriminate.
  destruct ((0 <? List.length (savedViews st))%nat && negb confirmed); [discriminate|].
  destruct (get data "playbackDelay") as [[[ | |delay| | | |]|]|]; try discriminate.
  destruct (get data "playbackFlyoverTime") as [flyover|]; try discriminate.
  destruct (get data "loopTour") as [[[|loop| | | | |]|]|]; try discriminate.
  destruct (get data "views") as [[[ | | | | |views|]|]|]; try discriminate.
  assert (exists vs,
            views_of_json views = Some vs /\
            st' = set_activeRightSidebarTab tour
                    (set_nextViewId (js_add (Math_max_ids (List.map id vs)) 1)
                       (set_savedViews vs
                          (set_loopTour loop
                             (set_playbackFlyoverTime
                                match flyover with Some (JNum f) => f | _ => 2%Q end
                                (set_playbackDelay delay st))))))
    as (vs & _ & ->).
  { destruct (views_of_json views) as [vs|].
    - exists vs. split; [reflexivity|].
      destruct flyover as [[ | | | | | | ]|]; try discriminate; now injection H as <-.
    - destruct flyover as [[ | | | | | | ]|]; discriminate. }
  clear H. unfold ids.
  cbn [savedViews nextViewId activeRightSidebarTab isPlayingTour editingViewId
       set_activeRightSidebarTab set_nextViewId set_savedViews set_loopTour
       set_playbackFlyoverTime set_playbackDelay].
  pose proof (Math_max_ids_floor (List.map id vs)) as F.
  split; [reflexivity|]. split; [now apply js_add_positive|].
  split; [|repeat split].
  intros Small.
  assert (M : Math_max_ids (List.map id vs) < 2 ^ 53).
  { apply Math_max_ids_below; [reflexivity|]. now rewrite Forall_map. }
  rewrite js_add_exact by lia.
  assert (B : Forall (fun v => id v < Math_max_ids (List.map id vs) + 1) vs).
  { apply Forall_forall. intros v Hv.
    pose proof (Math_max_ids_upper (List.map id vs) (id v) (in_map id vs v Hv)). lia. }
  split; [exact B|]. intros Hnd. split; [exact Hnd | exact B].
Qed.

(** The file that [three_views] exports, imported into a fresh component. *)
Definition three_views_file : json :=
  JObj [("playbackDelay", JNum 3);
        ("playbackFlyoverTime", JNum 2);
        ("loopTour", JBool false);
        ("views", JArr (List.map json_of_view [sample 0; sample 1; sample 2]))].

Lemma import_keeps_counter_ahead_witness :
  exists st',
    handleFileImport (ok three_views_file) false initial = imported st' /\
    Forall (fun v => id v < nextViewId st') (savedViews st') /\
    ids_fresh st'.
Proof.
  destruct (handleFileImport (ok three_views_file) false initial) as [st'| | |] eqn:E;
    try (vm_compute in E; discriminate).
  exists st'. split; [reflexivity|].
  destruct (import_keeps_counter_ahead _ _ _ _ E) as (_ & _ & Small & _).
  vm_compute in E. injection E as <-.
  destruct Small as [B Fresh]; [repeat constructor|].
  split; [exact B|]. apply Fresh. unfold ids. cbn.
  repeat constructor; cbn; intuition discriminate.
Defined.

(** At 2^53 the counter is not ahead: the import of a file whose view has
    the id 2^53 leaves [nextViewId] at 2^53. *)
Example import_at_the_limit :
  exists st',
    handleFileImport (ok (without_flyover 3 false [sample (2 ^ 53)])) false initial
    = imported st' /\
    ids st' = [2 ^ 53] /\ nextViewId st' = 2 ^ 53.
Proof. eexists. split; [vm_compute; reflexivity|]. split; reflexivity. Qed.

(** **** What the validation guarantees *)

(** X9 (validation and import).  The import fails, with the tour left
    as it was, exactly for the files that [validateTourFile] does not accept:
    those it rejects and those on which it throws, a view that is [null] for
    one.  A file that it accepts never makes the import fail. *)
Theorem import_fails_iff_invalid (data : json) (confirmed : bool) (st : State) :
  handleFileImport (ok data) confirmed st = import_failed
  <-> validateTourFile data <> ok true.
Proof.
  unfold handleFileImport. split.
  - intros H V. rewrite V in H.
    destruct ((0 <? List.length (savedViews st))%nat && negb confirmed); [discriminate|].
    unfold validateTourFile in V.
    destruct data as [ | | | | | |fields]; try discriminate.
    cbn [is_object negb get] in V, H. cbn [bind] in V.
    destruct (lookup "playbackDelay" fields) as [[ | |delay|inf| | |]|];
      try discriminate; cbn [is_number negb] in V.
    destruct (lookup "playbackFlyoverTime" fields) as [flyover|].
    + destruct flyover; try discriminate; cbn in V;
        destruct (lookup "loopTour" fields) as [[|loop| | | | |]|]; try discriminate;
        destruct (lookup "views" fields) as [[ | | | | |views|]|]; try discriminate;
        destruct (views_of_json views); discriminate.
    + cbn in V.
      destruct (lookup "loopTour" fields) as [[|loop| | | | |]|]; try discriminate;
        destruct (lookup "views" fields) as [[ | | | | |views|]|]; try discriminate;
        destruct (views_of_json views); discriminate.
  - intros V. destruct (validateTourFile data) as [[|]|]; try reflexivity.
    now contradiction V.
Qed.

Lemma import_fails_iff_invalid_examples :
  handleFileImport (ok (JObj [("playbackDelay", JNum 3); ("loopTour", JBool false);
                              ("views", JArr [JNull])])) true initial
  = import_failed /\
  handleFileImport (ok (JObj [("playbackDelay", JStr (u "3")); ("loopTour", JBool false);
                              ("views", JArr [])])) true initial
  = import_failed.
Proof. split; reflexivity. Qed.

End TourViews.

(* ================================================================= *)
(** ** More on the handlers of the map *)

Module Handlers.
Import JS Types App.
Open Scope string_scope.
Open Scope list_scope.
Open Scope Z_scope.

(** *** Clearing the map *)

(** The removals that take every element the component holds off the map. *)
Definition removals (s : State) : list Effect :=
  match marker s with Some m => [remove_marker m] | None => [] end
  ++ List.map remove_polyline (routePolylines s)
  ++ List.map remove_marker (stopMarkers s)
  ++ match backgroundRoutePolyline s with Some line => [remove_polyline line] | None => [] end.

Definition cleared (s : State) : State :=
  set_itineraryData None
    (set_backgroundRoutePolyline None
       (set_stopMarkers []
          (set_routePolylines []
             (set_marker None
                (set_currentAnimationId (currentAnimationId s + 1) s))))).

(** How a handler goes on after one of its steps. *)
Lemma bind_ret {A B : Type} (a : A) (k : A -> M B) (s : State) :
  bind (ret a) k s = k a s.
Proof. unfold bind, ret. now destruct (k a s) as [[b s2] e2]. Qed.

Lemma bind_get {B : Type} (k : State -> M B) (s : State) : bind get k s = k s s.
Proof. unfold bind, get. now destruct (k s s) as [[b s2] e2]. Qed.

Lemma bind_modify {B : Type} (f : State -> State) (k : unit -> M B) (s : State) :
  bind (modify f) k s = k tt (f s).
Proof. unfold bind, modify. now destruct (k tt (f s)) as [[b s2] e2]. Qed.

Lemma bind_emit {B : Type} (e : Effect) (k : unit -> M B) (s : State) :
  bind (emit e) k s
  = (result_of (k tt s), state_of (k tt s), e :: effects_of (k tt s)).
Proof. unfold bind, emit. now destruct (k tt s) as [[b s2] e2]. Qed.

Lemma bind_forEach_emit {A B : Type} (f : A -> Effect) (l : list A) (k : unit -> M B)
  (s : State) :
  bind (forEach l (fun x => emit (f x))) k s
  = (result_of (k tt s), state_of (k tt s), List.map f l ++ effects_of (k tt s)).
Proof. unfold bind. rewrite forEach_emit. now destruct (k tt s) as [[b s2] e2]. Qed.

Lemma bind_bind {A B C : Type} (m : M A) (k : A -> M B) (h : B -> M C) (s : State) :
  bind (bind m k) h s = bind m (fun a => bind (k a) h) s.
Proof.
  unfold bind. destruct (m s) as [[a s1] e1]. destruct (k a s1) as [[b s2] e2].
  destruct (h b s2) as [[c s3] e3]. now rewrite app_assoc.
Qed.

Lemma triple {A : Type} (r : A * State * list Effect) :
  r = (result_of r, state_of r, effects_of r).
Proof. now destruct r as [[a s] e]. Qed.

Ltac steps :=
  repeat first
    [ rewrite bind_bind | rewrite bind_ret | rewrite bind_get | rewrite bind_modify
    | rewrite bind_emit | rewrite bind_forEach_emit ].

Lemma clearMapElements_spec (s : State) :
  _clearMapElements s = (tt, cleared s, removals s).
Proof.
  unfold _clearMapElements, removals, cleared.
  destruct s as [ui0 msgs init err srv mk lines stopsM bg aid it mpg0 speed side].
  rewrite bind_modify, bind_get.
  cbn [marker routePolylines stopMarkers backgroundRoutePolyline currentAnimationId
       set_currentAnimationId].
  destruct mk as [m|], bg as [line|]; steps;
    cbn [modify result_of state_of effects_of fst snd Datatypes.app];
    rewrite ?app_nil_r; reflexivity.
Qed.

Lemma bind_clearMapElements {B : Type} (k : unit -> M B) (s : State) :
  bind _clearMapElements k s
  = (result_of (k tt (cleared s)), state_of (k tt (cleared s)),
     removals s ++ effects_of (k tt (cleared s))).
Proof.
  unfold bind. rewrite clearMapElements_spec. now destruct (k tt (cleared s)) as [[b s2] e2].
Qed.

(** X10 (_clearMapElements).  [_clearMapElements] takes every element
    that the component holds off the map, once each, the marker, the route
    polylines, the stop markers and the background polyline in this order,
    and adds none.  Afterwards the component holds no element and no
    itinerary, and its animation id is one more, so a second call removes
    nothing.  The MPG, the animation speed, the messages and the tour are
    left as they are. *)
Theorem clearMapElements_clears (s : State) :
  let s' := state_of (_clearMapElements s) in
  effects_of (_clearMapElements s) = removals s /\
  marker s' = None /\ routePolylines s' = [] /\ stopMarkers s' = [] /\
  backgroundRoutePolyline s' = None /\ itineraryData s' = None /\
  currentAnimationId s' = currentAnimationId s + 1 /\
  effects_of (_clearMapElements s') = [] /\
  mpg s' = mpg s /\ animationSpeed s' = animationSpeed s /\
  messages s' = messages s /\ sidebar s' = sidebar s /\ services s' = services s.
Proof.
  cbv zeta. rewrite !clearMapElements_spec.
  cbn [state_of effects_of fst snd]. repeat split.
Qed.

(** *** When the map is not ready *)

Definition ready_for_locations (s : State) : bool :=
  mapInitialized s && mapElement (services s) && geocoder (services s)
  && Marker3DElement (services s).

Definition ready_for_directions (s : State) : bool :=
  mapInitialized s && mapElement (services s) && directionsService (services s)
  && Marker3DElement (services s) && Polyline3DElement (services s)
  && geocoder (services s).

(** A query as [handleMapQuery] takes it: for a location when the
    location is not empty, else for directions when there are two stops at
    least. *)
Definition asks_location (params : MapParams) (q : jsstring) : Prop :=
  truthy_location (param_location params) = Some q.

Definition asks_directions (params : MapParams) (stops : list jsstring) : Prop :=
  truthy_location (param_location params) = None /\
  param_stops params = Some stops /\ (2 <= List.length stops)%nat.

Definition with_error (text : string) (s : State) : State :=
  if truthy (mapError s) then s
  else set_messages (messages s ++ [{| role := u "error"; body := u text |}]) s.

Lemma not_ready_locations (s : State) :
  ready_for_locations s = false ->
  negb (mapInitialized s) || negb (mapElement (services s))
  || negb (geocoder (services s)) || negb (Marker3DElement (services s)) = true.
Proof.
  unfold ready_for_locations.
  destruct (mapInitialized s), (mapElement (services s)), (geocoder (services s)),
    (Marker3DElement (services s)); cbn; congruence.
Qed.

Lemma not_ready_directions (s : State) :
  ready_for_directions s = false ->
  negb (mapInitialized s) || negb (mapElement (services s))
  || negb (directionsService (services s)) || negb (Marker3DElement (services s))
  || negb (Polyline3DElement (services s)) || negb (geocoder (services s)) = true.
Proof.
  unfold ready_for_directions.
  destruct (mapInitialized s), (mapElement (services s)),
    (directionsService (services s)), (Marker3DElement (services s)),
    (Polyline3DElement (services s)), (geocoder (services s)); cbn; congruence.
Qed.

(** X11 (the map is not ready).  A query that arrives while the map, or
    a service that the query needs, is missing is dropped: nothing is asked
    of the geocoder or of the directions service, no element of the map is
    removed or added, and the animation id stays.  One error message is
    added to the chat, unless [mapError] is already shown, and a warning is
    logged.  A query for directions still brings the itinerary tab to the
    front. *)
Theorem handleMapQuery_not_ready (params : MapParams) (s : State) :
  (forall q, asks_location params q -> ready_for_locations s = false ->
     exists warning,
       handleMapQuery params s
       = (for_nothing,
          with_error "Map is not ready to display locations. Please check configuration." s,
          [console warning])) /\
  (forall stops, asks_directions params stops -> ready_for_directions s = false ->
     exists warning,
       handleMapQuery params s
       = (for_nothing,
          with_error "Map is not ready for directions. Please check configuration."
            (set_activeRightSidebarTab Tour.itinerary s),
          [console warning])).
Proof.
  split.
  - intros q Hq Hr. unfold asks_location in Hq. eexists.
    unfold handleMapQuery. rewrite Hq. unfold _handleViewLocation.
    unfold bind at 1. unfold bind at 1. cbn [get].
    rewrite (not_ready_locations s Hr). unfold with_error, when, addMessage.
    destruct (truthy (mapError s)); cbn; rewrite ?app_nil_r; reflexivity.
  - intros stops (Hl & Hs & Hn) Hr. eexists.
    unfold handleMapQuery. rewrite Hl, Hs.
    destruct (Nat.leb_spec 2 (List.length stops)) as [_|C]; [|lia].
    unfold _handleDirections.
    unfold bind at 1. cbn [modify]. unfold bind at 1. unfold bind at 1. cbn [get].
    assert (R : ready_for_directions (set_activeRightSidebarTab Tour.itinerary s) = false)
      by exact Hr.
    rewrite (not_ready_directions _ R). unfold with_error, when, addMessage.
    change (mapError (set_activeRightSidebarTab Tour.itinerary s)) with (mapError s).
    destruct (truthy (mapError s)); cbn; rewrite ?app_nil_r; reflexivity.
Qed.

(** *** The request for a route *)

Lemma ready_directions (s : State) :
  ready_for_directions s = true ->
  negb (mapInitialized s) || negb (mapElement (services s))
  || negb (directionsService (services s)) || negb (Marker3DElement (services s))
  || negb (Polyline3DElement (services s)) || negb (geocoder (services s)) = false.
Proof.
  unfold ready_for_directions.
  destruct (mapInitialized s), (mapElement (services s)),
    (directionsService (services s)), (Marker3DElement (services s)),
    (Polyline3DElement (services s)), (geocoder (services s)); cbn; congruence.
Qed.

Lemma ready_locations (s : State) :
  ready_for_locations s = true ->
  negb (mapInitialized s) || negb (mapElement (services s))
  || negb (geocoder (services s)) || negb (Marker3DElement (services s)) = false.
Proof.
  unfold ready_for_locations.
  destruct (mapInitialized s), (mapElement (services s)), (geocoder (services s)),
    (Marker3DElement (services s)); cbn; congruence.
Qed.

(** The request and the record that [_handleDirections] makes of its
    arguments under the animation id [a]. *)
Definition request_of (stopsWithNames : list jsstring) (travelMode : option TravelMode)
  : DirectionsRequest :=
  let stopQueries := stopQueries_of stopsWithNames in
  {| origin := nth_error stopQueries 0;
     destination := nth_error stopQueries (List.length stopQueries - 1);
     waypoints := removelast (skipn 1 stopQueries);
     request_travelMode := match travelMode with Some m => m | None => DRIVING end |}.

Definition pending_of (a : Z) (params : MapParams) (stopsWithNames : list jsstring)
  : Pending :=
  {| animationId := a;
     stopNames := List.map stopName_of stopsWithNames;
     pending_accommodationCosts := param_accommodationCosts params;
     pending_dates := param_dates params;
     selectedTravelMode :=
       match param_travelMode params with Some m => m | None => DRIVING end;
     pending_hotelNames := param_hotelNames params |}.

Lemma ends_of {A : Type} (l : list A) :
  (2 <= List.length l)%nat ->
  exists first last,
    nth_error l 0 = Some first /\ nth_error l (List.length l - 1) = Some last /\
    first :: removelast (skipn 1 l) ++ [last] = l.
Proof.
  intros H. destruct l as [|first t]; [simpl in H; lia|].
  destruct t as [|x t]; [simpl in H; lia|].
  exists first, (List.last (x :: t) first). split; [reflexivity|]. split.
  - cbn [List.length]. replace (S (S (List.length t)) - 1)%nat with (S (List.length t)) by lia.
    change (nth_error (first :: x :: t) (S (List.length t)))
      with (nth_error (x :: t) (List.length t)).
    clear H. revert x. induction t as [|y t IH]; intros x; [reflexivity|].
    cbn [List.length nth_error]. rewrite (IH y). reflexivity.
  - cbn [skipn]. f_equal. symmetry. apply app_removelast_last. discriminate.
Qed.

Lemma handleMapQuery_directions (params : MapParams) (stops : list jsstring)
  (s : State) :
  asks_directions params stops -> ready_for_directions s = true ->
  handleMapQuery params s
  = (for_directions (pending_of (currentAnimationId s + 1) params stops),
     cleared (set_activeRightSidebarTab Tour.itinerary s),
     removals s ++ [request_route (request_of stops (param_travelMode params))]).
Proof.
  intros (Hl & Hs & Hn) Hr.
  unfold handleMapQuery. rewrite Hl, Hs.
  destruct (Nat.leb_spec 2 (List.length stops)) as [_|C]; [|lia].
  unfold _handleDirections. rewrite bind_modify, bind_bind, bind_get.
  assert (R : ready_for_directions (set_activeRightSidebarTab Tour.itinerary s) = true)
    by exact Hr.
  rewrite (ready_directions _ R). rewrite !bind_bind, bind_clearMapElements.
  steps. cbv zeta. steps.
  cbn [ret result_of state_of effects_of fst snd].
  reflexivity.
Qed.

Lemma handleMapQuery_location (params : MapParams) (q : jsstring) (s : State) :
  asks_location params q -> ready_for_locations s = true ->
  handleMapQuery params s = (for_geocoder q, cleared s, removals s ++ [geocode q]).
Proof.
  intros Hq Hr. unfold asks_location in Hq.
  unfold handleMapQuery. rewrite Hq. unfold _handleViewLocation.
  rewrite bind_bind, bind_get, (ready_locations s Hr).
  rewrite !bind_bind, bind_clearMapElements. steps.
  cbn [ret result_of state_of effects_of fst snd]. reflexivity.
Qed.

(** X12 (the request for a route).  A query for two stops or more, on a
    map that is ready, clears the map, brings the itinerary tab to the front
    and asks the directions service once: the route starts at the first
    stop's query, ends at the last one's and passes through the others in
    their order, in the travel mode of the query or, without one, by car.
    The answer is awaited under the animation id that the clearing has just
    set, with the names of the stops and the costs, dates and hotel names of
    the query. *)
Theorem handleMapQuery_asks_route (params : MapParams) (stops : list jsstring)
  (s : State) :
  asks_directions params stops -> ready_for_directions s = true ->
  let req := request_of stops (param_travelMode params) in
  handleMapQuery params s
  = (for_directions (pending_of (currentAnimationId s + 1) params stops),
     cleared (set_activeRightSidebarTab Tour.itinerary s),
     removals s ++ [request_route req]) /\
  exists first last,
    origin req = Some first /\ destination req = Some last /\
    first :: waypoints req ++ [last] = stopQueries_of stops.
Proof.
  intros Ha Hr req. split; [now apply handleMapQuery_directions|].
  destruct Ha as (Hl & Hs & Hn).
  destruct (ends_of (stopQueries_of stops)) as (first & last & H1 & H2 & H3).
  - unfold stopQueries_of. now rewrite length_map.
  - exists first, last. subst req. unfold request_of. cbv zeta.
    cbn [origin destination waypoints]. auto.
Qed.

Lemma handleMapQuery_asks_route_witness :
  effects_of (handleMapQuery trip_params loaded)
  = [request_route {| origin := Some (u "1 Main St"); destination := Some (u "Reno");
                      waypoints := [u "Boise"]; request_travelMode := DRIVING |}] /\
  currentAnimationId (state_of (handleMapQuery trip_params loaded)) = 1.
Proof.
  destruct (handleMapQuery_asks_route trip_params
              [u "Home;;;1 Main St"; u "Boise"; u "Reno"] loaded) as [E _].
  - repeat split. simpl. lia.
  - reflexivity.
  - rewrite E. split; reflexivity.
Defined.

(** *** Stops written as "name;;;query" *)

Lemma startsWith_app (p s t : jsstring) :
  startsWith p s = true -> startsWith p (s ++ t) = true.
Proof.
  revert s. induction p as [|a p IH]; intros s H; [reflexivity|].
  destruct s as [|b s]; [discriminate|]. cbn [startsWith Datatypes.app] in *.
  apply andb_prop in H. destruct H as [H1 H2]. rewrite H1. now apply IH.
Qed.

Lemma startsWith_self (p t : jsstring) : startsWith p (p ++ t) = true.
Proof.
  induction p as [|a p IH]; [reflexivity|]. cbn [Datatypes.app startsWith].
  now rewrite N.eqb_refl, IH.
Qed.

(** A text in which the separator does not occur is one piece. *)
Lemma split_from_absent (sep : jsstring) (s : jsstring) :
  forall cur, includes sep s = false -> split_from sep 0 cur s = [rev cur ++ s].
Proof.
  induction s as [|c s IH]; intros cur H.
  - cbn. now rewrite app_nil_r.
  - cbn [includes] in H. apply orb_false_iff in H. destruct H as [H1 H2].
    cbn [split_from]. rewrite H1. rewrite (IH (c :: cur) H2).
    cbn [rev]. now rewrite <- app_assoc.
Qed.

(** In front of the separator, a match of the separator would lie within
    the name and the separator's first two code units. *)
Lemma startsWith_separator (w q : jsstring) :
  w <> [] ->
  startsWith separator (w ++ separator ++ q) = startsWith separator (w ++ u ";;").
Proof.
  intros H. destruct w as [|a [|b [|c w]]]; [contradiction|..]; cbn;
    repeat match goal with |- context [N.eqb ?x ?y] => destruct (N.eqb x y) end;
    reflexivity.
Qed.

Lemma includes_tail (p : jsstring) (c : N) (s : jsstring) :
  includes p (c :: s) = false -> includes p s = false.
Proof. cbn [includes]. intros H. now apply orb_false_iff in H. Qed.

Lemma includes_head (p : jsstring) (c : N) (s : jsstring) :
  includes p (c :: s) = false -> startsWith p (c :: s) = false.
Proof. cbn [includes]. intros H. now apply orb_false_iff in H. Qed.

Lemma split_entry (name query : jsstring) :
  forall cur,
    includes separator (name ++ u ";;") = false -> includes separator query = false ->
    split_from separator 0 cur (name ++ separator ++ query)
    = [rev cur ++ name; query].
Proof.
  induction name as [|c name IH]; intros cur Hn Hq.
  - cbn [Datatypes.app]. change (separator ++ query) with (59%N :: 59%N :: 59%N :: query).
    cbn [split_from]. change (startsWith separator (59%N :: 59%N :: 59%N :: query))
      with true. cbv iota. rewrite app_nil_r. f_equal.
    change (List.length separator - 1)%nat with 2%nat. cbn [split_from].
    now rewrite (split_from_absent separator query [] Hq).
  - change ((c :: name) ++ separator ++ query) with (c :: (name ++ separator ++ query)).
    cbn [split_from].
    change (c :: (name ++ separator ++ query)) with ((c :: name) ++ separator ++ query).
    assert (Hh : startsWith separator ((c :: name) ++ u ";;") = false)
      by exact (includes_head separator c (name ++ u ";;") Hn).
    assert (Ht : includes separator (name ++ u ";;") = false)
      by exact (includes_tail separator c (name ++ u ";;") Hn).
    rewrite (startsWith_separator (c :: name) query) by discriminate.
    rewrite Hh, (IH (c :: cur) Ht Hq).
    cbn [rev]. now rewrite <- app_assoc.
Qed.

Lemma includes_entry (name query : jsstring) :
  includes separator (name ++ separator ++ query) = true.
Proof.
  induction name as [|c name IH].
  - change ([] ++ separator ++ query) with (separator ++ query).
    replace (includes separator (separator ++ query))
      with (startsWith separator (separator ++ query)
            || match separator ++ query with
               | [] => false
               | _ :: s' => includes separator s'
               end) by (now destruct (separator ++ query)).
    now rewrite startsWith_self.
  - change ((c :: name) ++ separator ++ query) with (c :: (name ++ separator ++ query)).
    cbn [includes]. rewrite IH. apply orb_true_r.
Qed.

(** X13 (stops written as "name;;;query").  [_handleDirections] reads
    back what [_parseItineraryTable] writes: from an entry made of a name,
    the separator ";;;" and a query it takes the name for the label and the
    query for the route, provided the separator occurs neither in the query
    nor in the name followed by ";;"; an entry without the separator is both
    its name and its query.  So every stop of a parsed table is routed by
    its query and labelled by its name. *)
Theorem stop_entry_roundtrip :
  (forall name query,
     includes separator (name ++ u ";;") = false -> includes separator query = false ->
     stopName_of (name ++ separator ++ query) = name /\
     stopQuery_of (name ++ separator ++ query) = Some query) /\
  (forall s, includes separator s = false ->
     stopName_of s = s /\ stopQuery_of s = Some s) /\
  (forall columns : list jsstring,
     includes separator (Table.stopNameForLabel_of columns ++ u ";;") = false ->
     includes separator (Table.query_of columns) = false ->
     stopName_of (Table.stop_of columns) = Table.stopNameForLabel_of columns /\
     stopQuery_of (Table.stop_of columns) = Some (Table.query_of columns)).
Proof.
  assert (R : forall name query,
     includes separator (name ++ u ";;") = false -> includes separator query = false ->
     stopName_of (name ++ separator ++ query) = name /\
     stopQuery_of (name ++ separator ++ query) = Some query).
  { intros name query Hn Hq. unfold stopName_of, stopQuery_of, split.
    rewrite includes_entry, (split_entry name query [] Hn Hq). split; reflexivity. }
  split; [exact R|]. split.
  - intros s H. unfold stopName_of, stopQuery_of. rewrite H. split; reflexivity.
  - intros columns Hn Hq. unfold Table.stop_of. now apply R.
Qed.

Example stop_entry_sample :
  stopName_of (u "Home;;;1 Main St") = u "Home" /\
  stopQuery_of (u "Home;;;1 Main St") = Some (u "1 Main St") /\
  stopName_of (u "a;;;;b") = u "a" /\
  stopQuery_of (u "a;;;;b") = Some (u ";b").
Proof. repeat split; vm_compute; reflexivity. Qed.

(** *** The answer of the geocoder *)

Lemma label_of_length (q : jsstring) : (List.length (label_of q) <= 30)%nat.
Proof.
  unfold label_of. destruct (Nat.ltb_spec 30 (List.length q)) as [H|H]; [|exact H].
  rewrite length_app, length_firstn. change (List.length (u "...")) with 3%nat. lia.
Qed.

(** X14 (the answer of the geocoder).  When the geocoder finds the
    location, the camera flies to it in 1500 ms, tilted by 67.5 degrees at a
    range of 2000 m, and one marker is put there and kept as the component's
    marker; its label is the query, or the first 27 code units of it and
    "..." when the query is longer than 30, so it is never longer than 30.
    An answer without results changes nothing and tells the user nothing.
    A failure adds one error message with the reason to the chat and puts
    nothing on the map. *)
Theorem handleViewLocation_resume_spec (q : jsstring) (s : State) :
  (forall location others,
     let position := {| center_lat := lat location; center_lng := lng location;
                        altitude := Some 0%Q |} in
     let m := {| position := position; label := label_of q; styleColor := None |} in
     _handleViewLocation_resume q (found (location :: others)) s
     = (tt, set_marker (Some m) s,
        [fly_camera_to {| cam_center := position; cam_heading := 0;
                          cam_tilt := 675 # 10; cam_range := 2000 |} 1500;
         append_marker m]) /\
     (List.length (label m) <= 30)%nat /\
     ((List.length q <= 30)%nat -> label m = q) /\
     ((30 < List.length q)%nat -> label m = firstn 27 q ++ u "...")) /\
  _handleViewLocation_resume q (found []) s = (tt, s, []) /\
  (forall reason,
     exists log,
       _handleViewLocation_resume q (not_found reason) s
       = (tt,
          set_messages
            (messages s
             ++ [{| role := u "error";
                    body := u "Could not find location: " ++ q ++ u ". Reason: "
                            ++ reason |}]) s,
          [console log])).
Proof.
  split; [|split].
  - intros location others position m. split; [|split; [|split]].
    + unfold _handleViewLocation_resume. cbv zeta. steps.
      cbn [emit result_of state_of effects_of fst snd]. reflexivity.
    + apply label_of_length.
    + intros H. cbn [label m]. unfold label_of.
      destruct (Nat.ltb_spec 30 (List.length q)); [lia | reflexivity].
    + intros H. cbn [label m]. unfold label_of.
      destruct (Nat.ltb_spec 30 (List.length q)); [reflexivity | lia].
  - reflexivity.
  - intros reason. eexists. unfold _handleViewLocation_resume, addMessage. steps.
    cbn [modify result_of state_of effects_of fst snd]. reflexivity.
Qed.

Section Answers.

Variable sdk : Sdk.
Variable Date_getTime : jsstring -> option Z.

(** *** Answers of the directions service that are not shown *)

(** X15 (answers that are dropped or refused).  An answer of the
    directions service to a request that has been superseded, its animation
    id being no longer the current one, is dropped: the state stays as it is
    and nothing happens.  An answer to the current request whose status is
    not OK, or which holds no route, puts nothing on the map and starts no
    animation; it adds one error message with the status to the chat, and
    the failure is logged. *)
Theorem directions_callback_dropped (p : Pending) (response : option (list Route))
  (status : jsstring) (s : State) :
  (animationId p <> currentAnimationId s ->
     directions_callback sdk Date_getTime p response status s = (None, s, [])) /\
  (animationId p = currentAnimationId s ->
   status <> u "OK" \/ response = None \/ response = Some [] ->
     exists log,
       directions_callback sdk Date_getTime p response status s
       = (None,
          set_messages
            (messages s
             ++ [{| role := u "error";
                    body := u "Could not get directions. Reason: " ++ status |}]) s,
          [console log])).
Proof.
  split.
  - intros H. unfold directions_callback. rewrite bind_get.
    destruct (Z.eqb_spec (animationId p) (currentAnimationId s)) as [C|_];
      [contradiction | reflexivity].
  - intros H Hbad. unfold directions_callback. rewrite bind_get.
    rewrite H, Z.eqb_refl. cbn [negb].
    assert (E : (if jsstring_eqb status (u "OK") then response else None) = None
                \/ (if jsstring_eqb status (u "OK") then response else None) = Some []).
    { destruct Hbad as [Hs|[->| ->]].
      - left. unfold jsstring_eqb.
        destruct (list_eq_dec N.eq_dec status (u "OK")); [contradiction | reflexivity].
      - left. now destruct (jsstring_eqb status (u "OK")).
      - destruct (jsstring_eqb status (u "OK")); [now right | now left]. }
    eexists. destruct E as [-> | ->]; unfold addMessage; steps;
      cbn [ret modify result_of state_of effects_of fst snd]; reflexivity.
Qed.

End Answers.

Lemma directions_callback_dropped_witness :
  directions_callback no_geometry no_clock trip_pending (Some [trip]) (u "OK") loaded
  = (None, loaded, []).
Proof.
  apply (directions_callback_dropped no_geometry no_clock trip_pending (Some [trip])
           (u "OK") loaded).
  discriminate.
Defined.

End Handlers.

(* ================================================================= *)
(** ** More on the itinerary: its stops and legs, fuel costs, trip days *)

Module Itinerary.
Import JS Types App Handlers.
Import TourViews.
Open Scope string_scope.
Open Scope list_scope.
Open Scope Z_scope.

Section Shown.

Variable sdk : Sdk.
Variable Date_getTime : jsstring -> option Z.

(** *** Zooming *)

(** The camera that shows [bounds] whole: above their centre, tilted by 45
    degrees, at 1.7 times their diagonal and at 2000 m at least. *)
Definition camera_over (bounds : LatLngBounds) : Camera :=
  let center := getCenter sdk bounds in
  {| cam_center := {| center_lat := lat center; center_lng := lng center;
                      altitude := Some 0%Q |};
     cam_heading := 0; cam_tilt := 45;
     cam_range :=
       Tour.Math_max
         match spherical sdk with
         | Some computeDistanceBetween =>
             (computeDistanceBetween (getNorthEast sdk bounds) (getSouthWest sdk bounds)
              * (17 # 10))%Q
         | None => 10000%Q
         end 2000 |}.

Lemma zoomToBounds_spec (bounds : LatLngBounds) (s : State) :
  _zoomToBounds sdk bounds s = (tt, s, [fly_camera_to (camera_over bounds) 2000]).
Proof. reflexivity. Qed.

Definition _zoomToLeg (leg : ItineraryLeg) : M unit := _zoomToBounds sdk (leg_bounds leg).

Definition _zoomToStop (stop : ItineraryStop) : M unit :=
  emit (fly_camera_to
          {| cam_center := {| center_lat := lat (location stop);
                              center_lng := lng (location stop);
                              altitude := Some 0%Q |};
             cam_heading := 0; cam_tilt := 675 # 10; cam_range := 2000 |}
          1500).

(** [flyToView(view)] with its default duration or another one. *)
Definition flyToView (view : MapView) (durationMillis : Z) : M unit :=
  s <- get ;;
  if negb (mapElement (services s)) then ret tt
  else
    emit (fly_camera_to
            {| cam_center := center view; cam_heading := heading view;
               cam_tilt := tilt view; cam_range := range view |}
            durationMillis).

Lemma Math_max_floor (x y : Q) : (y <= Tour.Math_max x y)%Q.
Proof.
  unfold Tour.Math_max. destruct (Qlt_le_dec x y) as [H|H]; [apply Qle_refl | exact H].
Qed.

(** X16 (zooming to a stop or a leg, and its tour view).  A click on a
    leg of the itinerary flies the camera, in 2000 ms, over the leg's
    bounds, at a range of 2000 m at least; a click on a stop flies it to the
    stop in 1500 ms.  The tour views that [_addFromItineraryToTour] makes
    hold these same cameras: a click on the view of a leg or of a stop in the
    tour list flies, in 1500 ms, where the click in the itinerary does. *)
Theorem tour_views_repeat_zoom (s : State) :
  mapElement (services s) = true ->
  (forall (leg : ItineraryLeg) (allStops : list ItineraryStop) (next : Z) (index : nat),
     exists cam,
       _zoomToLeg leg s = (tt, s, [fly_camera_to cam 2000]) /\
       flyToView (leg_view_of sdk allStops next index leg) 1500 s
       = (tt, s, [fly_camera_to cam 1500]) /\
       (2000 <= cam_range cam)%Q /\ cam = Tour._getViewForLeg sdk leg) /\
  (forall (stop : ItineraryStop) (next : Z) (index : nat),
     exists cam,
       _zoomToStop stop s = (tt, s, [fly_camera_to cam 1500]) /\
       flyToView (stop_view_of next index stop) 1500 s
       = (tt, s, [fly_camera_to cam 1500]) /\
       cam_range cam = 2000%Q /\ cam = Tour._getViewForStop stop).
Proof.
  intros Hm. split.
  - intros leg allStops next index. exists (camera_over (leg_bounds leg)).
    split; [reflexivity|]. split; [|split].
    + unfold flyToView. rewrite bind_get, Hm. reflexivity.
    + apply Math_max_floor.
    + reflexivity.
  - intros stop next index. eexists. split; [reflexivity|]. split; [|split].
    + unfold flyToView. rewrite bind_get, Hm. reflexivity.
    + reflexivity.
    + reflexivity.
Qed.

(** *** The itinerary that an answer builds *)

Lemma mapi_map {A B C : Type} (f : B -> C) (g : nat -> A -> B) (l : list A) :
  forall i, List.map f (mapi g i l) = mapi (fun k x => f (g k x)) i l.
Proof. induction l as [|x l IH]; intros i; cbn; [reflexivity | now rewrite IH]. Qed.

Lemma mapi_seq {A B : Type} (h : nat -> B) (l : list A) :
  forall i, mapi (fun k _ => h k) i l = List.map h (seq i (List.length l)).
Proof. induction l as [|x l IH]; intros i; cbn; [reflexivity | now rewrite IH]. Qed.

Lemma mapi_plain {A B : Type} (f : A -> B) (l : list A) :
  forall i, mapi (fun _ x => f x) i l = List.map f l.
Proof. induction l as [|x l IH]; intros i; cbn; [reflexivity | now rewrite IH]. Qed.

(** The stops and legs that [process_legs] pushes, one pair for each leg of
    the route. *)
Fixpoint built (p : Pending) (colors : list string) (mpg0 : Q) (l : list RouteLeg)
  (index : nat) (d : ItineraryData) : ItineraryData :=
  match l with
  | [] => d
  | x :: rest =>
      built p colors mpg0 rest (S index)
        (push_leg (leg_of p colors mpg0 x index) (push_stop (stop_of p colors x index) d))
  end.

Lemma process_legs_built (p : Pending) (colors : list string) (l : list RouteLeg) :
  forall (index : nat) (d : ItineraryData) (s : State),
    process_legs p colors l index d s
    = (built p colors (mpg s) l index d,
       set_stopMarkers
         (stopMarkers s ++ mapi (fun k x => marker_of p colors x k) index l) s,
       List.map append_marker (mapi (fun k x => marker_of p colors x k) index l)).
Proof.
  induction l as [|x l IH]; intros index d s.
  - cbn. rewrite app_nil_r. now destruct s.
  - rewrite (triple (process_legs p colors (x :: l) index d s)).
    destruct (process_legs_cons p colors x l index d s) as (E1 & E2 & E3).
    rewrite E1, E2, E3, IH.
    cbn [result_of state_of effects_of fst snd built mapi List.map mpg set_stopMarkers
         stopMarkers].
    rewrite <- app_assoc. reflexivity.
Qed.

Lemma bind_process_legs {B : Type} (p : Pending) (colors : list string)
  (l : list RouteLeg) (index : nat) (d : ItineraryData) (k : ItineraryData -> M B)
  (s : State) :
  let d' := built p colors (mpg s) l index d in
  let ms := mapi (fun k x => marker_of p colors x k) index l in
  let s' := set_stopMarkers (stopMarkers s ++ ms) s in
  bind (process_legs p colors l index d) k s
  = (result_of (k d' s'), state_of (k d' s'),
     List.map append_marker ms ++ effects_of (k d' s')).
Proof.
  cbv zeta. unfold bind. rewrite process_legs_built.
  now destruct (k _ _) as [[b s2] e2].
Qed.

Lemma built_spec (p : Pending) (colors : list string) (mpg0 : Q) (l : list RouteLeg) :
  forall (index : nat) (d : ItineraryData),
    let d' := built p colors mpg0 l index d in
    stops d' = stops d ++ mapi (fun k x => stop_of p colors x k) index l /\
    legs d' = legs d ++ mapi (fun k x => leg_of p colors mpg0 x k) index l /\
    totalFuelCost d'
    = fold_left js_plus
        (List.map fuelCost (mapi (fun k x => leg_of p colors mpg0 x k) index l))
        (totalFuelCost d) /\
    totalDistance d' = totalDistance d /\ totalTime d' = totalTime d /\
    totalAccommodationCost d' = totalAccommodationCost d /\
    totalTripDays d' = totalTripDays d /\ travelMode d' = travelMode d /\
    bounds d' = bounds d.
Proof.
  induction l as [|x l IH]; intros index d; cbv zeta.
  - cbn. rewrite !app_nil_r. repeat split.
  - cbn [built]. specialize (IH (S index)
                (push_leg (leg_of p colors mpg0 x index)
                   (push_stop (stop_of p colors x index) d))).
    cbv zeta in IH. destruct IH as (I1 & I2 & I3 & I4 & I5 & I6 & I7 & I8 & I9).
    rewrite I1, I2, I3, I4, I5, I6, I7, I8, I9.
    cbn [push_leg push_stop stops legs totalFuelCost totalDistance totalTime
         totalAccommodationCost totalTripDays travelMode bounds mapi List.map fold_left].
    rewrite <- !app_assoc. repeat split.
Qed.

(** The stop at the start of the route, the itinerary before the legs are
    processed, and the background polyline. *)
Definition origin_marker (p : Pending) (colors : list string) (first : RouteLeg) : Marker :=
  {| position := position_of (start_location first);
     label := u "1: " ++ nth 0 (stopNames p) [];
     styleColor := nth_error colors 0 |}.

Definition origin_stop (p : Pending) (colors : list string) (first : RouteLeg)
  : ItineraryStop :=
  {| stop_name := nth 0 (stopNames p) [];
     hotelName := at_index (pending_hotelNames p) 0;
     address := start_address first;
     accommodationCost := None;
     location := start_location first;
     stop_marker := origin_marker p colors first;
     stop_color := nth_error colors 0;
     date := at_index (pending_dates p) 0 |}.

Definition empty_itinerary (p : Pending) (route : Route) : ItineraryData :=
  {| stops := []; legs := [];
     totalDistance :=
       fold_left (fun sum leg => sum + value (distance leg)) (route_legs route) 0;
     totalTime :=
       Duration._formatTotalDuration
         (fold_left (fun sum leg => sum + value (duration leg)) (route_legs route) 0);
     totalFuelCost := finite 0;
     totalAccommodationCost :=
       match pending_accommodationCosts p with
       | Some accommodationCosts =>
           fold_left (fun sum cost => (sum + cost)%Q) accommodationCosts 0%Q
       | None => 0%Q
       end;
     totalTripDays := _calculateTripDays Date_getTime (pending_dates p);
     travelMode := selectedTravelMode p;
     bounds := route_bounds route |}.

Definition background_of (route : Route) : Polyline :=
  {| coordinates :=
       List.map position_of
         (flat_map (fun leg => flat_map path (steps leg)) (route_legs route));
     strokeColor := Some "#B0B0B0"; strokeWidth := 10 |}.

(** The itinerary and the markers of a route, under the MPG [mpg0]. *)
Definition itinerary_of (p : Pending) (route : Route) (mpg0 : Q) : ItineraryData :=
  let colors := Spectrum._generateColorSpectrum (List.length (route_legs route)) in
  match route_legs route with
  | first :: _ =>
      built p colors mpg0 (route_legs route) 0
        (push_stop (origin_stop p colors first) (empty_itinerary p route))
  | [] => empty_itinerary p route
  end.

Definition markers_of (p : Pending) (route : Route) : list Marker :=
  let colors := Spectrum._generateColorSpectrum (List.length (route_legs route)) in
  match route_legs route with
  | first :: _ =>
      origin_marker p colors first
      :: mapi (fun k x => marker_of p colors x k) 0 (route_legs route)
  | [] => []
  end.

(** The state when the answer has been taken in, before the animation is
    started anew. *)
Definition taken_in (p : Pending) (route : Route) (s : State) : State :=
  set_backgroundRoutePolyline (Some (background_of route))
    (set_itineraryData (Some (itinerary_of p route (mpg s)))
       (set_stopMarkers (stopMarkers s ++ markers_of p route) s)).

Lemma directions_callback_shown (p : Pending) (route : Route) (others : list Route)
  (s : State) :
  animationId p = currentAnimationId s -> Marker3DElement (services s) = true ->
  directions_callback sdk Date_getTime p (Some (route :: others)) (u "OK") s
  = (result_of (_updateRouteAnimation (taken_in p route s)),
     state_of (_updateRouteAnimation (taken_in p route s)),
     List.map append_marker (markers_of p route)
     ++ [fly_camera_to (camera_over (route_bounds route)) 2000;
         append_polyline (background_of route)]
     ++ effects_of (_updateRouteAnimation (taken_in p route s))).
Proof.
  intros Hid Hm. unfold directions_callback. rewrite bind_get.
  rewrite Hid, Z.eqb_refl. cbn [negb].
  change (jsstring_eqb (u "OK") (u "OK")) with true. cbv iota zeta.
  rewrite Hm. fold (empty_itinerary p route).
  unfold taken_in, itinerary_of, markers_of, background_of. cbv zeta.
  set (colors := Spectrum._generateColorSpectrum (List.length (route_legs route))).
  destruct (route_legs route) as [|first rest] eqn:E.
  - unfold _zoomToBounds. cbv zeta. steps.
    cbn [result_of state_of effects_of fst snd modify List.map Datatypes.app].
    rewrite app_nil_r. destruct s; reflexivity.
  - unfold process_origin, place_marker. cbv zeta. steps.
    fold (origin_marker p colors first). fold (origin_stop p colors first).
    rewrite bind_process_legs.
    cbn [mpg stopMarkers set_stopMarkers]. unfold _zoomToBounds. cbv zeta. steps.
    cbn [result_of state_of effects_of fst snd modify List.map Datatypes.app
         set_stopMarkers stopMarkers].
    rewrite <- !app_assoc. cbn [Datatypes.app].
    destruct s; reflexivity.
Qed.

(** Starting the animation anew changes the route polylines and the
    animation id, and nothing else. *)
Definition same_but_animation (s s' : State) : Prop :=
  s' = set_routePolylines (routePolylines s')
         (set_currentAnimationId (currentAnimationId s') s).

Lemma same_but_animation_refl (s : State) : same_but_animation s s.
Proof. now destruct s. Qed.

Lemma same_but_animation_trans (s1 s2 s3 : State) :
  same_but_animation s1 s2 -> same_but_animation s2 s3 -> same_but_animation s1 s3.
Proof.
  unfold same_but_animation. intros H12 H23. rewrite H23 at 1. rewrite H12 at 1.
  reflexivity.
Qed.

Lemma updateRouteAnimation_same_but_animation :
  respects same_but_animation _updateRouteAnimation.
Proof.
  pose proof same_but_animation_refl. pose proof same_but_animation_trans.
  unfold _updateRouteAnimation, _startAnimation, _drawStaticRoute, _runAnimationLoop,
    iterate, draw, _drawLegPolyline, remove_routePolylines.
  respects_steps;
    try (apply respects_modify; intros s0; unfold same_but_animation;
         now destruct s0).
Qed.

Lemma nth_error_all {A : Type} (l : list A) :
  List.map (nth_error l) (seq 0 (List.length l)) = List.map Some l.
Proof.
  induction l as [|x l IH]; [reflexivity|].
  cbn [List.length seq List.map nth_error]. f_equal.
  rewrite <- seq_shift, map_map. exact IH.
Qed.

(** X17 (the itinerary of an answer).  A successful answer to the
    current request, with a route of [n >= 1] legs, gives an itinerary of
    [n + 1] stops and [n] legs, the legs being those of the route in their
    order.  Stop [k] bears the name [stopNames[k]], its marker the label
    "k+1: name", and from the second stop on the accommodation cost at index
    [k - 1] of the costs.  Leg [k] and the stop it arrives at have colour [k]
    of the spectrum, the first stop has colour 0.  One marker per stop is
    put on the map and kept in [stopMarkers], then the camera flies over the
    bounds of the route and the grey background polyline of the whole path is
    added, before the animation is started. *)
Theorem answer_builds_itinerary (p : Pending) (route : Route) (others : list Route)
  (s : State) :
  animationId p = currentAnimationId s -> Marker3DElement (services s) = true ->
  route_legs route <> [] ->
  let n := List.length (route_legs route) in
  let colors := Spectrum._generateColorSpectrum n in
  let answer :=
    directions_callback sdk Date_getTime p (Some (route :: others)) (u "OK") s in
  exists d animation,
    itineraryData (state_of answer) = Some d /\
    List.length (stops d) = S n /\
    List.map rawLegData (legs d) = route_legs route /\
    List.map stop_name (stops d)
    = List.map (fun k => nth k (stopNames p) []) (seq 0 (S n)) /\
    List.map (fun x => label (stop_marker x)) (stops d)
    = List.map (fun k => u (show (Z.of_nat k + 1)) ++ u ": " ++ nth k (stopNames p) [])
        (seq 0 (S n)) /\
    List.map accommodationCost (stops d)
    = None :: List.map (at_index (pending_accommodationCosts p)) (seq 0 n) /\
    List.map leg_color (legs d) = List.map Some colors /\
    List.map stop_color (stops d) = nth_error colors 0 :: List.map Some colors /\
    stopMarkers (state_of answer) = stopMarkers s ++ List.map stop_marker (stops d) /\
    backgroundRoutePolyline (state_of answer) = Some (background_of route) /\
    effects_of answer
    = List.map append_marker (List.map stop_marker (stops d))
      ++ [fly_camera_to (camera_over (route_bounds route)) 2000;
          append_polyline (background_of route)]
      ++ animation.
Proof.
  intros Hid Hm Hne n colors answer.
  subst answer. rewrite (directions_callback_shown p route others s Hid Hm).
  cbn [state_of effects_of fst snd].
  pose proof (updateRouteAnimation_same_but_animation (taken_in p route s)) as R.
  set (s' := state_of (_updateRouteAnimation (taken_in p route s))) in *.
  exists (itinerary_of p route (mpg s)),
         (effects_of (_updateRouteAnimation (taken_in p route s))).
  assert (Hs' : itineraryData s' = Some (itinerary_of p route (mpg s)) /\
                stopMarkers s' = stopMarkers s ++ markers_of p route /\
                backgroundRoutePolyline s' = Some (background_of route)).
  { rewrite R. repeat split. }
  destruct Hs' as (Hd & Hmk & Hbg).
  unfold itinerary_of, markers_of in *. cbv zeta in *. fold n colors in Hd, Hmk |- *.
  destruct (route_legs route) as [|first rest] eqn:E; [contradiction|].
  destruct (built_spec p colors (mpg s) (first :: rest) 0
              (push_stop (origin_stop p colors first) (empty_itinerary p route)))
    as (Bs & Bl & _).
  cbn [push_stop stops legs empty_itinerary Datatypes.app] in Bs, Bl.
  assert (Ln : List.length (first :: rest) = n) by reflexivity.
  assert (Lc : List.length colors = n).
  { subst colors. apply Spectrum.generateColorSpectrum_length. subst n. cbn. lia. }
  rewrite Hd, Hmk, Hbg, Bs, Bl.
  split; [reflexivity|]. split.
  { cbn [List.length]. now rewrite mapi_length. }
  split.
  { rewrite mapi_map. cbn [leg_of rawLegData].
    rewrite (mapi_plain (fun x : RouteLeg => x)). apply map_id. }
  split.
  { cbn [List.map seq]. f_equal. rewrite mapi_map. cbn [stop_of stop_name].
    rewrite (mapi_seq (fun k => nth (k + 1) (stopNames p) [])), <- seq_shift, map_map.
    rewrite Ln. apply map_ext. intros k. f_equal. lia. }
  split.
  { cbn [List.map seq]. f_equal. rewrite mapi_map.
    cbn [stop_of stop_marker marker_of label].
    rewrite (mapi_seq (fun k => u (show (Z.of_nat k + 2)) ++ u ": "
                                ++ nth (k + 1) (stopNames p) [])),
      <- seq_shift, map_map.
    rewrite Ln. apply map_ext. intros k.
    replace (Z.of_nat (S k) + 1) with (Z.of_nat k + 2) by lia.
    do 3 f_equal. lia. }
  split.
  { cbn [List.map origin_stop accommodationCost]. f_equal. rewrite mapi_map.
    cbn [stop_of accommodationCost].
    now rewrite (mapi_seq (fun k => at_index (pending_accommodationCosts p) k)), Ln. }
  split.
  { rewrite mapi_map. cbn [leg_of leg_color].
    rewrite (mapi_seq (fun k => nth_error colors k)), Ln, <- Lc. apply nth_error_all. }
  split.
  { cbn [List.map origin_stop stop_color]. f_equal. rewrite mapi_map.
    cbn [stop_of stop_color].
    rewrite (mapi_seq (fun k => nth_error colors k)), Ln, <- Lc. apply nth_error_all. }
  split.
  { cbn [List.map origin_stop stop_marker]. do 2 f_equal. rewrite mapi_map.
    cbn [stop_of stop_marker]. reflexivity. }
  split; [reflexivity|].
  cbn [List.map origin_stop stop_marker]. rewrite !mapi_map.
  cbn [stop_of stop_marker]. reflexivity.
Qed.

(** *** Fuel costs *)

Lemma refuel_leg_of (p : Pending) (colors : list string) (mpg0 : Q) (x : RouteLeg)
  (k : nat) :
  selectedTravelMode p = DRIVING -> (0 < mpg0)%Q ->
  refuel mpg0 (leg_of p colors mpg0 x k) = leg_of p colors mpg0 x k.
Proof.
  intros Hd Hpos. unfold refuel, leg_of, fuelCost_of. rewrite Hd.
  cbn [distanceValue distanceText durationText rawLegData leg_bounds leg_color].
  destruct (Qlt_le_dec 0 mpg0) as [_|C]; [reflexivity|].
  exfalso. apply (Qlt_not_le _ _ Hpos C).
Qed.

Lemma refuel_legs (p : Pending) (colors : list string) (mpg0 : Q) (l : list RouteLeg) :
  selectedTravelMode p = DRIVING -> (0 < mpg0)%Q ->
  forall k,
    List.map (refuel mpg0) (mapi (fun k x => leg_of p colors mpg0 x k) k l)
    = mapi (fun k x => leg_of p colors mpg0 x k) k l.
Proof.
  intros Hd Hpos. induction l as [|x l IH]; intros k; [reflexivity|].
  cbn [mapi List.map]. now rewrite IH, (refuel_leg_of p colors mpg0 x k Hd Hpos).
Qed.

(** X18 (the answer and the recalculation agree).  The fuel costs that
    the answer of the directions service puts into the itinerary are those
    that [_recalculateFuelCosts] computes: run on the state that a
    successful answer leaves, with an MPG above 0, it changes nothing. *)
Theorem recalculation_agrees_with_answer (p : Pending) (route : Route)
  (others : list Route) (s : State) :
  animationId p = currentAnimationId s -> Marker3DElement (services s) = true ->
  (0 < mpg s)%Q ->
  let shown :=
    state_of (directions_callback sdk Date_getTime p (Some (route :: others)) (u "OK") s)
  in
  _recalculateFuelCosts shown = (tt, shown, []).
Proof.
  intros Hid Hm Hpos shown. subst shown.
  rewrite (directions_callback_shown p route others s Hid Hm).
  cbn [state_of fst snd].
  pose proof (updateRouteAnimation_same_but_animation (taken_in p route s)) as R.
  set (s' := state_of (_updateRouteAnimation (taken_in p route s))) in *.
  assert (Hd : itineraryData s' = Some (itinerary_of p route (mpg s)))
    by (rewrite R; reflexivity).
  assert (Hmpg : mpg s' = mpg s) by (rewrite R; reflexivity).
  unfold _recalculateFuelCosts. rewrite bind_get, Hd, Hmpg.
  set (d := itinerary_of p route (mpg s)) in *.
  set (colors := Spectrum._generateColorSpectrum (List.length (route_legs route))).
  assert (F : legs d = mapi (fun k x => leg_of p colors (mpg s) x k) 0 (route_legs route)
              /\ totalFuelCost d = fold_left js_plus (List.map fuelCost (legs d)) (finite 0)
              /\ travelMode d = selectedTravelMode p).
  { subst d. unfold itinerary_of. cbv zeta. fold colors.
    destruct (route_legs route) as [|first rest]; [repeat split|].
    destruct (built_spec p colors (mpg s) (first :: rest) 0
                (push_stop (origin_stop p colors first) (empty_itinerary p route)))
      as (_ & Bl & Bf & _ & _ & _ & _ & Bm & _).
    cbn [push_stop legs empty_itinerary Datatypes.app totalFuelCost travelMode]
      in Bl, Bf, Bm.
    rewrite Bl, Bf, Bm. repeat split. }
  destruct F as (Fl & Ff & Fm).
  destruct (travelMode d) eqn:Mode; try reflexivity.
  assert (Same : List.map (refuel (mpg s)) (legs d) = legs d).
  { rewrite Fl. apply refuel_legs; [now symmetry | exact Hpos]. }
  cbv zeta. rewrite Same.
  rewrite (fold_left_map js_plus fuelCost (legs d) (finite 0)), <- Ff.
  assert (Back : {| stops := stops d; legs := legs d; totalDistance := totalDistance d;
                    totalTime := totalTime d; totalFuelCost := totalFuelCost d;
                    totalAccommodationCost := totalAccommodationCost d;
                    totalTripDays := totalTripDays d; travelMode := DRIVING;
                    bounds := bounds d |} = d).
  { rewrite <- Mode. now destruct d. }
  rewrite Back. unfold modify. f_equal. f_equal.
  clear - Hd. destruct s' as [? ? ? ? ? ? ? ? ? ? it ? ? ?]. cbn in Hd. now subst it.
Qed.








(** *** The days of a trip *)

(** X20 (_calculateTripDays).  Without dates, or with fewer than two,
    the trip has no day count.  Otherwise only the first and the last date
    count, in either order: when both are read, the count is the number of
    days begun between them plus one, so 1 for the same instant and [k + 1]
    for dates [k] whole days apart; when one of them cannot be read the
    count is NaN, not undefined. *)
Theorem calculateTripDays_spec (dates : list jsstring) :
  _calculateTripDays Date_getTime None = None /\
  ((List.length dates < 2)%nat -> _calculateTripDays Date_getTime (Some dates) = None) /\
  ((2 <= List.length dates)%nat ->
   let first := nth 0 dates [] in
   let last := nth (List.length dates - 1) dates [] in
   (forall a b, Date_getTime first = Some a -> Date_getTime last = Some b ->
      exists n,
        _calculateTripDays Date_getTime (Some dates) = Some (days n) /\
        1 <= n /\
        (n - 2) * 86400000 < Z.abs (b - a) <= (n - 1) * 86400000 /\
        (forall k, Z.abs (b - a) = k * 86400000 -> n = k + 1)) /\
   (Date_getTime first = None \/ Date_getTime last = None ->
      _calculateTripDays Date_getTime (Some dates) = Some days_NaN)).
Proof.
  split; [reflexivity|]. split.
  - intros H. unfold _calculateTripDays.
    destruct (Nat.ltb_spec (List.length dates) 2); [reflexivity | lia].
  - intros H first last. unfold _calculateTripDays.
    destruct (Nat.ltb_spec (List.length dates) 2) as [C|_]; [lia|].
    fold first last. split.
    + intros a b -> ->. cbv zeta. eexists. split; [reflexivity|].
      change (1000 * 60 * 60 * 24) with 86400000.
      set (x := Z.abs (b - a)).
      assert (Hx : 0 <= x) by apply Z.abs_nonneg.
      pose proof (Z.div_mod (- x) 86400000 ltac:(lia)) as D.
      pose proof (Z.mod_pos_bound (- x) 86400000 ltac:(lia)) as M.
      set (q := - x / 86400000) in *. set (r := (- x) mod 86400000) in *.
      split; [lia|]. split; [lia|]. intros k Hk. lia.
    + intros [-> | ->]; [reflexivity|].
      now destruct (Date_getTime first).
Qed.

End Shown.

Lemma tour_views_repeat_zoom_witness :
  _zoomToStop (sample_stop "Boise" (place 0 0)) loaded
  = flyToView (stop_view_of 0 0 (sample_stop "Boise" (place 0 0))) 1500 loaded.
Proof.
  destruct (tour_views_repeat_zoom no_geometry loaded eq_refl) as [_ H].
  destruct (H (sample_stop "Boise" (place 0 0)) 0 0%nat) as (cam & E1 & E2 & _).
  now rewrite E1, E2.
Defined.


(** The trip of the examples, answered while its request is the current
    one. *)
Lemma answer_builds_itinerary_witness :
  exists d,
    itineraryData shown = Some d /\
    List.map stop_name (stops d) = [u "Home"; u "Boise"; u "Reno"] /\
    List.map (fun x => label (stop_marker x)) (stops d)
    = [u "1: Home"; u "2: Boise"; u "3: Reno"] /\
    List.map accommodationCost (stops d) = [None; Some 165%Q; Some 150%Q] /\
    List.map leg_color (legs d) = [Some "rgb(0, 0, 255)"; Some "rgb(255, 0, 0)"]%string.
Proof.
  destruct (answer_builds_itinerary no_geometry no_clock trip_pending trip [] asked
              eq_refl eq_refl ltac:(discriminate))
    as (d & animation & Hd & _ & _ & Hn & Hl & Hc & Hcol & _).
  exists d. split; [exact Hd|]. split; [rewrite Hn; reflexivity|].
  split; [rewrite Hl; vm_compute; reflexivity|].
  split; [rewrite Hc; reflexivity|]. rewrite Hcol. vm_compute. reflexivity.
Defined.

Lemma recalculation_agrees_with_answer_witness :
  _recalculateFuelCosts shown = (tt, shown, []).
Proof.
  apply (recalculation_agrees_with_answer no_geometry no_clock trip_pending trip []
           asked eq_refl eq_refl).
  reflexivity.
Defined.

(** Dates as milliseconds written in decimal digits, for the example. *)
Definition millis (text : jsstring) : option Z :=
  if jsstring_eqb text (u "2025-08-28") then Some 1756339200000
  else if jsstring_eqb text (u "2025-09-11") then Some 1757548800000
  else None.

Example calculateTripDays_sample :
  _calculateTripDays millis (Some [u "2025-08-28"; u "whenever"; u "2025-09-11"])
  = Some (days 15) /\
  _calculateTripDays millis (Some [u "2025-09-11"; u "2025-08-28"]) = Some (days 15) /\
  _calculateTripDays millis (Some [u "2025-08-28"; u "soon"]) = Some days_NaN.
Proof. repeat split; vm_compute; reflexivity. Qed.

End Itinerary.

(* ================================================================= *)
(** ** Messages of the user and tools of the MCP server *)

Module Chat.
Import JS Types App Handlers.
Open Scope string_scope.
Open Scope list_scope.
Open Scope Z_scope.

Definition set_ui (x : Ui) (s : State) : State :=
  {| ui := x; messages := messages s; mapInitialized := mapInitialized s;
     mapError := mapError s; services := services s; marker := marker s;
     routePolylines := routePolylines s; stopMarkers := stopMarkers s;
     backgroundRoutePolyline := backgroundRoutePolyline s;
     currentAnimationId := currentAnimationId s; itineraryData := itineraryData s;
     mpg := mpg s; animationSpeed := animationSpeed s; sidebar := sidebar s |}.

Definition set_chatState (c : ChatState) (s : State) : State :=
  set_ui {| chatState := c; isRunning := isRunning (ui s);
            inputMessage := inputMessage (ui s); tooltipInfo := tooltipInfo (ui s);
            isChatSidebarCollapsed := isChatSidebarCollapsed (ui s);
            isItinerarySidebarCollapsed := isItinerarySidebarCollapsed (ui s);
            isItinerarySummaryCollapsed := isItinerarySummaryCollapsed (ui s) |} s.

Definition set_inputMessage (m : jsstring) (s : State) : State :=
  set_ui {| chatState := chatState (ui s); isRunning := isRunning (ui s);
            inputMessage := m; tooltipInfo := tooltipInfo (ui s);
            isChatSidebarCollapsed := isChatSidebarCollapsed (ui s);
            isItinerarySidebarCollapsed := isItinerarySidebarCollapsed (ui s);
            isItinerarySummaryCollapsed := isItinerarySummaryCollapsed (ui s) |} s.

Definition setChatState (c : ChatState) : M unit := modify (set_chatState c).

Definition setInputField (message : jsstring) : M unit :=
  modify (set_inputMessage (trimU message)).

(** How [sendMessageAction] ends. *)
Inductive Sent : Type :=
  | ignored                               (* it returned at a guard *)
  | plotted (w : Waiting)                 (* a table, given to [handleMapQuery] *)
  | forwarded (msg msgRole : jsstring)    (* given to [sendMessageHandler] *)
  | not_handled.                          (* there is no [sendMessageHandler] *)

Section Send.

(** The host: the clock and the parsers that [_parseItineraryTable] uses,
    and [String.prototype.toLowerCase]. *)
Variable year : jsstring.
Variable Date_toISOString : jsstring -> option jsstring.
Variable parseFloat : jsstring -> option Q.
Variable toLowerCase : jsstring -> jsstring.

(** The params that a table is plotted with. *)
Definition table_params (parsedItinerary : Table.Parsed) : MapParams :=
  {| param_location := None;
     param_stops := Some (Table.stops parsedItinerary);
     param_legColors := None;
     param_accommodationCosts := Some (Table.accommodationCosts parsedItinerary);
     param_dates := Some (Table.dates parsedItinerary);
     param_travelMode := None;
     param_hotelNames := None |}.

(** The end of [sendMessageAction], for a message that is no table. *)
Definition to_the_model (msg : jsstring) (role : option jsstring)
  (sendMessageHandler : bool) : M Sent :=
  let msgRole :=
    match role with
    | Some (c :: r) => toLowerCase (c :: r)
    | _ => u "user"
    end in
  when (jsstring_eqb msgRole (u "user") && truthy msg) (addMessage "user" msg) ;;
  if sendMessageHandler then ret (forwarded msg msgRole) else ret not_handled.

(** [sendMessageAction] from the point where [msg] is known. *)
Definition send (msg : jsstring) (role : option jsstring) (sendMessageHandler : bool)
  : M Sent :=
  if (List.length msg =? 0)%nat then ret ignored
  else
    let parsedItinerary :=
      Table._parseItineraryTable year Date_toISOString parseFloat msg in
    match parsedItinerary with
    | Some parsed =>
        if (2 <=? List.length (Table.stops parsed))%nat
        then
          addMessage "user" msg ;;
          if sendMessageHandler
          then
            setChatState EXECUTING ;;
            addMessage "assistant" (u "Got it. Plotting this trip for you now...") ;;
            w <- handleMapQuery (table_params parsed) ;;
            setChatState IDLE ;;
            ret (plotted w)
          else ret not_handled
        else to_the_model msg role sendMessageHandler
    | None => to_the_model msg role sendMessageHandler
    end.

(** [sendMessageAction(message, role)]; [sendMessageHandler] tells whether
    the handler is set.  The waiting for [marked.parse] is not modelled: the
    message is shown at once. *)
Definition sendMessageAction (message role : option jsstring)
  (sendMessageHandler : bool) : M Sent :=
  s <- get ;;
  match chatState (ui s) with
  | IDLE =>
      msg <-
        match message with
        | Some (c :: m) => ret (trimU (c :: m))
        | _ =>
            let msg := trimU (inputMessage (ui s)) in
            (if (0 <? List.length msg)%nat then modify (set_inputMessage [])
             else if (List.length (trimU (inputMessage (ui s))) =? 0)%nat
                     && (0 <? List.length (inputMessage (ui s)))%nat
                  then modify (set_inputMessage [])
                  else ret tt) ;;
            ret msg
        end ;;
      send msg role sendMessageHandler
  | _ => ret ignored
  end.

(** A table that [_parseItineraryTable] accepts has two stops at least. *)
Lemma parsed_two_stops (markdown : jsstring) (parsed : Table.Parsed) :
  Table._parseItineraryTable year Date_toISOString parseFloat markdown = Some parsed ->
  (2 <= List.length (Table.stops parsed))%nat /\ markdown <> [].
Proof.
  intros H. split.
  - unfold Table._parseItineraryTable in H.
    destruct ((List.length (Table.lines_of markdown) <? 3)%nat
              || negb (includes Table.bar (nth 0 (Table.lines_of markdown) []))
              || negb (includes (u "--") (nth 1 (Table.lines_of markdown) [])));
      [discriminate|].
    destruct (Table.scan year Date_toISOString parseFloat _ [] [] []) as [[st dt] rt].
    destruct (Nat.ltb_spec (List.length st) 2) as [C|C]; [discriminate|].
    injection H as <-. exact C.
  - intros ->. discriminate.
Qed.

Definition turn (r : string) (markdown : jsstring) : Message :=
  {| role := u r; body := markdown |}.

Lemma set_inputMessage_blank (s : State) :
  inputMessage (ui s) = [] -> set_inputMessage [] s = s.
Proof. destruct s as [[c r i t a b d] ? ? ? ? ? ? ? ? ? ? ? ? ?]. cbn. now intros ->. Qed.

(** The typed text is taken from the input field, which is emptied. *)
Lemma typed_message (role : option jsstring) (handler : bool) (s : State) :
  chatState (ui s) = IDLE ->
  sendMessageAction None role handler s
  = send (trimU (inputMessage (ui s))) role handler (set_inputMessage [] s).
Proof.
  intros Hidle. unfold sendMessageAction. rewrite bind_get, Hidle.
  rewrite bind_bind.
  destruct (Nat.ltb_spec 0 (List.length (trimU (inputMessage (ui s))))) as [P|P].
  - rewrite bind_modify, bind_ret. reflexivity.
  - assert (E : List.length (trimU (inputMessage (ui s))) = 0%nat) by lia.
    rewrite E. cbn [Nat.eqb andb].
    destruct (Nat.ltb_spec 0 (List.length (inputMessage (ui s)))) as [Q|Q].
    + rewrite bind_modify, bind_ret. reflexivity.
    + rewrite !bind_ret. rewrite set_inputMessage_blank; [reflexivity|].
      destruct (inputMessage (ui s)); [reflexivity | cbn in Q; lia].
Qed.

(** X21 (a pasted itinerary table).  When the chat is idle and the
    typed text, trimmed, is an itinerary table that [_parseItineraryTable]
    accepts, the text is not given to the model: it is shown as the user's
    turn, and with a [sendMessageHandler] set and the map ready the trip is
    asked of the directions service at once, by car, with the stops, the
    dates and the accommodation costs of the table, two stops at least.  The
    reply "Got it. Plotting this trip for you now..." is shown, the input
    field is emptied, and the chat is idle again when the request has been
    made. *)
Theorem pasted_table_is_plotted (role : option jsstring) (s : State)
  (parsed : Table.Parsed) :
  chatState (ui s) = IDLE ->
  Table._parseItineraryTable year Date_toISOString parseFloat
    (trimU (inputMessage (ui s))) = Some parsed ->
  ready_for_directions s = true ->
  let msg := trimU (inputMessage (ui s)) in
  exists p s',
    sendMessageAction None role true s
    = (plotted (for_directions p), s',
       removals s ++ [request_route (request_of (Table.stops parsed) None)]) /\
    stopNames p = List.map stopName_of (Table.stops parsed) /\
    (2 <= List.length (stopNames p))%nat /\
    selectedTravelMode p = DRIVING /\
    pending_accommodationCosts p = Some (Table.accommodationCosts parsed) /\
    pending_dates p = Some (Table.dates parsed) /\
    animationId p = currentAnimationId s' /\
    messages s'
    = messages s
      ++ [turn "user" msg;
          turn "assistant" (u "Got it. Plotting this trip for you now...")] /\
    chatState (ui s') = IDLE /\ inputMessage (ui s') = [] /\
    itineraryData s' = None /\
    Tour.activeRightSidebarTab (sidebar s') = Tour.itinerary.
Proof.
  intros Hidle Hp Hr msg. rewrite (typed_message role true s Hidle). fold msg.
  destruct (parsed_two_stops msg parsed Hp) as [Two Hne].
  unfold send.
  assert (L : (List.length msg =? 0)%nat = false)
    by (destruct msg; [contradiction | reflexivity]).
  rewrite L. cbv zeta. fold msg in Hp. rewrite Hp.
  destruct (Nat.leb_spec 2 (List.length (Table.stops parsed))) as [_|C]; [|lia].
  unfold addMessage, setChatState. rewrite !bind_modify.
  unfold bind at 1.
  match goal with
  | |- context [handleMapQuery (table_params parsed) ?s0] =>
      rewrite (handleMapQuery_directions (table_params parsed) (Table.stops parsed) s0)
  end.
  - rewrite bind_modify. cbn [ret].
    eexists. eexists. split; [rewrite app_nil_r; reflexivity|].
    cbn [pending_of stopNames selectedTravelMode pending_accommodationCosts pending_dates
         animationId table_params param_travelMode param_accommodationCosts param_dates].
    split; [reflexivity|]. split; [now rewrite length_map|].
    do 4 (split; [reflexivity|]).
    split; [cbn; now rewrite <- app_assoc|].
    repeat (split; [reflexivity|]). reflexivity.
  - repeat split. exact Two.
  - exact Hr.
Qed.

(** X22 (what is not sent).  While the chat is not idle a message is
    ignored: nothing is shown, sent or changed.  With an idle chat, an empty
    input field or one that holds white space only sends nothing either; it
    is emptied.  A text that is no itinerary table is shown as the user's
    turn and given to [sendMessageHandler] under the role "user", the map
    being left alone. *)
Theorem sendMessageAction_gate (message role : option jsstring) (handler : bool)
  (s : State) :
  (chatState (ui s) <> IDLE ->
     sendMessageAction message role handler s = (ignored, s, [])) /\
  (chatState (ui s) = IDLE -> trimU (inputMessage (ui s)) = [] ->
     sendMessageAction None role handler s = (ignored, set_inputMessage [] s, [])) /\
  (chatState (ui s) = IDLE -> trimU (inputMessage (ui s)) <> [] ->
   Table._parseItineraryTable year Date_toISOString parseFloat
     (trimU (inputMessage (ui s))) = None ->
     sendMessageAction None None true s
     = (forwarded (trimU (inputMessage (ui s))) (u "user"),
        set_messages (messages s ++ [turn "user" (trimU (inputMessage (ui s)))])
          (set_inputMessage [] s),
        [])).
Proof.
  split; [|split].
  - intros H. unfold sendMessageAction. rewrite bind_get.
    destruct (chatState (ui s)); [contradiction|..]; reflexivity.
  - intros Hidle Hb. rewrite (typed_message role handler s Hidle), Hb. reflexivity.
  - intros Hidle Hb Hp. rewrite (typed_message None true s Hidle).
    unfold send. rewrite Hp.
    destruct (trimU (inputMessage (ui s))) as [|c m]; [contradiction|].
    cbn [List.length Nat.eqb]. cbv zeta. unfold to_the_model. cbv zeta.
    change (jsstring_eqb (u "user") (u "user")) with true.
    cbn [truthy andb when]. unfold addMessage. rewrite bind_modify. reflexivity.
Qed.

End Send.

(** The loaded page with a text typed into the input field. *)
Definition typed (text : jsstring) : State := set_inputMessage text loaded.

Lemma pasted_table_is_plotted_witness :
  exists w s',
    sendMessageAction (u "2025") (fun _ => None) (fun _ => Some 165%Q) (fun r => r)
      None None true (typed Table.sample_table)
    = (plotted w, s',
       [request_route {| origin := Some (u "1 Main St");
                         destination := Some (u "Boise, Capitol Blvd");
                         waypoints := []; request_travelMode := DRIVING |}]) /\
    chatState (ui s') = IDLE /\ inputMessage (ui s') = [].
Proof.
  destruct (Table._parseItineraryTable (u "2025") (fun _ => None)
              (fun _ => Some 165%Q)
              (trimU (inputMessage (ui (typed Table.sample_table)))))
    as [parsed|] eqn:E; [|vm_compute in E; discriminate].
  destruct (pasted_table_is_plotted (u "2025") (fun _ => None) (fun _ => Some 165%Q)
              (fun r => r) None (typed Table.sample_table) parsed
              eq_refl E eq_refl)
    as (p & s' & H & _ & _ & _ & _ & _ & _ & _ & Hc & Hi & _).
  exists (for_directions p), s'. split; [|split; assumption].
  rewrite H. vm_compute in E. injection E as <-. reflexivity.
Defined.

Example sendMessageAction_gate_blank :
  sendMessageAction (u "2025") (fun _ => None) (fun _ => None) (fun r => r)
    None None true (typed (u "   "))
  = (ignored, loaded, []).
Proof. reflexivity. Qed.

End Chat.

(* ================================================================= *)
(** ** Playing the tour *)

Module Playback.
Import JS Types Tour.
Open Scope list_scope.
Open Scope Z_scope.

(** A call of [map.flyCameraTo], with a duration that need not be whole. *)
Record Flight : Type := { endCamera : Camera; durationMillis : Q }.

(** [flyToView(view, durationMillis)]; [map] tells whether [this.map] is
    there. *)
Definition flyToView (map : bool) (view : MapView) (durationMillis : Q) : list Flight :=
  if negb map then []
  else [{| endCamera := {| cam_center := center view; cam_heading := heading view;
                           cam_tilt := tilt view; cam_range := range view |};
           durationMillis := durationMillis |}].

(** The two [await]s of [playTour]. *)
Inductive Phase : Type :=
  | flying      (* [setTimeout(resolve, flyoverMillis)] *)
  | pausing.    (* [setTimeout(resolve, this.playbackDelay * 1000)] *)

(** [playTour] waiting for a timer: the views that its [for...of] has still
    to visit, which of the two timers it waits for, and the timer's delay.
    Every assignment to [this.savedViews] is of a new array, so that the
    array that the loop goes through is the one it began with. *)
Record Paused : Type := { views_left : list MapView; phase : Phase; timeout : Q }.

Inductive Outcome : Type :=
  | returned
  | waiting (p : Paused)
  | out_of_fuel.       (* the [while] loop has gone round [fuel] times *)

(** The calls of [flyCameraTo] made, the state, and how the run goes on. *)
Definition Step : Type := list Flight * State * Outcome.

(** The last statement, [this.isPlayingTour = false]. *)
Definition finish (st : State) : Step := ([], set_isPlayingTour false st, returned).

(** The [for...of] loop entered at the views [rest]: it leaves ([None]), the
    array being at its end or by [break], or it flies to a view and waits. *)
Definition body_from (map : bool) (rest : list MapView) (st : State)
  : option (list Flight * Paused) :=
  match rest with
  | [] => None
  | view :: rest' =>
      if negb (isPlayingTour st) then None
      else
        let flyoverMillis := (playbackFlyoverTime st * 1000)%Q in
        Some (flyToView map view flyoverMillis,
              {| views_left := rest'; phase := flying; timeout := flyoverMillis |})
  end.

(** The [while (this.isPlayingTour)] loop, from its test. *)
Fixpoint rounds (fuel : nat) (map : bool) (st : State) : Step :=
  match fuel with
  | O => ([], st, out_of_fuel)
  | S fuel' =>
      if isPlayingTour st
      then
        match body_from map (savedViews st) st with
        | Some (flights, p) => (flights, st, waiting p)
        | None => if negb (loopTour st) then finish st else rounds fuel' map st
        end
      else finish st
  end.

(** [playTour()], to its first [await] or to its end. *)
Definition playTour (fuel : nat) (map : bool) (st : State) : Step :=
  if isPlayingTour st || (List.length (savedViews st) =? 0)%nat then ([], st, returned)
  else rounds fuel map (set_isPlayingTour true st).

(** The rest of the [while] loop after its [for...of]. *)
Definition after_for (fuel : nat) (map : bool) (st : State) : Step :=
  if negb (loopTour st) then finish st else rounds fuel map st.

(** The [for...of] loop taken up again at the views [rest]. *)
Definition continue_for (fuel : nat) (map : bool) (rest : list MapView) (st : State)
  : Step :=
  match body_from map rest st with
  | Some (flights, p) => (flights, st, waiting p)
  | None => after_for fuel map st
  end.

(** [playTour] going on when its timer has fired, in the state [st] of that
    moment. *)
Definition resume (fuel : nat) (map : bool) (p : Paused) (st : State) : Step :=
  match phase p with
  | flying =>
      if negb (isPlayingTour st) then after_for fuel map st
      else ([], st,
            waiting {| views_left := views_left p; phase := pausing;
                       timeout := (playbackDelay st * 1000)%Q |})
  | pausing => continue_for fuel map (views_left p) st
  end.

(** What is seen of a run. *)
Inductive Event : Type :=
  | flown (f : Flight)
  | waited (millis : Q).

(** A run of [playTour] with the handlers [between] run while it waits: one
    handler before each timer fires.  The run is followed until it ends or
    the handlers are used up. *)
Fixpoint drive (fuel : nat) (map : bool) (between : list (State -> State)) (now : Step)
  : list Event * State * Outcome :=
  let '(flights, st, o) := now in
  match o, between with
  | waiting p, handler :: later =>
      let '(events, st', o') :=
        drive fuel map later (resume fuel map p (handler st)) in
      (List.map flown flights ++ waited (timeout p) :: events, st', o')
  | _, _ => (List.map flown flights, st, o)
  end.

(** A handler that leaves the settings of the playback alone. *)
Definition keeps_playback (handler : State -> State) : Prop :=
  forall st,
    isPlayingTour (handler st) = isPlayingTour st /\
    loopTour (handler st) = loopTour st /\
    playbackFlyoverTime (handler st) = playbackFlyoverTime st /\
    playbackDelay (handler st) = playbackDelay st.

(** The handlers of the list of views that are not disabled while the tour
    is played leave them alone. *)
Lemma edits_keep_playback (i : Z) (newName : jsstring) (view : MapView) :
  keeps_playback (deleteView i) /\ keeps_playback (handleDragStart view) /\
  keeps_playback (handleDrop view) /\ keeps_playback (saveViewName i newName).
Proof.
  repeat split;
    unfold deleteView, handleDragStart, handleDrop, saveViewName;
    repeat match goal with
           | |- context [match ?x with _ => _ end] => destruct x
           end;
    reflexivity.
Qed.

(** What is seen of the visit of one view. *)
Definition visit (map : bool) (flyover delay : Q) (view : MapView) : list Event :=
  List.map flown (flyToView map view (flyover * 1000)%Q)
  ++ [waited (flyover * 1000)%Q; waited (delay * 1000)%Q].

Definition after (between : list (State -> State)) (st : State) : State :=
  fold_left (fun s handler => handler s) between st.

Lemma finish_stopped (st : State) : isPlayingTour st = false -> finish st = ([], st, returned).
Proof.
  intros H. unfold finish. destruct st. cbn in *. now subst.
Qed.

Lemma after_keeps (between : list (State -> State)) (st : State) :
  Forall keeps_playback between ->
  isPlayingTour (after between st) = isPlayingTour st /\
  loopTour (after between st) = loopTour st /\
  playbackFlyoverTime (after between st) = playbackFlyoverTime st /\
  playbackDelay (after between st) = playbackDelay st.
Proof.
  intros H. revert st. induction H as [|h l Hh _ IH]; intros st; [now cbn|].
  cbn [after fold_left]. destruct (IH (h st)) as (A & B & C & D).
  destruct (Hh st) as (A' & B' & C' & D').
  unfold after in *. repeat split; congruence.
Qed.

(** A round that is not stopped goes through the views it has left. *)
Lemma drive_round (fuel : nat) (map : bool) (rest : list MapView) :
  forall (between : list (State -> State)) (st : State),
  isPlayingTour st = true -> loopTour st = false ->
  List.length between = (2 * List.length rest)%nat ->
  Forall keeps_playback between ->
  drive fuel map between (continue_for fuel map rest st)
  = (flat_map (visit map (playbackFlyoverTime st) (playbackDelay st)) rest,
     set_isPlayingTour false (after between st), returned).
Proof.
  induction rest as [|view rest IH]; intros between st Hp Hl Hn Hk.
  - destruct between; [|discriminate].
    unfold continue_for, body_from, after_for. rewrite Hl. reflexivity.
  - destruct between as [|h1 [|h2 later]]; try (cbn in Hn; lia).
    inversion Hk as [|? ? K1 Hk']; subst. inversion Hk' as [|? ? K2 Hk'']; subst.
    destruct (K1 st) as (A1 & B1 & C1 & D1).
    destruct (K2 (h1 st)) as (A2 & B2 & C2 & D2).
    unfold continue_for at 1. unfold body_from. rewrite Hp. cbn [negb].
    cbv zeta. cbn [drive timeout].
    unfold resume at 1. cbn [phase views_left]. rewrite A1, Hp. cbn [negb].
    cbn [drive timeout].
    unfold resume at 1. cbn [phase views_left].
    rewrite (IH later (h2 (h1 st))); try congruence; [|cbn in Hn; lia].
    cbn [flat_map after fold_left]. unfold visit at 2.
    rewrite ?C2, ?D2, ?C1, ?D1. rewrite <- !app_assoc. reflexivity.
Qed.

(** X23 (a tour that is played once).  Play on a tour that is not
    being played and has views, without Loop: whatever handlers run while
    the tour waits for its timers, as long as they leave the settings of the
    playback alone, the tour goes once through the views that were saved
    when Play was pressed, in their order, flying to each for the flyover
    time and then waiting for the delay.  Views deleted or moved meanwhile
    are visited as they were.  It ends with [isPlayingTour] false. *)
Theorem playTour_plays_saved_views (fuel : nat) (map : bool)
  (between : list (State -> State)) (st : State) :
  isPlayingTour st = false -> loopTour st = false -> savedViews st <> [] ->
  List.length between = (2 * List.length (savedViews st))%nat ->
  Forall keeps_playback between ->
  drive (S fuel) map between (playTour (S fuel) map st)
  = (flat_map (visit map (playbackFlyoverTime st) (playbackDelay st)) (savedViews st),
     set_isPlayingTour false (after between (set_isPlayingTour true st)), returned).
Proof.
  intros Hp Hl Hv Hn Hk. unfold playTour. rewrite Hp.
  destruct (savedViews st) as [|view rest] eqn:E; [contradiction|].
  cbn [List.length Nat.eqb orb].
  assert (R : rounds (S fuel) map (set_isPlayingTour true st)
              = continue_for (S fuel) map (view :: rest) (set_isPlayingTour true st)).
  { cbn [rounds]. unfold continue_for.
    replace (savedViews (set_isPlayingTour true st)) with (view :: rest)
      by (now rewrite <- E).
    reflexivity. }
  rewrite R. rewrite (drive_round (S fuel) map (view :: rest) between); auto.
Qed.

Lemma playTour_plays_saved_views_witness :
  drive 1 true
    [deleteView 1; deleteView 2; (fun st => st); (fun st => st);
     (fun st => st); (fun st => st)]
    (playTour 1 true three_views)
  = (flat_map (visit true 2 3) [sample 0; sample 1; sample 2],
     set_savedViews [sample 0] three_views, returned).
Proof.
  rewrite (playTour_plays_saved_views 0 true _ three_views).
  - reflexivity.
  - reflexivity.
  - reflexivity.
  - discriminate.
  - reflexivity.
  - repeat constructor.
Defined.

(** The loop of a looping tour that has no view left goes round for ever. *)
Lemma rounds_no_views (map : bool) (st : State) :
  isPlayingTour st = true -> loopTour st = true -> savedViews st = [] ->
  forall fuel, rounds fuel map st = ([], st, out_of_fuel).
Proof.
  intros Hp Hl Hv fuel. induction fuel as [|fuel IH]; [reflexivity|].
  cbn [rounds]. rewrite Hp, Hv, Hl. exact IH.
Qed.

(** X24 (a looping tour whose views are all deleted).  The views can be
    deleted one by one while the tour is played.  When a looping tour has
    ended its round and finds no view left, [playTour] neither waits for a
    timer nor returns any more: its [while] loop goes round without end,
    however often it is let go round. *)
Theorem playTour_loops_without_views (map : bool) (p : Paused) (st : State) :
  isPlayingTour st = true -> loopTour st = true -> savedViews st = [] ->
  views_left p = [] -> phase p = pausing ->
  forall fuel, resume fuel map p st = ([], st, out_of_fuel).
Proof.
  intros Hp Hl Hv Hr Hph fuel. unfold resume. rewrite Hph, Hr.
  unfold continue_for, body_from, after_for. rewrite Hl.
  now apply rounds_no_views.
Qed.

(** A tour of one view, which loops. *)
Definition one_view_looping : State :=
  set_loopTour true (set_savedViews [sample 0] initial).

Lemma playTour_loops_without_views_witness :
  resume 1000 true {| views_left := []; phase := pausing; timeout := 3 * 1000 |}
    (deleteView 0 (set_isPlayingTour true one_view_looping))
  = ([], set_savedViews [] (set_isPlayingTour true one_view_looping), out_of_fuel).
Proof.
  apply (playTour_loops_without_views true
           {| views_left := []; phase := pausing; timeout := 3 * 1000 |}
           (deleteView 0 (set_isPlayingTour true one_view_looping)));
    reflexivity.
Defined.

(** Play, and the one view deleted during its flyover. *)
Example playTour_view_deleted :
  drive 1000 true [deleteView 0; (fun st => st)]
    (playTour 1000 true one_view_looping)
  = ([flown {| endCamera := origin; durationMillis := 2 * 1000 |};
      waited (2 * 1000); waited (3 * 1000)],
     set_savedViews [] (set_isPlayingTour true one_view_looping),
     out_of_fuel).
Proof. vm_compute. reflexivity. Qed.

(** X25 (Stop, and Play pressed too soon).  Stop only sets
    [isPlayingTour] to false: a tour that finds it false when its timer
    fires flies nowhere and returns.  The tour does not tell its own run
    from a later one: when Play is pressed again before the timer of the
    stopped tour has fired, the stopped tour goes on with the views it had
    left, beside the new one. *)
Theorem playTour_stop (fuel : nat) (map : bool) (p : Paused) (st : State) :
  isPlayingTour st = false ->
  resume (S fuel) map p st = ([], st, returned) /\
  (savedViews st <> [] -> phase p = flying ->
   exists flights first st',
     playTour (S fuel) map st = (flights, st', waiting first) /\
     resume (S fuel) map p st'
     = ([], st',
        waiting {| views_left := views_left p; phase := pausing;
                   timeout := (playbackDelay st * 1000)%Q |})).
Proof.
  intros Hp. split.
  - unfold resume, continue_for, body_from, after_for. cbn [rounds].
    rewrite Hp. cbn [negb].
    rewrite (finish_stopped st Hp).
    destruct (phase p), (views_left p), (loopTour st); reflexivity.
  - intros Hv Hph. unfold playTour. rewrite Hp.
    destruct (savedViews st) as [|view rest] eqn:E; [contradiction|].
    cbn [List.length Nat.eqb orb rounds].
    replace (savedViews (set_isPlayingTour true st)) with (view :: rest)
      by (now rewrite <- E).
    cbn [body_from isPlayingTour set_isPlayingTour negb]. cbv zeta.
    eexists. eexists. eexists. split; [reflexivity|].
    unfold resume. rewrite Hph. reflexivity.
Qed.

Lemma playTour_stop_witness :
  resume 1 true {| views_left := [sample 1]; phase := pausing; timeout := 3 |}
    three_views
  = ([], three_views, returned).
Proof.
  destruct (playTour_stop 0 true
              {| views_left := [sample 1]; phase := pausing; timeout := 3 |}
              three_views eq_refl) as [H _].
  exact H.
Defined.

End Playback.

(* ================================================================= *)
(** ** The tools of the MCP server *)

Module McpServer.
Import JS Types App Handlers.
Open Scope string_scope.
Open Scope list_scope.
Open Scope Z_scope.

(** The arguments of [directions_on_google_maps], checked by its schema. *)
Record DirectionsArgs : Type := {
  stops : list jsstring;
  hotelNames : option (list jsstring);
  accommodationCosts : option (list Q);
  dates : option (list jsstring);
  travelMode : option TravelMode
}.

(** [z.array(z.string()).min(2)] *)
Definition schema_accepts (args : DirectionsArgs) : bool :=
  (2 <=? List.length (stops args))%nat.

Section Tools.

(** The callback that [startMcpGoogleMapServer] is given. *)
Variable mapQueryHandler : MapParams -> M Waiting.

(** The callback of the tool [view_location_google_maps]; it returns the
    text of its reply. *)
Definition view_location_google_maps (query : jsstring) : M jsstring :=
  mapQueryHandler
    {| param_location := Some query; param_stops := None; param_legColors := None;
       param_accommodationCosts := None; param_dates := None;
       param_travelMode := None; param_hotelNames := None |} ;;
  ret (u "Navigating to: " ++ query).

(** The callback of the tool [directions_on_google_maps]. *)
Definition directions_on_google_maps (args : DirectionsArgs) : M jsstring :=
  mapQueryHandler
    {| param_location := None; param_stops := Some (stops args);
       param_legColors := None;
       param_accommodationCosts := accommodationCosts args;
       param_dates := dates args; param_travelMode := travelMode args;
       param_hotelNames := hotelNames args |} ;;
  ret (u "Calculating directions and itinerary for stops: "
       ++ join (u " -> ") (stops args)).

End Tools.

(** The server as [index.tsx] starts it: the callback is
    [mapApp.handleMapQuery]. *)
Definition view_location (query : jsstring) : M jsstring :=
  view_location_google_maps handleMapQuery query.

Definition directions (args : DirectionsArgs) : M jsstring :=
  directions_on_google_maps handleMapQuery args.

(** X26 (what the tools do to the map).  On a map that is ready, the
    tool [view_location_google_maps] clears the map and asks the geocoder for
    its query, as it is written; with an empty query it replies as ever and
    leaves the map and the state as they are.  The tool
    [directions_on_google_maps], whose schema wants two stops at least, never
    takes the branch of a location: it clears the map, brings the itinerary
    tab to the front and asks for one route through its stops.  The replies
    name the query and the stops, joined by " -> ". *)
Theorem tools_spec (s : State) :
  view_location [] s = (u "Navigating to: ", s, []) /\
  (forall query, query <> [] -> ready_for_locations s = true ->
     view_location query s
     = (u "Navigating to: " ++ query, cleared s, removals s ++ [geocode query])) /\
  (forall args, schema_accepts args = true -> ready_for_directions s = true ->
     directions args s
     = (u "Calculating directions and itinerary for stops: "
        ++ join (u " -> ") (stops args),
        cleared (set_activeRightSidebarTab Tour.itinerary s),
        removals s ++ [request_route (request_of (stops args) (travelMode args))])).
Proof.
  split; [|split].
  - unfold view_location, view_location_google_maps, handleMapQuery.
    cbn [param_location truthy_location param_stops]. now rewrite bind_ret.
  - intros query Hq Hr. unfold view_location, view_location_google_maps.
    unfold bind at 1.
    rewrite (handleMapQuery_location _ query s);
      [| destruct query; [contradiction | reflexivity] | exact Hr].
    cbn [ret]. now rewrite app_nil_r.
  - intros args Ha Hr. unfold directions, directions_on_google_maps.
    unfold bind at 1.
    rewrite (handleMapQuery_directions _ (stops args) s);
      [| repeat split; now apply Nat.leb_le | exact Hr].
    cbn [ret param_travelMode]. now rewrite app_nil_r.
Qed.

Example tools_spec_sample :
  directions {| stops := [u "Boise"; u "Reno"]; hotelNames := None;
                accommodationCosts := None; dates := None;
                travelMode := Some WALKING |} loaded
  = (u "Calculating directions and itinerary for stops: Boise -> Reno",
     set_currentAnimationId 1 loaded,
     [request_route {| origin := Some (u "Boise"); destination := Some (u "Reno");
                       waypoints := []; request_travelMode := WALKING |}]).
Proof. vm_compute. reflexivity. Qed.

End McpServer.
